(** * psiphon-tls: FIPS policy layer (boring.go) and handshake message codec

    Part I embeds the compliance policy of [boring.go] (and of the older
    copy of that file) function by function.  Part II is the handshake
    message codec.  Theorems follow the definitions. *)

From Stdlib Require Import List NArith ZArith Lia Bool String Ascii Permutation.
From Stdlib Require Import Strings.Byte.
Import ListNotations.

Local Open Scope N_scope.

(* ================================================================== *)
(** * Part I.  boring.go                                               *)
(* ================================================================== *)

(** ** Go values *)

(** A Go slice: [None] is the nil slice, [Some l] a non-nil slice holding
    [l].  [len] and [range] do not tell the two apart; [== nil] does. *)
Definition slice (A : Type) : Type := option (list A).

Definition elems {A} (s : slice A) : list A :=
  match s with
  | None => []
  | Some l => l
  end.

Definition len {A} (s : slice A) : nat := List.length (elems s).

Definition isNil {A} (s : slice A) : bool :=
  match s with
  | None => true
  | Some _ => false
  end.

(** [append(list, x)]: the result is never nil. *)
Definition append {A} (s : slice A) (x : A) : slice A := Some (elems s ++ [x]).

Definition uint16 := N.
Definition CurveID := uint16.
Definition SignatureScheme := uint16.

(** Modelled from the spec: the protocol constants below are declared in
    common.go and cipher_suites.go, which are not part of the sources at
    hand; the spec refers to them as the shared enumerated constant tables.
    They carry their TLS registry values. *)
Definition VersionTLS12 : uint16 := 0x0303.

(** Modelled from the spec: the curve identifiers (common.go). *)
Definition CurveP256 : CurveID := 23.
Definition CurveP384 : CurveID := 24.
Definition CurveP521 : CurveID := 25.

(** Modelled from the spec: the cipher suite identifiers (cipher_suites.go). *)
Definition TLS_RSA_WITH_AES_128_GCM_SHA256 : uint16 := 0x009c.
Definition TLS_RSA_WITH_AES_256_GCM_SHA384 : uint16 := 0x009d.
Definition TLS_ECDHE_ECDSA_WITH_AES_128_GCM_SHA256 : uint16 := 0xc02b.
Definition TLS_ECDHE_ECDSA_WITH_AES_256_GCM_SHA384 : uint16 := 0xc02c.
Definition TLS_ECDHE_RSA_WITH_AES_128_GCM_SHA256 : uint16 := 0xc02f.
Definition TLS_ECDHE_RSA_WITH_AES_256_GCM_SHA384 : uint16 := 0xc030.

(** Modelled from the spec: the signature scheme identifiers (common.go). *)
Definition PKCS1WithSHA256 : SignatureScheme := 0x0401.
Definition PKCS1WithSHA384 : SignatureScheme := 0x0501.
Definition PKCS1WithSHA512 : SignatureScheme := 0x0601.
Definition PSSWithSHA256 : SignatureScheme := 0x0804.
Definition PSSWithSHA384 : SignatureScheme := 0x0805.
Definition PSSWithSHA512 : SignatureScheme := 0x0806.
Definition ECDSAWithP256AndSHA256 : SignatureScheme := 0x0403.
Definition ECDSAWithP384AndSHA384 : SignatureScheme := 0x0503.
Definition ECDSAWithP521AndSHA512 : SignatureScheme := 0x0603.

(** Modelled from the spec: the SHA-1 hash identifier of the older
    (hash, signature) pairs (common.go). *)
Definition hashSHA1 : N := 2.


(** The fields of [Config] that the policy reads, with the version bounds
    it is documented to replace. *)
Record Config : Type := {
  MinVersion : uint16;
  MaxVersion : uint16;
  CurvePreferences : slice CurveID;
  CipherSuites : slice uint16
}.

(** ** Public keys and certificates *)

(** [elliptic.CurveParams], reduced to what [Params()] is asked for. *)
Record CurveParams : Type := {
  BitSize : Z;
  Name : string
}.

Record rsaPublicKey : Type := {
  rsaN : Z;   (* modulus, a big.Int *)
  rsaE : Z    (* public exponent *)
}.

Record ecdsaPublicKey : Type := {
  Curve : CurveParams;
  ecX : Z;
  ecY : Z
}.

(** The dynamic type held by the [PublicKey] interface value: a pointer to
    an RSA key, a pointer to an ECDSA key, or anything else (the default
    case of the type switch). *)
Inductive publicKey : Type :=
| RSAKey (k : rsaPublicKey)
| ECDSAKey (k : ecdsaPublicKey)
| Ed25519Key (k : list byte)
| UnknownKey (k : list byte).

Record Certificate : Type := {
  Raw : list byte;
  SerialNumber : Z;
  Subject : string;
  Issuer : string;
  IsCA : bool;
  PublicKey : publicKey
}.

(** [BitLen] of a big.Int: the length in bits of the absolute value; the bit
    length of 0 is 0. *)
Definition BitLen (x : Z) : Z :=
  match x with
  | Z0 => 0%Z
  | Zpos p | Zneg p => Z.pos (Pos.size p)
  end.

(** ** The policy functions *)

(** fipsMinVersion replaces c.minVersion in FIPS-only mode. *)
Definition fipsMinVersion (c : option Config) : uint16 := VersionTLS12.

(** fipsMaxVersion replaces c.maxVersion in FIPS-only mode. *)
Definition fipsMaxVersion (c : option Config) : uint16 := VersionTLS12.

Definition defaultFIPSCurvePreferences : list CurveID :=
  [CurveP256; CurveP384; CurveP521].

(** The inner loop shared by the two filters: [for _, allowed := range table {
    if id == allowed { list = append(list, id); break } }] *)
Fixpoint appendIfAllowed (id : uint16) (table : list uint16) (list : slice uint16)
  : slice uint16 :=
  match table with
  | [] => list
  | allowed :: rest =>
      if id =? allowed then append list id
      else appendIfAllowed id rest list
  end.

(** fipsCurvePreferences replaces c.curvePreferences in FIPS-only mode. *)
Definition fipsCurvePreferences (c : option Config) : slice CurveID :=
  match c with
  | None => Some defaultFIPSCurvePreferences
  | Some c =>
      if Nat.eqb (len (CurvePreferences c)) 0 then Some defaultFIPSCurvePreferences
      else
        fold_left (fun list id => appendIfAllowed id defaultFIPSCurvePreferences list)
                  (elems (CurvePreferences c)) None
  end.

Definition defaultFIPSCipherSuites : list uint16 := [
  TLS_ECDHE_RSA_WITH_AES_128_GCM_SHA256;
  TLS_ECDHE_RSA_WITH_AES_256_GCM_SHA384;
  TLS_ECDHE_ECDSA_WITH_AES_128_GCM_SHA256;
  TLS_ECDHE_ECDSA_WITH_AES_256_GCM_SHA384;
  TLS_RSA_WITH_AES_128_GCM_SHA256;
  TLS_RSA_WITH_AES_256_GCM_SHA384
].

(** fipsCipherSuites replaces c.cipherSuites in FIPS-only mode. *)
Definition fipsCipherSuites (c : option Config) : slice uint16 :=
  match c with
  | None => Some defaultFIPSCipherSuites
  | Some c =>
      if isNil (CipherSuites c) then Some defaultFIPSCipherSuites
      else
        fold_left (fun list id => appendIfAllowed id defaultFIPSCipherSuites list)
                  (elems (CipherSuites c)) None
  end.

Section FIPSMode.

(** What [needFIPS()], that is [fipstls.Required()], answers. *)
Variable needFIPS : bool.

(** isBoringCertificate reports whether a certificate may be used when
    constructing a verified chain. *)
Definition isBoringCertificate (c : Certificate) : bool :=
  if negb needFIPS then true
  else
    match PublicKey c with
    | RSAKey k =>
        let size := BitLen (rsaN k) in
        if (negb (size =? 2048)%Z && negb (size =? 3072)%Z)%bool then false
        else true
    | ECDSAKey k =>
        let name := Name (Curve k) in
        if (negb (String.eqb name "P-256") && negb (String.eqb name "P-384"))%bool
        then false
        else true
    | _ => false
    end.

Definition fipsSupportedSignatureAlgorithms : list SignatureScheme := [
  PSSWithSHA256;
  PSSWithSHA384;
  PSSWithSHA512;
  PKCS1WithSHA256;
  ECDSAWithP256AndSHA256;
  PKCS1WithSHA384;
  ECDSAWithP384AndSHA384;
  PKCS1WithSHA512;
  ECDSAWithP521AndSHA512
].

(** The default table is declared in common.go, outside the sources at
    hand: it is a parameter. *)
Variable defaultSupportedSignatureAlgorithms : list SignatureScheme.

(** supportedSignatureAlgorithms returns the supported signature
    algorithms (boring.go). *)
Definition supportedSignatureAlgorithms : list SignatureScheme :=
  if negb needFIPS then defaultSupportedSignatureAlgorithms
  else fipsSupportedSignatureAlgorithms.

End FIPSMode.

(** The older copy of the file works on (hash, signature) pairs and cuts
    the default table at its first SHA-1 entry. *)
Module Legacy.

Record signatureAndHash : Type := {
  hash : N;
  signature : N
}.

(** [i := 0; for i < len(all) && all[i].hash != hashSHA1 { i++ }] *)
Fixpoint firstSHA1 (all : list signatureAndHash) (i : nat) : nat :=
  match all with
  | [] => i
  | sh :: rest => if negb (hash sh =? hashSHA1) then firstSHA1 rest (S i) else i
  end.

Definition supportedSignatureAlgorithms (needFIPS : bool)
    (defaultSupportedSignatureAlgorithms : list signatureAndHash)
  : list signatureAndHash :=
  let all := defaultSupportedSignatureAlgorithms in
  if negb needFIPS then all
  else firstn (firstSHA1 all 0) all.

End Legacy.

(** ** Vocabulary of the policy statements *)

(** Membership of an identifier in a fixed table. *)
Definition allowedIn (table : list uint16) (id : uint16) : bool :=
  existsb (N.eqb id) table.

(** What the spec calls the public-key algorithm with its size or curve. *)
Inductive keyClass : Type :=
| ClassRSA (bits : Z)
| ClassECDSA (curveName : string)
| ClassOther.

Definition classify (k : publicKey) : keyClass :=
  match k with
  | RSAKey k => ClassRSA (BitLen (rsaN k))
  | ECDSAKey k => ClassECDSA (Name (Curve k))
  | _ => ClassOther
  end.

(** [&Config{CipherSuites: []uint16{}}]: a cipher-suite list that is empty
    but not nil. *)
Definition emptyCipherSuitesConfig : Config :=
  {| MinVersion := 0; MaxVersion := 0;
     CurvePreferences := None; CipherSuites := Some [] |}.

(** A certificate around a given key; the other fields are arbitrary. *)
Definition certificateWithKey (k : publicKey) : Certificate :=
  {| Raw := []; SerialNumber := 1%Z; Subject := "leaf"; Issuer := "root";
     IsCA := false; PublicKey := k |}.

Definition ecdsaKeyOn (name : string) (bits : Z) : publicKey :=
  ECDSAKey {| Curve := {| BitSize := bits; Name := name |}; ecX := 1%Z; ecY := 2%Z |}.

Definition rsaKeyOfModulus (n : Z) : publicKey :=
  RSAKey {| rsaN := n; rsaE := 65537%Z |}.

(** [s] is an ordered sublist of [l]: [l] with some entries left out, the
    others in the order [l] has them. *)
Inductive sublist {A : Type} : list A -> list A -> Prop :=
| sublist_nil : forall l, sublist [] l
| sublist_keep : forall x s l, sublist s l -> sublist (x :: s) (x :: l)
| sublist_skip : forall x s l, sublist s l -> sublist s (x :: l).



(* ================================================================== *)
(** * Part II.  Handshake message codec                                *)
(* ================================================================== *)

(** Modelled from the spec: the codec itself (handshake_messages.go and the
    session state of ticket.go) is not part of the sources at hand, which
    hold its tests only.  The definitions of this part follow sections 3,
    4.1, 6 and 9 of the spec: one record per message variant, a 4-byte
    header (type tag, 3-byte big-endian body length), sub-fields behind
    1-, 2- or 3-byte big-endian length prefixes, extensions as (2-byte
    type, 2-byte length, payload) entries inside an optional 2-byte-length
    block, and an optional raw-bytes cache beside the fields.  Every read
    checks the remaining input before it slices. *)

Definition bytes : Type := list byte.

(** Lengths are compared with the bounds of the wire format in [N]. *)
Definition lengthN {A} (l : list A) : N := N.of_nat (List.length l).

(** ** Buffers and parse results *)

(** Modelled from the spec: the three ways a parse can end: a value, the
    failure signal handed to the caller, or a run-time fault (an access
    outside the buffer). *)
Inductive result (A : Type) : Type :=
| Ok (a : A)
| Failure
| Abort.

Arguments Ok {A} a.
Arguments Failure {A}.
Arguments Abort {A}.

Definition andThen {A B} (r : result A) (k : A -> result B) : result B :=
  match r with
  | Ok a => k a
  | Failure => Failure
  | Abort => Abort
  end.

(** Modelled from the spec: unchecked slicing, [data[:n]] and [data[n:]]: a
    fault outside the buffer. *)
Definition sliceTo (data : bytes) (n : nat) : result bytes :=
  if (n <=? List.length data)%nat then Ok (firstn n data) else Abort.

Definition sliceFrom (data : bytes) (n : nat) : result bytes :=
  if (n <=? List.length data)%nat then Ok (skipn n data) else Abort.

(** A parser consumes a prefix of the remaining input. *)
Definition parser (A : Type) : Type := bytes -> result (A * bytes).

Definition ret {A} (a : A) : parser A := fun data => Ok (a, data).

Definition reject {A} : parser A := fun _ => Failure.

Definition bind {A B} (p : parser A) (k : A -> parser B) : parser B :=
  fun data =>
    match p data with
    | Ok (a, rest) => k a rest
    | Failure => Failure
    | Abort => Abort
    end.

Definition lift {A} (r : result A) : parser A :=
  fun data => andThen r (fun a => Ok (a, data)).

Declare Scope parser_scope.
Delimit Scope parser_scope with parser.
Notation "x <- p ;; q" := (bind p (fun x => q))
  (at level 61, p at next level, right associativity) : parser_scope.
Notation "p ;; q" := (bind p (fun _ => q))
  (at level 61, right associativity) : parser_scope.
Local Open Scope parser_scope.

(** Modelled from the spec: the checked read of [n] bytes: the length is
    compared with what is left before the buffer is sliced. *)
Definition take (n : nat) : parser bytes :=
  fun data =>
    if (List.length data <? n)%nat then Failure
    else
      andThen (sliceTo data n) (fun x =>
      andThen (sliceFrom data n) (fun rest =>
      Ok (x, rest))).

(** Succeeds only when the input is used up. *)
Definition atEnd : parser unit :=
  fun data =>
    match data with
    | [] => Ok (tt, [])
    | _ :: _ => Failure
    end.

(** Everything that is left. *)
Definition remaining : parser bytes := fun data => Ok (data, []).

(** Modelled from the spec: runs a parser on a buffer that it has to use up. *)
Definition complete {A} (p : parser A) (data : bytes) : result A :=
  match p data with
  | Ok (a, []) => Ok a
  | Ok (_, _ :: _) => Failure
  | Failure => Failure
  | Abort => Abort
  end.

(** Runs a parser on a delimited payload, inside another parser. *)
Definition within {A} (p : parser A) (payload : bytes) : parser A :=
  lift (complete p payload).

(** ** Big-endian integers and length-prefixed fields *)

(** The conversion [byte(n)]: the low 8 bits. *)
Definition byteOfN (n : N) : byte :=
  match Byte.of_N (n mod 256) with
  | Some b => b
  | None => x00
  end.

(** Modelled from the spec: [w] bytes, most significant first. *)
Fixpoint putUint (w : nat) (n : N) : bytes :=
  match w with
  | O => []
  | S w' => putUint w' (n / 256) ++ [byteOfN n]
  end.

Definition beN (bs : bytes) : N :=
  fold_left (fun acc b => acc * 256 + Byte.to_N b) bs 0.

Definition readUint (w : nat) : parser N :=
  bs <- take w ;; ret (beN bs).

Definition readByte : parser byte :=
  bs <- take 1 ;;
  match bs with
  | [b] => ret b
  | _ => reject
  end.

(** Modelled from the spec: a field behind a [w]-byte length prefix. *)
Definition putVec (w : nat) (v : bytes) : bytes :=
  putUint w (lengthN v) ++ v.

Definition readVec (w : nat) : parser bytes :=
  n <- readUint w ;; take (N.to_nat n).

(** Modelled from the spec: repeats [p] until the buffer is used up; [fuel]
    bounds the number of items. *)
Fixpoint many {A} (fuel : nat) (p : parser A) (data : bytes) : result (list A) :=
  match data with
  | [] => Ok []
  | _ :: _ =>
      match fuel with
      | O => Failure
      | S fuel' =>
          match p data with
          | Ok (x, rest) => andThen (many fuel' p rest) (fun xs => Ok (x :: xs))
          | Failure => Failure
          | Abort => Abort
          end
      end
  end.

(** Modelled from the spec: the items of a delimited block: there are no more
    items than bytes. *)
Definition parseAll {A} (p : parser A) (block : bytes) : result (list A) :=
  many (List.length block) p block.

Definition putAll {A} (put : A -> bytes) (items : list A) : bytes :=
  List.concat (map put items).

(** Modelled from the spec: a list of 16-bit identifiers behind a 2-byte byte
    count. *)
Definition putUint16s (ids : list N) : bytes := putVec 2 (putAll (putUint 2) ids).

Definition readUint16s : parser (list N) :=
  block <- readVec 2 ;; lift (parseAll (readUint 2) block).

(** Modelled from the spec: a list of byte strings, each behind a [w]-byte
    length, in a block behind a [w]-byte length. *)
Definition putVecs (w : nat) (items : list bytes) : bytes :=
  putVec w (putAll (putVec w) items).

Definition readVecs (w : nat) : parser (list bytes) :=
  block <- readVec w ;; lift (parseAll (readVec w) block).

(** The room taken by a list of byte strings or of strings: one unit for
    each entry and one for each of its bytes. *)
Definition itemsSize (items : list bytes) : nat :=
  list_sum (map (fun v : bytes => S (List.length v)) items).

Definition stringsSize (items : list string) : nat :=
  list_sum (map (fun s : string => S (String.length s)) items).

(** Go strings are byte sequences. *)
Definition bytesOf (s : string) : bytes := list_byte_of_string s.
Definition stringOf (b : bytes) : string := string_of_list_byte b.

(** ** The common header *)

(** Modelled from the spec: the type tag, the 3-byte big-endian length of
    the body, the body. *)
Definition putHeader (tag : byte) (body : bytes) : bytes :=
  tag :: putUint 3 (lengthN body) ++ body.

(** Modelled from the spec: header of the variants without an optional
    trailing section: the body is exactly what the header announces. *)
Definition strictBody : parser bytes :=
  take 1 ;; n <- readUint 3 ;; body <- take (N.to_nat n) ;; atEnd ;; ret body.

(** Modelled from the spec: header of ClientHello, ServerHello and Finished,
    for which the spec admits legal prefixes: the four bytes are stepped over. *)
Definition skipHeader : parser unit := take 4 ;; ret tt.

(** ** Extensions *)

Definition extension : Type := (N * bytes)%type.

Definition putExtension (e : extension) : bytes :=
  putUint 2 (fst e) ++ putVec 2 (snd e).

Definition readExtension : parser extension :=
  ty <- readUint 2 ;; payload <- readVec 2 ;; ret (ty, payload).

(** Modelled from the spec: the block is left out altogether when there is no
    extension. *)
Definition putExtensions (exts : list extension) : bytes :=
  match exts with
  | [] => []
  | _ :: _ => putVec 2 (putAll putExtension exts)
  end.

(** Modelled from the spec: no trailing bytes: no extension.  Otherwise one
    block up to the end. *)
Definition readExtensions : parser (list extension) :=
  fun data =>
    match data with
    | [] => Ok ([], [])
    | _ :: _ =>
        (block <- readVec 2 ;; atEnd ;; lift (parseAll readExtension block)) data
    end.

Fixpoint foldResult {S E} (f : S -> E -> result S) (l : list E) (s : S) : result S :=
  match l with
  | [] => Ok s
  | e :: l' => andThen (f s e) (foldResult f l')
  end.

Definition optional {A} (present : bool) (x : A) : list A :=
  if present then [x] else [].

Definition nonEmpty {A} (l : list A) : bool :=
  match l with
  | [] => false
  | _ :: _ => true
  end.

(** Modelled from the spec: extension types and the OCSP status type, with
    their registry values. *)
Definition extensionServerName : N := 0.
Definition extensionStatusRequest : N := 5.
Definition extensionSupportedCurves : N := 10.
Definition extensionSupportedPoints : N := 11.
Definition extensionSignatureAlgorithms : N := 13.
Definition extensionALPN : N := 16.
Definition extensionSCT : N := 18.
Definition extensionSessionTicket : N := 35.
Definition extensionNextProtoNeg : N := 13172.

Definition statusTypeOCSP : byte := x01.

Definition byteEqb (a b : byte) : bool := Byte.eqb a b.

(** ** ClientHello *)

Module ClientHello.

(** Modelled from the spec: the ClientHello of section 3; slices are kept
    by their contents, strings as strings, flags as booleans. *)
Record clientHelloMsg : Type := {
  vers : N;
  random : bytes;
  sessionId : bytes;
  cipherSuites : list N;
  compressionMethods : bytes;
  nextProtoNeg : bool;
  serverName : string;
  ocspStapling : bool;
  supportedPoints : bytes;
  supportedCurves : list N;
  ticketSupported : bool;
  sessionTicket : bytes;
  supportedSignatureAlgorithms : list N;
  alpnProtocols : list string;
  scts : bool
}.

(** The message before any extension is read. *)
Definition withoutExtensions (v : N) (r s : bytes) (cs : list N) (cm : bytes)
  : clientHelloMsg :=
  {| vers := v; random := r; sessionId := s; cipherSuites := cs;
     compressionMethods := cm;
     nextProtoNeg := false; serverName := EmptyString; ocspStapling := false;
     supportedPoints := []; supportedCurves := [];
     ticketSupported := false; sessionTicket := [];
     supportedSignatureAlgorithms := []; alpnProtocols := []; scts := false |}.

Definition withNextProtoNeg (m : clientHelloMsg) (b : bool) : clientHelloMsg :=
  {| vers := vers m; random := random m; sessionId := sessionId m;
     cipherSuites := cipherSuites m; compressionMethods := compressionMethods m;
     nextProtoNeg := b; serverName := serverName m; ocspStapling := ocspStapling m;
     supportedPoints := supportedPoints m; supportedCurves := supportedCurves m;
     ticketSupported := ticketSupported m; sessionTicket := sessionTicket m;
     supportedSignatureAlgorithms := supportedSignatureAlgorithms m; alpnProtocols := alpnProtocols m;
     scts := scts m |}.

Definition withServerName (m : clientHelloMsg) (name : string) : clientHelloMsg :=
  {| vers := vers m; random := random m; sessionId := sessionId m;
     cipherSuites := cipherSuites m; compressionMethods := compressionMethods m;
     nextProtoNeg := nextProtoNeg m; serverName := name; ocspStapling := ocspStapling m;
     supportedPoints := supportedPoints m; supportedCurves := supportedCurves m;
     ticketSupported := ticketSupported m; sessionTicket := sessionTicket m;
     supportedSignatureAlgorithms := supportedSignatureAlgorithms m; alpnProtocols := alpnProtocols m;
     scts := scts m |}.

Definition withOcspStapling (m : clientHelloMsg) (b : bool) : clientHelloMsg :=
  {| vers := vers m; random := random m; sessionId := sessionId m;
     cipherSuites := cipherSuites m; compressionMethods := compressionMethods m;
     nextProtoNeg := nextProtoNeg m; serverName := serverName m; ocspStapling := b;
     supportedPoints := supportedPoints m; supportedCurves := supportedCurves m;
     ticketSupported := ticketSupported m; sessionTicket := sessionTicket m;
     supportedSignatureAlgorithms := supportedSignatureAlgorithms m; alpnProtocols := alpnProtocols m;
     scts := scts m |}.

Definition withSupportedPoints (m : clientHelloMsg) (pts : bytes) : clientHelloMsg :=
  {| vers := vers m; random := random m; sessionId := sessionId m;
     cipherSuites := cipherSuites m; compressionMethods := compressionMethods m;
     nextProtoNeg := nextProtoNeg m; serverName := serverName m;
     ocspStapling := ocspStapling m;
     supportedPoints := pts; supportedCurves := supportedCurves m;
     ticketSupported := ticketSupported m; sessionTicket := sessionTicket m;
     supportedSignatureAlgorithms := supportedSignatureAlgorithms m; alpnProtocols := alpnProtocols m;
     scts := scts m |}.

Definition withSupportedCurves (m : clientHelloMsg) (curves : list N) : clientHelloMsg :=
  {| vers := vers m; random := random m; sessionId := sessionId m;
     cipherSuites := cipherSuites m; compressionMethods := compressionMethods m;
     nextProtoNeg := nextProtoNeg m; serverName := serverName m;
     ocspStapling := ocspStapling m;
     supportedPoints := supportedPoints m; supportedCurves := curves;
     ticketSupported := ticketSupported m; sessionTicket := sessionTicket m;
     supportedSignatureAlgorithms := supportedSignatureAlgorithms m; alpnProtocols := alpnProtocols m;
     scts := scts m |}.

Definition withSessionTicket (m : clientHelloMsg) (ticket : bytes) : clientHelloMsg :=
  {| vers := vers m; random := random m; sessionId := sessionId m;
     cipherSuites := cipherSuites m; compressionMethods := compressionMethods m;
     nextProtoNeg := nextProtoNeg m; serverName := serverName m;
     ocspStapling := ocspStapling m;
     supportedPoints := supportedPoints m; supportedCurves := supportedCurves m;
     ticketSupported := true; sessionTicket := ticket;
     supportedSignatureAlgorithms := supportedSignatureAlgorithms m; alpnProtocols := alpnProtocols m;
     scts := scts m |}.

Definition withSignatureAlgorithms (m : clientHelloMsg) (algs : list N) : clientHelloMsg :=
  {| vers := vers m; random := random m; sessionId := sessionId m;
     cipherSuites := cipherSuites m; compressionMethods := compressionMethods m;
     nextProtoNeg := nextProtoNeg m; serverName := serverName m;
     ocspStapling := ocspStapling m;
     supportedPoints := supportedPoints m; supportedCurves := supportedCurves m;
     ticketSupported := ticketSupported m; sessionTicket := sessionTicket m;
     supportedSignatureAlgorithms := algs; alpnProtocols := alpnProtocols m;
     scts := scts m |}.

Definition withAlpnProtocols (m : clientHelloMsg) (protos : list string) : clientHelloMsg :=
  {| vers := vers m; random := random m; sessionId := sessionId m;
     cipherSuites := cipherSuites m; compressionMethods := compressionMethods m;
     nextProtoNeg := nextProtoNeg m; serverName := serverName m;
     ocspStapling := ocspStapling m;
     supportedPoints := supportedPoints m; supportedCurves := supportedCurves m;
     ticketSupported := ticketSupported m; sessionTicket := sessionTicket m;
     supportedSignatureAlgorithms := supportedSignatureAlgorithms m; alpnProtocols := protos;
     scts := scts m |}.

Definition withScts (m : clientHelloMsg) (b : bool) : clientHelloMsg :=
  {| vers := vers m; random := random m; sessionId := sessionId m;
     cipherSuites := cipherSuites m; compressionMethods := compressionMethods m;
     nextProtoNeg := nextProtoNeg m; serverName := serverName m;
     ocspStapling := ocspStapling m;
     supportedPoints := supportedPoints m; supportedCurves := supportedCurves m;
     ticketSupported := ticketSupported m; sessionTicket := sessionTicket m;
     supportedSignatureAlgorithms := supportedSignatureAlgorithms m; alpnProtocols := alpnProtocols m;
     scts := b |}.

(** *** Serialization *)

(** Modelled from the spec: the fixed part: version, 32-byte random, session
    id, cipher suites, compression methods. *)
Definition hello (m : clientHelloMsg) : bytes :=
  putUint 2 (vers m) ++ random m ++ putVec 1 (sessionId m)
    ++ putUint16s (cipherSuites m) ++ putVec 1 (compressionMethods m).

(** One entry of the server-name list: name type, then the name. *)
Definition putServerName (name : string) : bytes :=
  putVec 2 (putUint 1 0 ++ putVec 2 (bytesOf name)).

Definition putProtocols (protos : list string) : bytes :=
  putVec 2 (putAll (fun s => putVec 1 (bytesOf s)) protos).

Definition extensions (m : clientHelloMsg) : list extension :=
  optional (nextProtoNeg m) (extensionNextProtoNeg, [])
  ++ optional (negb (String.eqb (serverName m) EmptyString))
       (extensionServerName, putServerName (serverName m))
  ++ optional (ocspStapling m)
       (extensionStatusRequest, [statusTypeOCSP; x00; x00; x00; x00])
  ++ optional (nonEmpty (supportedPoints m))
       (extensionSupportedPoints, putVec 1 (supportedPoints m))
  ++ optional (nonEmpty (supportedCurves m))
       (extensionSupportedCurves, putUint16s (supportedCurves m))
  ++ optional (ticketSupported m) (extensionSessionTicket, sessionTicket m)
  ++ optional (nonEmpty (supportedSignatureAlgorithms m))
       (extensionSignatureAlgorithms, putUint16s (supportedSignatureAlgorithms m))
  ++ optional (nonEmpty (alpnProtocols m))
       (extensionALPN, putProtocols (alpnProtocols m))
  ++ optional (scts m) (extensionSCT, []).

(** Modelled from the spec: the header, the fixed part, then the extension
    block when there is an extension to send. *)
Definition marshal (tag : byte) (m : clientHelloMsg) : bytes :=
  putHeader tag (hello m ++ putExtensions (extensions m)).

(** *** Parsing *)

Definition readServerName : parser (N * bytes) :=
  nameType <- readUint 1 ;; name <- readVec 2 ;; ret (nameType, name).

Definition readProtocols : parser (list bytes) :=
  block <- readVec 2 ;; lift (parseAll (readVec 1) block).

(** Modelled from the spec: one extension entry read into the message;
    unknown types are skipped. *)
Definition applyExtension (m : clientHelloMsg) (e : extension) : result clientHelloMsg :=
  let (ty, payload) := e in
  if ty =? extensionNextProtoNeg then
    match payload with
    | [] => Ok (withNextProtoNeg m true)
    | _ :: _ => Failure
    end
  else if ty =? extensionServerName then
    andThen (complete (readVec 2) payload) (fun block =>
    andThen (parseAll readServerName block) (fun names =>
    match find (fun entry => fst entry =? 0) names with
    | Some (_, name) => Ok (withServerName m (stringOf name))
    | None => Ok m
    end))
  else if ty =? extensionStatusRequest then
    match payload with
    | [] => Ok (withOcspStapling m false)
    | statusType :: _ => Ok (withOcspStapling m (byteEqb statusType statusTypeOCSP))
    end
  else if ty =? extensionSupportedPoints then
    andThen (complete (readVec 1) payload) (fun pts =>
    Ok (withSupportedPoints m pts))
  else if ty =? extensionSupportedCurves then
    andThen (complete readUint16s payload) (fun curves =>
    Ok (withSupportedCurves m curves))
  else if ty =? extensionSessionTicket then
    Ok (withSessionTicket m payload)
  else if ty =? extensionSignatureAlgorithms then
    andThen (complete readUint16s payload) (fun algs =>
    Ok (withSignatureAlgorithms m algs))
  else if ty =? extensionALPN then
    andThen (complete readProtocols payload) (fun protos =>
    Ok (withAlpnProtocols m (map stringOf protos)))
  else if ty =? extensionSCT then
    match payload with
    | [] => Ok (withScts m true)
    | _ :: _ => Failure
    end
  else
    Ok m.

Definition parse : parser clientHelloMsg :=
  skipHeader ;;
  v <- readUint 2 ;;
  r <- take 32 ;;
  s <- readVec 1 ;;
  cs <- readUint16s ;;
  cm <- readVec 1 ;;
  exts <- readExtensions ;;
  lift (foldResult applyExtension exts (withoutExtensions v r s cs cm)).

(** Modelled from the spec: parse, a value or the failure signal. *)
Definition unmarshal (data : bytes) : result clientHelloMsg := complete parse data.

(** The generator of the tests replaces the renegotiation signalling value
    among the cipher suites and strips trailing dots from the server name:
    valid messages carry neither. *)
Definition scsvRenegotiation : N := 0x00ff.

Fixpoint endsWithDot (s : string) : bool :=
  match s with
  | EmptyString => false
  | String c s' =>
      match s' with
      | EmptyString => Ascii.eqb c "."%char
      | String _ _ => endsWithDot s'
      end
  end.

(** Modelled from the spec: the field constraints under which the fields fit
    the wire format. *)
Definition valid (m : clientHelloMsg) : Prop :=
  vers m < 65536 /\
  Forall (fun c => c <> scsvRenegotiation) (cipherSuites m) /\
  endsWithDot (serverName m) = false /\
  List.length (random m) = 32%nat /\
  lengthN (sessionId m) < 256 /\
  Forall (fun c => c < 65536) (cipherSuites m) /\
  2 * lengthN (cipherSuites m) < 65536 /\
  lengthN (compressionMethods m) < 256 /\
  lengthN (supportedPoints m) < 256 /\
  Forall (fun c => c < 65536) (supportedCurves m) /\
  (ticketSupported m = false -> sessionTicket m = []) /\
  Forall (fun a => a < 65536) (supportedSignatureAlgorithms m) /\
  Forall (fun s => lengthN (bytesOf s) < 256) (alpnProtocols m) /\
  lengthN (putAll putExtension (extensions m)) < 65536.

(** Room taken by the variable-length fields: their bytes and, for lists,
    their entries. *)
Definition footprint (m : clientHelloMsg) : nat :=
  (List.length (random m) + List.length (sessionId m)
   + 2 * List.length (cipherSuites m) + List.length (compressionMethods m)
   + String.length (serverName m) + List.length (supportedPoints m)
   + 2 * List.length (supportedCurves m) + List.length (sessionTicket m)
   + 2 * List.length (supportedSignatureAlgorithms m)
   + stringsSize (alpnProtocols m))%nat.

End ClientHello.

(** ** ServerHello *)

Module ServerHello.

(** Modelled from the spec: the ServerHello of section 3. *)
Record serverHelloMsg : Type := {
  vers : N;
  random : bytes;
  sessionId : bytes;
  cipherSuite : N;
  compressionMethod : byte;
  nextProtoNeg : bool;
  nextProtos : list string;
  ocspStapling : bool;
  ticketSupported : bool;
  alpnProtocol : string;
  scts : list bytes
}.

Definition withoutExtensions (v : N) (r s : bytes) (c : N) (cm : byte)
  : serverHelloMsg :=
  {| vers := v; random := r; sessionId := s; cipherSuite := c;
     compressionMethod := cm;
     nextProtoNeg := false; nextProtos := []; ocspStapling := false;
     ticketSupported := false; alpnProtocol := EmptyString; scts := [] |}.

Definition withNextProtos (m : serverHelloMsg) (protos : list string) : serverHelloMsg :=
  {| vers := vers m; random := random m; sessionId := sessionId m;
     cipherSuite := cipherSuite m; compressionMethod := compressionMethod m;
     nextProtoNeg := true; nextProtos := protos; ocspStapling := ocspStapling m;
     ticketSupported := ticketSupported m; alpnProtocol := alpnProtocol m;
     scts := scts m |}.

Definition withOcspStapling (m : serverHelloMsg) (b : bool) : serverHelloMsg :=
  {| vers := vers m; random := random m; sessionId := sessionId m;
     cipherSuite := cipherSuite m; compressionMethod := compressionMethod m;
     nextProtoNeg := nextProtoNeg m; nextProtos := nextProtos m; ocspStapling := b;
     ticketSupported := ticketSupported m; alpnProtocol := alpnProtocol m;
     scts := scts m |}.

Definition withTicketSupported (m : serverHelloMsg) (b : bool) : serverHelloMsg :=
  {| vers := vers m; random := random m; sessionId := sessionId m;
     cipherSuite := cipherSuite m; compressionMethod := compressionMethod m;
     nextProtoNeg := nextProtoNeg m; nextProtos := nextProtos m;
     ocspStapling := ocspStapling m;
     ticketSupported := b; alpnProtocol := alpnProtocol m;
     scts := scts m |}.

Definition withAlpnProtocol (m : serverHelloMsg) (proto : string) : serverHelloMsg :=
  {| vers := vers m; random := random m; sessionId := sessionId m;
     cipherSuite := cipherSuite m; compressionMethod := compressionMethod m;
     nextProtoNeg := nextProtoNeg m; nextProtos := nextProtos m;
     ocspStapling := ocspStapling m;
     ticketSupported := ticketSupported m; alpnProtocol := proto;
     scts := scts m |}.

Definition withScts (m : serverHelloMsg) (l : list bytes) : serverHelloMsg :=
  {| vers := vers m; random := random m; sessionId := sessionId m;
     cipherSuite := cipherSuite m; compressionMethod := compressionMethod m;
     nextProtoNeg := nextProtoNeg m; nextProtos := nextProtos m;
     ocspStapling := ocspStapling m;
     ticketSupported := ticketSupported m; alpnProtocol := alpnProtocol m;
     scts := l |}.

(** *** Serialization *)

(** Modelled from the spec: version, 32-byte random, session id, chosen cipher
    suite, chosen compression method. *)
Definition hello (m : serverHelloMsg) : bytes :=
  putUint 2 (vers m) ++ random m ++ putVec 1 (sessionId m)
    ++ putUint 2 (cipherSuite m) ++ [compressionMethod m].

Definition putNextProtos (protos : list string) : bytes :=
  putAll (fun s => putVec 1 (bytesOf s)) protos.

Definition putAlpnProtocol (proto : string) : bytes :=
  putVec 2 (putVec 1 (bytesOf proto)).

Definition extensions (m : serverHelloMsg) : list extension :=
  optional (nextProtoNeg m) (extensionNextProtoNeg, putNextProtos (nextProtos m))
  ++ optional (ocspStapling m) (extensionStatusRequest, [])
  ++ optional (ticketSupported m) (extensionSessionTicket, [])
  ++ optional (negb (String.eqb (alpnProtocol m) EmptyString))
       (extensionALPN, putAlpnProtocol (alpnProtocol m))
  ++ optional (nonEmpty (scts m)) (extensionSCT, putVecs 2 (scts m)).

(** Modelled from the spec: the header, the fixed part, then the extension
    block when there is an extension to send. *)
Definition marshal (tag : byte) (m : serverHelloMsg) : bytes :=
  putHeader tag (hello m ++ putExtensions (extensions m)).

(** *** Parsing *)

Definition readAlpnProtocol : parser bytes :=
  block <- readVec 2 ;; within (readVec 1) block.

(** Modelled from the spec: one SCT entry; an entry of length zero is a
    failure. *)
Definition readSCT : parser bytes :=
  sct <- readVec 2 ;;
  match sct with
  | [] => reject
  | _ :: _ => ret sct
  end.

(** Modelled from the spec: the SCT list; a list of length zero is a
    failure. *)
Definition readSCTs : parser (list bytes) :=
  block <- readVec 2 ;;
  match block with
  | [] => reject
  | _ :: _ => lift (parseAll readSCT block)
  end.

(** Modelled from the spec: one extension entry read into the message;
    unknown types are skipped, an SCT extension that breaks its invariant
    is a failure. *)
Definition applyExtension (m : serverHelloMsg) (e : extension) : result serverHelloMsg :=
  let (ty, payload) := e in
  if ty =? extensionNextProtoNeg then
    andThen (parseAll (readVec 1) payload) (fun protos =>
    Ok (withNextProtos m (map stringOf protos)))
  else if ty =? extensionStatusRequest then
    match payload with
    | [] => Ok (withOcspStapling m true)
    | _ :: _ => Failure
    end
  else if ty =? extensionSessionTicket then
    match payload with
    | [] => Ok (withTicketSupported m true)
    | _ :: _ => Failure
    end
  else if ty =? extensionALPN then
    andThen (complete readAlpnProtocol payload) (fun proto =>
    Ok (withAlpnProtocol m (stringOf proto)))
  else if ty =? extensionSCT then
    andThen (complete readSCTs payload) (fun l =>
    Ok (withScts m l))
  else
    Ok m.

Definition parse : parser serverHelloMsg :=
  skipHeader ;;
  v <- readUint 2 ;;
  r <- take 32 ;;
  s <- readVec 1 ;;
  c <- readUint 2 ;;
  cm <- readByte ;;
  exts <- readExtensions ;;
  lift (foldResult applyExtension exts (withoutExtensions v r s c cm)).

(** Modelled from the spec: parse, a value or the failure signal. *)
Definition unmarshal (data : bytes) : result serverHelloMsg := complete parse data.

Definition valid (m : serverHelloMsg) : Prop :=
  vers m < 65536 /\
  List.length (random m) = 32%nat /\
  lengthN (sessionId m) < 256 /\
  cipherSuite m < 65536 /\
  (nextProtoNeg m = false -> nextProtos m = []) /\
  Forall (fun s => lengthN (bytesOf s) < 256) (nextProtos m) /\
  lengthN (bytesOf (alpnProtocol m)) < 256 /\
  Forall (fun sct => sct <> []) (scts m) /\
  lengthN (putAll putExtension (extensions m)) < 65536.

Definition footprint (m : serverHelloMsg) : nat :=
  (List.length (random m) + List.length (sessionId m)
   + stringsSize (nextProtos m)
   + String.length (alpnProtocol m)
   + itemsSize (scts m))%nat.

End ServerHello.

(** ** Finished *)

Module Finished.

(** Modelled from the spec: the Finished message of section 3. *)
Record finishedMsg : Type := {
  verifyData : bytes
}.

(** Modelled from the spec: the header, then the verification data. *)
Definition marshal (tag : byte) (m : finishedMsg) : bytes :=
  putHeader tag (verifyData m).

(** Modelled from the spec: the length of the verification data depends on the
    negotiated version: whatever follows the header is taken. *)
Definition parse : parser finishedMsg :=
  skipHeader ;; v <- remaining ;; ret {| verifyData := v |}.

(** Modelled from the spec: parse, a value or the failure signal. *)
Definition unmarshal (data : bytes) : result finishedMsg := complete parse data.

Definition valid (m : finishedMsg) : Prop := List.length (verifyData m) = 12%nat.

Definition footprint (m : finishedMsg) : nat := List.length (verifyData m).

End Finished.

(** ** Certificate *)

Module Certificate.

(** Modelled from the spec: the Certificate message of section 3. *)
Record certificateMsg : Type := {
  certificates : list bytes
}.

Definition body (m : certificateMsg) : bytes := putVecs 3 (certificates m).

(** Modelled from the spec: the header, then the body. *)
Definition marshal (tag : byte) (m : certificateMsg) : bytes :=
  putHeader tag (body m).

Definition readBody : parser certificateMsg :=
  certs <- readVecs 3 ;; ret {| certificates := certs |}.

Definition parse : parser certificateMsg :=
  b <- strictBody ;; within readBody b.

(** Modelled from the spec: parse, a value or the failure signal. *)
Definition unmarshal (data : bytes) : result certificateMsg := complete parse data.

Definition valid (m : certificateMsg) : Prop := lengthN (body m) < 16777216.

Definition footprint (m : certificateMsg) : nat :=
  itemsSize (certificates m).

End Certificate.

(** ** CertificateRequest *)

Module CertificateRequest.

(** Modelled from the spec: the CertificateRequest message of section 3. *)
Record certificateRequestMsg : Type := {
  certificateTypes : bytes;
  certificateAuthorities : list bytes
}.

Definition body (m : certificateRequestMsg) : bytes :=
  putVec 1 (certificateTypes m) ++ putVecs 2 (certificateAuthorities m).

(** Modelled from the spec: the header, then the body. *)
Definition marshal (tag : byte) (m : certificateRequestMsg) : bytes :=
  putHeader tag (body m).

Definition readBody : parser certificateRequestMsg :=
  types <- readVec 1 ;;
  cas <- readVecs 2 ;;
  ret {| certificateTypes := types; certificateAuthorities := cas |}.

Definition parse : parser certificateRequestMsg :=
  b <- strictBody ;; within readBody b.

(** Modelled from the spec: parse, a value or the failure signal. *)
Definition unmarshal (data : bytes) : result certificateRequestMsg :=
  complete parse data.

Definition valid (m : certificateRequestMsg) : Prop :=
  lengthN (certificateTypes m) < 256 /\
  lengthN (putAll (putVec 2) (certificateAuthorities m)) < 65536.

Definition footprint (m : certificateRequestMsg) : nat :=
  (List.length (certificateTypes m)
   + itemsSize (certificateAuthorities m))%nat.

End CertificateRequest.

(** ** CertificateVerify *)

Module CertificateVerify.

(** Modelled from the spec: the CertificateVerify message of section 3. *)
Record certificateVerifyMsg : Type := {
  signature : bytes
}.

Definition body (m : certificateVerifyMsg) : bytes := putVec 2 (signature m).

(** Modelled from the spec: the header, then the body. *)
Definition marshal (tag : byte) (m : certificateVerifyMsg) : bytes :=
  putHeader tag (body m).

Definition readBody : parser certificateVerifyMsg :=
  sig <- readVec 2 ;; ret {| signature := sig |}.

Definition parse : parser certificateVerifyMsg :=
  b <- strictBody ;; within readBody b.

(** Modelled from the spec: parse, a value or the failure signal. *)
Definition unmarshal (data : bytes) : result certificateVerifyMsg :=
  complete parse data.

Definition valid (m : certificateVerifyMsg) : Prop := lengthN (signature m) < 65536.

Definition footprint (m : certificateVerifyMsg) : nat := List.length (signature m).

End CertificateVerify.

(** ** CertificateStatus *)

Module CertificateStatus.

(** Modelled from the spec: the CertificateStatus message of section 3. *)
Record certificateStatusMsg : Type := {
  statusType : byte;
  response : bytes
}.

(** Modelled from the spec: only the OCSP status type carries a payload. *)
Definition body (m : certificateStatusMsg) : bytes :=
  statusType m ::
    (if byteEqb (statusType m) statusTypeOCSP then putVec 3 (response m) else []).

(** Modelled from the spec: the header, then the body. *)
Definition marshal (tag : byte) (m : certificateStatusMsg) : bytes :=
  putHeader tag (body m).

Definition readBody : parser certificateStatusMsg :=
  st <- readByte ;;
  if byteEqb st statusTypeOCSP then
    resp <- readVec 3 ;; ret {| statusType := st; response := resp |}
  else
    ret {| statusType := st; response := [] |}.

Definition parse : parser certificateStatusMsg :=
  b <- strictBody ;; within readBody b.

(** Modelled from the spec: parse, a value or the failure signal. *)
Definition unmarshal (data : bytes) : result certificateStatusMsg :=
  complete parse data.

Definition valid (m : certificateStatusMsg) : Prop :=
  (statusType m <> statusTypeOCSP -> response m = []) /\
  lengthN (response m) < 16777216 - 4.

Definition footprint (m : certificateStatusMsg) : nat := List.length (response m).

End CertificateStatus.

(** ** ClientKeyExchange *)

Module ClientKeyExchange.

(** Modelled from the spec: the ClientKeyExchange message of section 3. *)
Record clientKeyExchangeMsg : Type := {
  ciphertext : bytes
}.

Definition body (m : clientKeyExchangeMsg) : bytes := ciphertext m.

(** Modelled from the spec: the header, then the body. *)
Definition marshal (tag : byte) (m : clientKeyExchangeMsg) : bytes :=
  putHeader tag (body m).

Definition readBody : parser clientKeyExchangeMsg :=
  c <- remaining ;; ret {| ciphertext := c |}.

Definition parse : parser clientKeyExchangeMsg :=
  b <- strictBody ;; within readBody b.

(** Modelled from the spec: parse, a value or the failure signal. *)
Definition unmarshal (data : bytes) : result clientKeyExchangeMsg :=
  complete parse data.

Definition valid (m : clientKeyExchangeMsg) : Prop :=
  lengthN (ciphertext m) < 16777216.

Definition footprint (m : clientKeyExchangeMsg) : nat := List.length (ciphertext m).

End ClientKeyExchange.

(** ** NextProtoMsg *)

Module NextProto.

(** Modelled from the spec: the NextProtoMsg of section 3. *)
Record nextProtoMsg : Type := {
  proto : string
}.

(** Modelled from the spec: the padding brings the two length-prefixed fields
    to a multiple of 32 bytes. *)
Definition paddingLen (m : nextProtoMsg) : nat :=
  (32 - (List.length (bytesOf (proto m)) + 2) mod 32)%nat.

Definition body (m : nextProtoMsg) : bytes :=
  putVec 1 (bytesOf (proto m)) ++ putVec 1 (repeat x00 (paddingLen m)).

(** Modelled from the spec: the header, then the body. *)
Definition marshal (tag : byte) (m : nextProtoMsg) : bytes :=
  putHeader tag (body m).

Definition readBody : parser nextProtoMsg :=
  p <- readVec 1 ;;
  readVec 1 ;;
  ret {| proto := stringOf p |}.

Definition parse : parser nextProtoMsg :=
  b <- strictBody ;; within readBody b.

(** Modelled from the spec: parse, a value or the failure signal. *)
Definition unmarshal (data : bytes) : result nextProtoMsg := complete parse data.

Definition valid (m : nextProtoMsg) : Prop := lengthN (bytesOf (proto m)) < 256.

Definition footprint (m : nextProtoMsg) : nat := String.length (proto m).

End NextProto.

(** ** NewSessionTicket *)

Module NewSessionTicket.

(** Modelled from the spec: the NewSessionTicket message of section 3. *)
Record newSessionTicketMsg : Type := {
  ticket : bytes
}.

(** Modelled from the spec: four bytes of lifetime hint, left at zero, then
    the ticket. *)
Definition body (m : newSessionTicketMsg) : bytes :=
  putUint 4 0 ++ putVec 2 (ticket m).

(** Modelled from the spec: the header, then the body. *)
Definition marshal (tag : byte) (m : newSessionTicketMsg) : bytes :=
  putHeader tag (body m).

Definition readBody : parser newSessionTicketMsg :=
  take 4 ;;
  t <- readVec 2 ;;
  ret {| ticket := t |}.

Definition parse : parser newSessionTicketMsg :=
  b <- strictBody ;; within readBody b.

(** Modelled from the spec: parse, a value or the failure signal. *)
Definition unmarshal (data : bytes) : result newSessionTicketMsg :=
  complete parse data.

Definition valid (m : newSessionTicketMsg) : Prop := lengthN (ticket m) < 65536.

Definition footprint (m : newSessionTicketMsg) : nat := List.length (ticket m).

End NewSessionTicket.

(** ** SessionState *)

Module SessionState.

(** Modelled from the spec: the SessionState of section 3, under the same
    codec discipline as the messages. *)
Record sessionState : Type := {
  vers : N;
  cipherSuite : N;
  masterSecret : bytes;
  certificates : list bytes
}.

Definition body (s : sessionState) : bytes :=
  putUint 2 (vers s) ++ putUint 2 (cipherSuite s) ++ putVec 2 (masterSecret s)
    ++ putVecs 3 (certificates s).

(** Modelled from the spec: the header, then the body. *)
Definition marshal (tag : byte) (s : sessionState) : bytes :=
  putHeader tag (body s).

Definition readBody : parser sessionState :=
  v <- readUint 2 ;;
  c <- readUint 2 ;;
  ms <- readVec 2 ;;
  certs <- readVecs 3 ;;
  ret {| vers := v; cipherSuite := c; masterSecret := ms; certificates := certs |}.

Definition parse : parser sessionState :=
  b <- strictBody ;; within readBody b.

(** Modelled from the spec: parse, a value or the failure signal. *)
Definition unmarshal (data : bytes) : result sessionState := complete parse data.

Definition valid (s : sessionState) : Prop :=
  vers s < 65536 /\
  cipherSuite s < 65536 /\
  lengthN (masterSecret s) < 65536 /\
  lengthN (body s) < 16777216.

Definition footprint (s : sessionState) : nat :=
  (List.length (masterSecret s)
   + itemsSize (certificates s))%nat.

End SessionState.

(** ** The closed set of variants *)

(** Modelled from the spec: the variants, in the order of the tests' table. *)
Inductive variant : Type :=
| vClientHello
| vServerHello
| vFinished
| vCertificate
| vCertificateRequest
| vCertificateVerify
| vCertificateStatus
| vClientKeyExchange
| vNextProto
| vNewSessionTicket
| vSessionState.

(** Modelled from the spec: the variants with a legitimately optional trailing
    section. *)
Definition hasOptionalTail (v : variant) : bool :=
  match v with
  | vClientHello | vServerHello | vFinished => true
  | _ => false
  end.

(** Modelled from the spec: the tagged union of the message records. *)
Inductive message : Type :=
| ClientHelloMsg (m : ClientHello.clientHelloMsg)
| ServerHelloMsg (m : ServerHello.serverHelloMsg)
| FinishedMsg (m : Finished.finishedMsg)
| CertificateMsg (m : Certificate.certificateMsg)
| CertificateRequestMsg (m : CertificateRequest.certificateRequestMsg)
| CertificateVerifyMsg (m : CertificateVerify.certificateVerifyMsg)
| CertificateStatusMsg (m : CertificateStatus.certificateStatusMsg)
| ClientKeyExchangeMsg (m : ClientKeyExchange.clientKeyExchangeMsg)
| NextProtoMsg (m : NextProto.nextProtoMsg)
| NewSessionTicketMsg (m : NewSessionTicket.newSessionTicketMsg)
| SessionStateMsg (s : SessionState.sessionState).

Definition variantOf (m : message) : variant :=
  match m with
  | ClientHelloMsg _ => vClientHello
  | ServerHelloMsg _ => vServerHello
  | FinishedMsg _ => vFinished
  | CertificateMsg _ => vCertificate
  | CertificateRequestMsg _ => vCertificateRequest
  | CertificateVerifyMsg _ => vCertificateVerify
  | CertificateStatusMsg _ => vCertificateStatus
  | ClientKeyExchangeMsg _ => vClientKeyExchange
  | NextProtoMsg _ => vNextProto
  | NewSessionTicketMsg _ => vNewSessionTicket
  | SessionStateMsg _ => vSessionState
  end.

Definition mapResult {A B} (f : A -> B) (r : result A) : result B :=
  andThen r (fun a => Ok (f a)).

(** Modelled from the spec: serialization from the fields.  The tag of each
    variant is a table of the protocol that the spec does not list: it is a
    parameter. *)
Definition encode (typeTag : variant -> byte) (m : message) : bytes :=
  match m with
  | ClientHelloMsg m => ClientHello.marshal (typeTag vClientHello) m
  | ServerHelloMsg m => ServerHello.marshal (typeTag vServerHello) m
  | FinishedMsg m => Finished.marshal (typeTag vFinished) m
  | CertificateMsg m => Certificate.marshal (typeTag vCertificate) m
  | CertificateRequestMsg m => CertificateRequest.marshal (typeTag vCertificateRequest) m
  | CertificateVerifyMsg m => CertificateVerify.marshal (typeTag vCertificateVerify) m
  | CertificateStatusMsg m => CertificateStatus.marshal (typeTag vCertificateStatus) m
  | ClientKeyExchangeMsg m => ClientKeyExchange.marshal (typeTag vClientKeyExchange) m
  | NextProtoMsg m => NextProto.marshal (typeTag vNextProto) m
  | NewSessionTicketMsg m => NewSessionTicket.marshal (typeTag vNewSessionTicket) m
  | SessionStateMsg s => SessionState.marshal (typeTag vSessionState) s
  end.

(** Modelled from the spec: parsing as the variant asked for. *)
Definition decode (v : variant) (data : bytes) : result message :=
  match v with
  | vClientHello => mapResult ClientHelloMsg (ClientHello.unmarshal data)
  | vServerHello => mapResult ServerHelloMsg (ServerHello.unmarshal data)
  | vFinished => mapResult FinishedMsg (Finished.unmarshal data)
  | vCertificate => mapResult CertificateMsg (Certificate.unmarshal data)
  | vCertificateRequest => mapResult CertificateRequestMsg (CertificateRequest.unmarshal data)
  | vCertificateVerify => mapResult CertificateVerifyMsg (CertificateVerify.unmarshal data)
  | vCertificateStatus => mapResult CertificateStatusMsg (CertificateStatus.unmarshal data)
  | vClientKeyExchange => mapResult ClientKeyExchangeMsg (ClientKeyExchange.unmarshal data)
  | vNextProto => mapResult NextProtoMsg (NextProto.unmarshal data)
  | vNewSessionTicket => mapResult NewSessionTicketMsg (NewSessionTicket.unmarshal data)
  | vSessionState => mapResult SessionStateMsg (SessionState.unmarshal data)
  end.

Definition validFields (m : message) : Prop :=
  match m with
  | ClientHelloMsg m => ClientHello.valid m
  | ServerHelloMsg m => ServerHello.valid m
  | FinishedMsg m => Finished.valid m
  | CertificateMsg m => Certificate.valid m
  | CertificateRequestMsg m => CertificateRequest.valid m
  | CertificateVerifyMsg m => CertificateVerify.valid m
  | CertificateStatusMsg m => CertificateStatus.valid m
  | ClientKeyExchangeMsg m => ClientKeyExchange.valid m
  | NextProtoMsg m => NextProto.valid m
  | NewSessionTicketMsg m => NewSessionTicket.valid m
  | SessionStateMsg s => SessionState.valid s
  end.

Definition footprint (m : message) : nat :=
  match m with
  | ClientHelloMsg m => ClientHello.footprint m
  | ServerHelloMsg m => ServerHello.footprint m
  | FinishedMsg m => Finished.footprint m
  | CertificateMsg m => Certificate.footprint m
  | CertificateRequestMsg m => CertificateRequest.footprint m
  | CertificateVerifyMsg m => CertificateVerify.footprint m
  | CertificateStatusMsg m => CertificateStatus.footprint m
  | ClientKeyExchangeMsg m => ClientKeyExchange.footprint m
  | NextProtoMsg m => NextProto.footprint m
  | NewSessionTicketMsg m => NewSessionTicket.footprint m
  | SessionStateMsg s => SessionState.footprint s
  end.

(** ** Messages with their serialization cache *)

(** Modelled from the spec: a handshake message: the fields of its variant
    and, beside them, the bytes it was parsed from or first serialized to. *)
Record handshakeMessage : Type := {
  raw : option bytes;
  fields : message
}.

(** Modelled from the spec: [marshal] answers from the cache when it is filled
    and fills it otherwise; the message is returned with its cache. *)
Definition marshal (typeTag : variant -> byte) (m : handshakeMessage)
  : bytes * handshakeMessage :=
  match raw m with
  | Some x => (x, m)
  | None =>
      let x := encode typeTag (fields m) in
      (x, {| raw := Some x; fields := fields m |})
  end.

(** Modelled from the spec: [unmarshal] keeps the bytes it parsed. *)
Definition unmarshal (v : variant) (data : bytes) : result handshakeMessage :=
  mapResult (fun m => {| raw := Some data; fields := m |}) (decode v data).

(** Modelled from the spec: a freshly built message: fields within the bounds
    of the wire format, cache not filled yet. *)
Definition valid (m : handshakeMessage) : Prop :=
  raw m = None /\ validFields (fields m).

(** Modelled from the spec: the tags of the TLS registry, for the worked
    examples; the session state is not sent on the wire and has none of its
    own. *)
Definition tlsTypeTag (v : variant) : byte :=
  match v with
  | vClientHello => x01
  | vServerHello => x02
  | vNewSessionTicket => x04
  | vCertificate => x0b
  | vCertificateRequest => x0d
  | vCertificateVerify => x0f
  | vClientKeyExchange => x10
  | vFinished => x14
  | vCertificateStatus => x16
  | vNextProto => x43
  | vSessionState => x00
  end.

(** ** Worked messages *)

Definition zeroRandom : bytes := repeat x00 32.

(** The ServerHello of the SCT tests: TLS 1.2, an all-zero random and the
    given SCT list. *)
Definition sctServerHello (scts : list bytes) : ServerHello.serverHelloMsg :=
  {| ServerHello.vers := VersionTLS12;
     ServerHello.random := zeroRandom;
     ServerHello.sessionId := [];
     ServerHello.cipherSuite := 0;
     ServerHello.compressionMethod := x00;
     ServerHello.nextProtoNeg := false;
     ServerHello.nextProtos := [];
     ServerHello.ocspStapling := false;
     ServerHello.ticketSupported := false;
     ServerHello.alpnProtocol := EmptyString;
     ServerHello.scts := scts |}.

Definition sampleSCT : bytes := [x42; x42; x42; x42].

(** A ClientHello with one cipher suite and no extension. *)
Definition plainClientHello : ClientHello.clientHelloMsg :=
  ClientHello.withoutExtensions VersionTLS12 zeroRandom []
    [TLS_RSA_WITH_AES_128_GCM_SHA256] [x00].

(** The same ClientHello announcing a server name and ALPN protocols. *)
Definition extendedClientHello : ClientHello.clientHelloMsg :=
  ClientHello.withAlpnProtocols
    (ClientHello.withServerName plainClientHello "example.org")
    ["h2"%string; "http/1.1"%string].

Definition fresh (m : message) : handshakeMessage := {| raw := None; fields := m |}.

Definition sampleCertificate : message :=
  CertificateMsg {| Certificate.certificates := [[x30; x82]; [x30]] |}.

(** The valid encodings of a variant: what [marshal] produces for a valid
    message of that variant. *)
Definition validEncoding (v : variant) (b : bytes) : Prop :=
  exists (typeTag : variant -> byte) (m : handshakeMessage),
    valid m /\ variantOf (fields m) = v /\ b = fst (marshal typeTag m).

(** ** Vocabulary of the robustness statements *)

(** A parser that never faults, whatever the input. *)
Definition safe {A} (p : parser A) : Prop := forall data, p data <> Abort.

(** A parser whose result, measured by [size], is paid for by the input it
    consumed, up to a credit [c]. *)
Definition grows {A} (c : nat) (size : A -> nat) (p : parser A) : Prop :=
  forall data a rest,
    p data = Ok (a, rest) ->
    (size a + List.length rest <= c + List.length data)%nat.

Definition payloadBytes (exts : list extension) : nat :=
  list_sum (map (fun e : extension => List.length (snd e)) exts).

(** ** Vocabulary of the SCT statements *)

(** The fixed part of a ServerHello fits the wire format. *)
Definition validHello (m : ServerHello.serverHelloMsg) : Prop :=
  ServerHello.vers m < 65536 /\
  List.length (ServerHello.random m) = 32%nat /\
  lengthN (ServerHello.sessionId m) < 256 /\
  ServerHello.cipherSuite m < 65536.

(** A list of extensions that fits its block. *)
Definition wellFormedExtensions (exts : list extension) : Prop :=
  Forall (fun e : extension => fst e < 65536) exts /\
  lengthN (putAll putExtension exts) < 65536.

(** A ServerHello encoding carrying the given extensions. *)
Definition serverHelloWith (tag : byte) (m : ServerHello.serverHelloMsg)
    (exts : list extension) : bytes :=
  putHeader tag (ServerHello.hello m ++ putExtensions exts).

(** The SCT extension carrying the given list. *)
Definition sctExtension (scts : list bytes) : extension :=
  (extensionSCT, putVecs 2 scts).

(** ** The byte surgery of TestRejectEmptySCTList *)

Fixpoint hasPrefix (s prefix : bytes) : bool :=
  match prefix, s with
  | [], _ => true
  | _ :: _, [] => false
  | p :: prefix', c :: s' => byteEqb p c && hasPrefix s' prefix'
  end.

(** [bytes.Index]: the index of the first instance of [sep] in [s]. *)
Fixpoint Index (s sep : bytes) : option nat :=
  match s with
  | [] => if hasPrefix [] sep then Some 0%nat else None
  | _ :: s' => if hasPrefix s sep then Some 0%nat else option_map S (Index s' sep)
  end.

(** [data[i] = b], for an index inside the buffer. *)
Fixpoint setByte (data : bytes) (i : nat) (b : byte) : bytes :=
  match data, i with
  | [], _ => []
  | _ :: tl, O => b :: tl
  | x :: tl, S i' => x :: setByte tl i' b
  end.

(** The test cuts the SCT list out of a marshaled ServerHello: the bytes up
    to the extension type, then the extension length 2 and the list length
    0, then what followed the SCT; it then rewrites the handshake length at
    offsets 1 to 3 and the length of the extension block at offsets 42 and
    43. *)
Definition emptySCTListSurgery (serverHelloBytes sct : bytes) : option bytes :=
  match Index serverHelloBytes sct with
  | None => None
  | Some i =>
      let e := firstn (i - 6) serverHelloBytes ++ [x00; x02; x00; x00]
                 ++ skipn (i + 4) serverHelloBytes in
      let n := lengthN e in
      let e := setByte e 1 (byteOfN ((n - 4) / 65536)) in
      let e := setByte e 2 (byteOfN ((n - 4) / 256)) in
      let e := setByte e 3 (byteOfN (n - 4)) in
      let e := setByte e 42 (byteOfN ((n - 44) / 256)) in
      let e := setByte e 43 (byteOfN (n - 44)) in
      Some e
  end.

(* ================================================================== *)
(** * Part II bis.  Further vocabulary and the test generators          *)
(* ================================================================== *)

(** ** Configurations built from a filter's answer *)

(** [cfg.CurvePreferences = s], the other fields unchanged. *)
Definition withCurvePreferences (cfg : Config) (s : slice CurveID) : Config :=
  {| MinVersion := MinVersion cfg; MaxVersion := MaxVersion cfg;
     CurvePreferences := s; CipherSuites := CipherSuites cfg |}.

(** [cfg.CipherSuites = s], the other fields unchanged. *)
Definition withCipherSuites (cfg : Config) (s : slice uint16) : Config :=
  {| MinVersion := MinVersion cfg; MaxVersion := MaxVersion cfg;
     CurvePreferences := CurvePreferences cfg; CipherSuites := s |}.

(** A configuration with the given lists. *)
Definition configOf (curves suites : slice uint16) : Config :=
  {| MinVersion := 0; MaxVersion := 0;
     CurvePreferences := curves; CipherSuites := suites |}.


(** ** The random source of the tests *)

(** [rand.Rand] as the generators see it: an unknown sequence of draws and
    the position reached in it.  Nothing is assumed of the sequence. *)
Record Rand : Type := {
  draws : nat -> N;
  position : nat
}.

(** A computation that consumes draws. *)
Definition Gen (A : Type) : Type := Rand -> A * Rand.

Definition genRet {A} (a : A) : Gen A := fun r => (a, r).

Definition genBind {A B} (g : Gen A) (k : A -> Gen B) : Gen B :=
  fun r => let (a, r') := g r in k a r'.

Definition draw : Gen N :=
  fun r => (draws r (position r),
            {| draws := draws r; position := S (position r) |}).

Declare Scope gen_scope.
Delimit Scope gen_scope with gen.
Notation "x <- g ;; k" := (genBind g (fun x => k))
  (at level 61, g at next level, right associativity) : gen_scope.

Section Generators.

Local Open Scope gen_scope.

(** [rand.Intn(n)]: a value in [0, n).  It panics for n <= 0; the tests
    call it with positive constants only. *)
Definition Intn (n : N) : Gen N := x <- draw ;; genRet (x mod n).

(** [rand.Int31()]: a non-negative 31-bit value. *)
Definition Int31 : Gen N := x <- draw ;; genRet (x mod 2147483648).

(** [n] times the same generator, in order. *)
Fixpoint repeatGen {A} (n : nat) (g : Gen A) : Gen (list A) :=
  match n with
  | O => genRet []
  | S n' => x <- g ;; xs <- repeatGen n' g ;; genRet (x :: xs)
  end.

(** [rand.Read(r)] fills [r]; it always returns a nil error, so that
    randomBytes never reaches its panic. *)
Definition Read (n : nat) : Gen bytes :=
  repeatGen n (x <- draw ;; genRet (byteOfN x)).

Definition randomBytes (n : N) : Gen bytes := Read (N.to_nat n).

Definition randomString (n : N) : Gen string :=
  b <- randomBytes n ;; genRet (stringOf b).

(** [rand.Intn(10) > 5] *)
Definition coin : Gen bool := d <- Intn 10 ;; genRet (5 <? d).

(** [for i := 0; i < rand.Intn(n); i++ { list = append(list, g()) }]: the
    bound is drawn again at every turn. *)
Fixpoint appendWhileBelow {A} (fuel : nat) (n : N) (g : Gen A) (i : N) (acc : list A)
  : Gen (list A) :=
  d <- Intn n ;;
  if i <? d then
    match fuel with
    | O => genRet acc
    | S fuel' => x <- g ;; appendWhileBelow fuel' n g (i + 1) (acc ++ [x])
    end
  else genRet acc.

Definition appendLoop {A} (n : N) (g : Gen A) : Gen (list A) :=
  appendWhileBelow (N.to_nat n) n g 0 [].

(** [strings.HasSuffix(s, suffix)], on the bytes of the strings. *)
Definition HasSuffix (s suffix : string) : bool :=
  let b := bytesOf s in
  let x := bytesOf suffix in
  (List.length x <=? List.length b)%nat
  && (if list_eq_dec Byte.byte_eq_dec (skipn (List.length b - List.length x) b) x
      then true else false).

(** [for strings.HasSuffix(name, ".") { name = name[:len(name)-1] }] *)
Fixpoint stripDots (fuel : nat) (name : string) : string :=
  match fuel with
  | O => name
  | S fuel' =>
      if HasSuffix name "." then
        stripDots fuel'
          (stringOf (firstn (List.length (bytesOf name) - 1) (bytesOf name)))
      else name
  end.

(** The table [supportedSignatureAlgorithms] that the ClientHello generator
    copies is declared outside the sources at hand. *)
Variable signatureAlgorithmsTable : list N.

Definition generateCipherSuite : Gen N :=
  x <- Int31 ;;
  let cs := x mod 65536 in
  genRet (if cs =? ClientHello.scsvRenegotiation then (cs + 1) mod 65536 else cs).

(** [clientHelloMsg.Generate].  The record keeps slices by their contents, so
    the empty ticket made by [make([]byte, 0)] and the ticket left nil are
    both []. *)
Definition generateClientHello : Gen ClientHello.clientHelloMsg :=
  vers <- Intn 65536 ;;
  random <- randomBytes 32 ;;
  n <- Intn 32 ;;
  sessionId <- randomBytes n ;;
  n <- Intn 63 ;;
  cipherSuites <- repeatGen (N.to_nat (n + 1)) generateCipherSuite ;;
  n <- Intn 63 ;;
  compressionMethods <- randomBytes (n + 1) ;;
  nextProtoNeg <- coin ;;
  named <- coin ;;
  serverName <-
    (if named : bool then
       n <- Intn 255 ;;
       name <- randomString n ;;
       genRet (stripDots (String.length name) name)
     else genRet EmptyString) ;;
  ocspStapling <- coin ;;
  n <- Intn 5 ;;
  supportedPoints <- randomBytes (n + 1) ;;
  n <- Intn 5 ;;
  supportedCurves <- repeatGen (N.to_nat (n + 1)) (Intn 30000) ;;
  ticketSupported <- coin ;;
  sessionTicket <-
    (if ticketSupported : bool then
       filled <- coin ;;
       if filled : bool then n <- Intn 300 ;; randomBytes n else genRet []
     else genRet []) ;;
  withAlgorithms <- coin ;;
  alpnProtocols <- appendLoop 5 (n <- Intn 20 ;; randomString (n + 1)) ;;
  scts <- coin ;;
  genRet {| ClientHello.vers := vers;
            ClientHello.random := random;
            ClientHello.sessionId := sessionId;
            ClientHello.cipherSuites := cipherSuites;
            ClientHello.compressionMethods := compressionMethods;
            ClientHello.nextProtoNeg := nextProtoNeg;
            ClientHello.serverName := serverName;
            ClientHello.ocspStapling := ocspStapling;
            ClientHello.supportedPoints := supportedPoints;
            ClientHello.supportedCurves := supportedCurves;
            ClientHello.ticketSupported := ticketSupported;
            ClientHello.sessionTicket := sessionTicket;
            ClientHello.supportedSignatureAlgorithms :=
              if withAlgorithms : bool then signatureAlgorithmsTable else [];
            ClientHello.alpnProtocols := alpnProtocols;
            ClientHello.scts := scts |}.

(** [serverHelloMsg.Generate] *)
Definition generateServerHello : Gen ServerHello.serverHelloMsg :=
  vers <- Intn 65536 ;;
  random <- randomBytes 32 ;;
  n <- Intn 32 ;;
  sessionId <- randomBytes n ;;
  x <- Int31 ;;
  d <- Intn 256 ;;
  nextProtoNeg <- coin ;;
  nextProtos <-
    (if nextProtoNeg : bool then appendLoop 10 (randomString 20) else genRet []) ;;
  ocspStapling <- coin ;;
  ticketSupported <- coin ;;
  n <- Intn 32 ;;
  alpnProtocol <- randomString (n + 1) ;;
  scts <- appendLoop 4 (n <- Intn 500 ;; randomBytes (n + 1)) ;;
  genRet {| ServerHello.vers := vers;
            ServerHello.random := random;
            ServerHello.sessionId := sessionId;
            ServerHello.cipherSuite := x mod 65536;
            ServerHello.compressionMethod := byteOfN d;
            ServerHello.nextProtoNeg := nextProtoNeg;
            ServerHello.nextProtos := nextProtos;
            ServerHello.ocspStapling := ocspStapling;
            ServerHello.ticketSupported := ticketSupported;
            ServerHello.alpnProtocol := alpnProtocol;
            ServerHello.scts := scts |}.

(** The certificate list shared by the Certificate and SessionState
    generators: [numCerts := rand.Intn(20)] blobs of 1 to 10 bytes. *)
Definition generateCertificates : Gen (list bytes) :=
  numCerts <- Intn 20 ;;
  repeatGen (N.to_nat numCerts) (n <- Intn 10 ;; randomBytes (n + 1)).

(** [certificateMsg.Generate] *)
Definition generateCertificate : Gen Certificate.certificateMsg :=
  certs <- generateCertificates ;;
  genRet {| Certificate.certificates := certs |}.

(** [certificateRequestMsg.Generate] *)
Definition generateCertificateRequest : Gen CertificateRequest.certificateRequestMsg :=
  n <- Intn 5 ;;
  types <- randomBytes (n + 1) ;;
  cas <- appendLoop 100 (n <- Intn 15 ;; randomBytes (n + 1)) ;;
  genRet {| CertificateRequest.certificateTypes := types;
            CertificateRequest.certificateAuthorities := cas |}.

(** [certificateVerifyMsg.Generate] *)
Definition generateCertificateVerify : Gen CertificateVerify.certificateVerifyMsg :=
  n <- Intn 15 ;;
  sig <- randomBytes (n + 1) ;;
  genRet {| CertificateVerify.signature := sig |}.

(** [certificateStatusMsg.Generate] *)
Definition generateCertificateStatus : Gen CertificateStatus.certificateStatusMsg :=
  ocsp <- coin ;;
  if ocsp : bool then
    n <- Intn 10 ;;
    resp <- randomBytes (n + 1) ;;
    genRet {| CertificateStatus.statusType := statusTypeOCSP;
              CertificateStatus.response := resp |}
  else
    genRet {| CertificateStatus.statusType := byteOfN 42;
              CertificateStatus.response := [] |}.

(** [clientKeyExchangeMsg.Generate] *)
Definition generateClientKeyExchange : Gen ClientKeyExchange.clientKeyExchangeMsg :=
  n <- Intn 1000 ;;
  c <- randomBytes (n + 1) ;;
  genRet {| ClientKeyExchange.ciphertext := c |}.

(** [finishedMsg.Generate] *)
Definition generateFinished : Gen Finished.finishedMsg :=
  v <- randomBytes 12 ;;
  genRet {| Finished.verifyData := v |}.

(** [nextProtoMsg.Generate] *)
Definition generateNextProto : Gen NextProto.nextProtoMsg :=
  n <- Intn 255 ;;
  p <- randomString n ;;
  genRet {| NextProto.proto := p |}.

(** [newSessionTicketMsg.Generate] *)
Definition generateNewSessionTicket : Gen NewSessionTicket.newSessionTicketMsg :=
  n <- Intn 4 ;;
  t <- randomBytes n ;;
  genRet {| NewSessionTicket.ticket := t |}.

(** [sessionState.Generate] *)
Definition generateSessionState : Gen SessionState.sessionState :=
  vers <- Intn 10000 ;;
  cipherSuite <- Intn 10000 ;;
  n <- Intn 100 ;;
  masterSecret <- randomBytes n ;;
  certs <- generateCertificates ;;
  genRet {| SessionState.vers := vers;
            SessionState.cipherSuite := cipherSuite;
            SessionState.masterSecret := masterSecret;
            SessionState.certificates := certs |}.

(** [quick.Value(ty, rand)] for the types of the [tests] table: the
    generator of the type. *)
Definition generate (v : variant) : Gen message :=
  match v with
  | vClientHello => m <- generateClientHello ;; genRet (ClientHelloMsg m)
  | vServerHello => m <- generateServerHello ;; genRet (ServerHelloMsg m)
  | vFinished => m <- generateFinished ;; genRet (FinishedMsg m)
  | vCertificate => m <- generateCertificate ;; genRet (CertificateMsg m)
  | vCertificateRequest =>
      m <- generateCertificateRequest ;; genRet (CertificateRequestMsg m)
  | vCertificateVerify =>
      m <- generateCertificateVerify ;; genRet (CertificateVerifyMsg m)
  | vCertificateStatus =>
      m <- generateCertificateStatus ;; genRet (CertificateStatusMsg m)
  | vClientKeyExchange =>
      m <- generateClientKeyExchange ;; genRet (ClientKeyExchangeMsg m)
  | vNextProto => m <- generateNextProto ;; genRet (NextProtoMsg m)
  | vNewSessionTicket =>
      m <- generateNewSessionTicket ;; genRet (NewSessionTicketMsg m)
  | vSessionState => s <- generateSessionState ;; genRet (SessionStateMsg s)
  end.

End Generators.

(** ** Vocabulary of the generator statements *)

(** What holds of the value a generator returns, whatever the random
    source. *)
Definition always {A} (g : Gen A) (P : A -> Prop) : Prop :=
  forall r : Rand, P (fst (g r)).

(** A random source for the worked examples. *)
Definition sampleRand : Rand :=
  {| draws := fun i => N.of_nat (7 * i + 46); position := 0 |}.

(* ================================================================== *)
(** * Part III.  Properties of the policy layer                        *)
(* ================================================================== *)

Section FilterFacts.

Variable table : list uint16.

Lemma appendIfAllowed_spec (id : uint16) (l : slice uint16) :
  appendIfAllowed id table l =
  if allowedIn table id then append l id else l.
Proof.
  unfold allowedIn.
  induction table as [|a rest IH]; simpl; [reflexivity|].
  destruct (id =? a); simpl; [reflexivity | exact IH].
Qed.

Lemma restrict_loop_elems (configured : list uint16) (acc : slice uint16) :
  elems (fold_left (fun list id => appendIfAllowed id table list) configured acc) =
  elems acc ++ filter (allowedIn table) configured.
Proof.
  revert acc.
  induction configured as [|id rest IH]; intros acc; simpl.
  - now rewrite app_nil_r.
  - rewrite IH, appendIfAllowed_spec.
    destruct (allowedIn table id); simpl; [|reflexivity].
    now rewrite <- app_assoc.
Qed.

Lemma allowedIn_In (id : uint16) : allowedIn table id = true <-> In id table.
Proof.
  unfold allowedIn. rewrite existsb_exists. split.
  - intros [x [Hin Heq]]. apply N.eqb_eq in Heq. now subst.
  - intros Hin. exists id. split; [assumption | apply N.eqb_refl].
Qed.

End FilterFacts.

(** C5 (amended): both filters return, in the caller's order, the entries of
    the configured list that are in the allow-list ([allowedIn] is
    membership in the table).  The curve filter falls back to its
    allow-list for a nil Config and for a curve list of length 0; the
    cipher-suite filter falls back for a nil Config and for a nil
    cipher-suite list only, and answers an empty non-nil list with the
    empty list. *)
Theorem fips_filters_characterised :
  (forall (table : list uint16) (id : uint16),
      allowedIn table id = true <-> In id table) /\
  (forall c : option Config,
      elems (fipsCurvePreferences c) =
      match c with
      | None => defaultFIPSCurvePreferences
      | Some cfg =>
          match elems (CurvePreferences cfg) with
          | [] => defaultFIPSCurvePreferences
          | configured => filter (allowedIn defaultFIPSCurvePreferences) configured
          end
      end) /\
  (forall c : option Config,
      elems (fipsCipherSuites c) =
      match c with
      | None => defaultFIPSCipherSuites
      | Some cfg =>
          match CipherSuites cfg with
          | None => defaultFIPSCipherSuites
          | Some configured => filter (allowedIn defaultFIPSCipherSuites) configured
          end
      end).
Proof.
  split; [exact allowedIn_In|].
  split; intros [cfg|]; try reflexivity.
  - unfold fipsCurvePreferences, len.
    destruct (elems (CurvePreferences cfg)) as [|id rest]; [reflexivity|].
    cbn [List.length Nat.eqb]. now rewrite restrict_loop_elems.
  - unfold fipsCipherSuites.
    destruct (CipherSuites cfg) as [configured|]; [|reflexivity].
    cbn [isNil elems]. now rewrite restrict_loop_elems.
Qed.

(** C5 (as stated) fails: the configured cipher-suite list of
    [emptyCipherSuitesConfig] is empty, and the filter returns the empty
    list instead of the allow-list. *)
Lemma fipsCipherSuites_empty_not_default :
  len (CipherSuites emptyCipherSuitesConfig) = 0%nat /\
  elems (fipsCipherSuites (Some emptyCipherSuitesConfig)) = [] /\
  elems (fipsCipherSuites (Some emptyCipherSuitesConfig)) <> defaultFIPSCipherSuites.
Proof.
  repeat split. discriminate.
Qed.

(** The spec's own example: of a configured list [A; B; C] only the allowed
    entry survives. *)
Example fipsCipherSuites_keeps_allowed_only :
  elems (fipsCipherSuites
           (Some {| MinVersion := 0; MaxVersion := 0; CurvePreferences := None;
                    CipherSuites := Some [0x0005; TLS_RSA_WITH_AES_128_GCM_SHA256; 0x000a] |}))
  = [TLS_RSA_WITH_AES_128_GCM_SHA256].
Proof. reflexivity. Qed.

(** The caller's order wins over the table's. *)
Example fipsCurvePreferences_keeps_caller_order :
  elems (fipsCurvePreferences
           (Some {| MinVersion := 0; MaxVersion := 0;
                    CurvePreferences := Some [CurveP521; 29; CurveP256; CurveP521];
                    CipherSuites := None |}))
  = [CurveP521; CurveP256; CurveP521].
Proof. reflexivity. Qed.

(** [BitLen] is the bit length: a positive [n] lies in
    [2^(BitLen n - 1), 2^(BitLen n)). *)
Lemma BitLen_bounds (n : Z) :
  (0 < n)%Z -> (2 ^ (BitLen n - 1) <= n < 2 ^ BitLen n)%Z.
Proof.
  destruct n as [|p|p]; try lia. intros _. simpl BitLen.
  pose proof (Pos.size_gt p) as Hgt.
  pose proof (Pos.size_le p) as Hle.
  assert (Hpow : forall q : positive, Z.pos (2 ^ q) = (2 ^ Z.pos q)%Z).
  { intros q. now rewrite Pos2Z.inj_pow. }
  split.
  - assert (H2 : (2 ^ Z.pos (Pos.size p) = 2 * 2 ^ (Z.pos (Pos.size p) - 1))%Z).
    { rewrite <- Z.pow_succ_r by lia. f_equal. lia. }
    rewrite <- Hpow in H2. lia.
  - rewrite <- Hpow. lia.
Qed.

(** C6: outside FIPS mode every certificate passes; in FIPS mode a
    certificate passes exactly when its key is RSA with a modulus of 2048 or
    3072 bits, or ECDSA on the curve named P-256 or P-384. *)
Theorem isBoringCertificate_verdict :
  (forall c, isBoringCertificate false c = true) /\
  (forall c,
      isBoringCertificate true c = true <->
      (exists k, PublicKey c = RSAKey k /\
                 (BitLen (rsaN k) = 2048 \/ BitLen (rsaN k) = 3072)%Z) \/
      (exists k, PublicKey c = ECDSAKey k /\
                 (Name (Curve k) = "P-256" \/ Name (Curve k) = "P-384")%string)).
Proof.
  split; [reflexivity|].
  intros c. unfold isBoringCertificate. cbn [negb].
  destruct (PublicKey c) as [k|k|k|k].
  - destruct (Z.eqb_spec (BitLen (rsaN k)) 2048) as [E1|E1];
      destruct (Z.eqb_spec (BitLen (rsaN k)) 3072) as [E2|E2]; cbn;
      split; intros H; try reflexivity; try discriminate.
    + left. exists k. auto.
    + left. exists k. auto.
    + left. exists k. auto.
    + destruct H as [[k' [Hk [H|H]]]|[k' [Hk _]]]; try discriminate;
        injection Hk as <-; contradiction.
  - destruct (String.eqb_spec (Name (Curve k)) "P-256") as [E1|E1];
      destruct (String.eqb_spec (Name (Curve k)) "P-384") as [E2|E2]; cbn;
      split; intros H; try reflexivity; try discriminate.
    + right. exists k. auto.
    + right. exists k. auto.
    + right. exists k. auto.
    + destruct H as [[k' [Hk _]]|[k' [Hk [H|H]]]]; try discriminate;
        injection Hk as <-; contradiction.
  - split; [discriminate|].
    intros [[k' [Hk _]]|[k' [Hk _]]]; discriminate.
  - split; [discriminate|].
    intros [[k' [Hk _]]|[k' [Hk _]]]; discriminate.
Qed.

(** The boundary cases the spec lists. *)
Example isBoringCertificate_boundary :
  isBoringCertificate true (certificateWithKey (rsaKeyOfModulus (2 ^ 2047))) = true /\
  isBoringCertificate true (certificateWithKey (rsaKeyOfModulus (2 ^ 3072 - 1))) = true /\
  isBoringCertificate true (certificateWithKey (rsaKeyOfModulus (2 ^ 1023))) = false /\
  isBoringCertificate true (certificateWithKey (rsaKeyOfModulus (2 ^ 2048))) = false /\
  isBoringCertificate true (certificateWithKey (rsaKeyOfModulus (2 ^ 4095))) = false /\
  isBoringCertificate true (certificateWithKey (ecdsaKeyOn "P-256" 256)) = true /\
  isBoringCertificate true (certificateWithKey (ecdsaKeyOn "P-384" 384)) = true /\
  isBoringCertificate true (certificateWithKey (ecdsaKeyOn "P-224" 224)) = false /\
  isBoringCertificate true (certificateWithKey (Ed25519Key [])) = false.
Proof. repeat split; vm_compute; reflexivity. Qed.

(** C7: P-521 is in the curve allow-list, which is what a nil Config, a nil
    curve list and an empty curve list obtain, while a certificate with an
    ECDSA key on the curve named P-521 is refused in FIPS mode. *)
Theorem p521_curve_allowed_certificate_refused :
  In CurveP521 defaultFIPSCurvePreferences /\
  In CurveP521 (elems (fipsCurvePreferences None)) /\
  (forall mn mx cs,
      In CurveP521
         (elems (fipsCurvePreferences
                   (Some {| MinVersion := mn; MaxVersion := mx;
                            CurvePreferences := None; CipherSuites := cs |})))) /\
  (forall mn mx cs,
      In CurveP521
         (elems (fipsCurvePreferences
                   (Some {| MinVersion := mn; MaxVersion := mx;
                            CurvePreferences := Some []; CipherSuites := cs |})))) /\
  (forall raw serial subject issuer ca bits x y,
      isBoringCertificate true
        {| Raw := raw; SerialNumber := serial; Subject := subject; Issuer := issuer;
           IsCA := ca;
           PublicKey := ECDSAKey {| Curve := {| BitSize := bits; Name := "P-521" |};
                                    ecX := x; ecY := y |} |} = false).
Proof.
  repeat split; intros; cbn; auto.
Qed.

(** ** Ordered sublists *)



Lemma sublist_refl {A} (l : list A) : sublist l l.
Proof. induction l; constructor; assumption. Qed.












(** C9: whatever the Config, nil included, both version bounds of FIPS mode
    are TLS 1.2. *)
Theorem fips_versions_are_tls12 :
  forall c : option Config,
    fipsMinVersion c = VersionTLS12 /\ fipsMaxVersion c = VersionTLS12.
Proof. intros c. split; reflexivity. Qed.

(** C10: under one mode, two certificates with equal public keys get the
    same verdict, whatever their other fields; more precisely the verdict
    is the same as soon as the two keys fall in the same class (algorithm,
    with the modulus bit length for RSA and the curve name for ECDSA). *)
Theorem isBoringCertificate_depends_on_key_only :
  forall (needFIPS : bool) (c1 c2 : Certificate),
    (PublicKey c1 = PublicKey c2 ->
     isBoringCertificate needFIPS c1 = isBoringCertificate needFIPS c2) /\
    (classify (PublicKey c1) = classify (PublicKey c2) ->
     isBoringCertificate needFIPS c1 = isBoringCertificate needFIPS c2).
Proof.
  intros needFIPS c1 c2.
  assert (Hclass : classify (PublicKey c1) = classify (PublicKey c2) ->
                   isBoringCertificate needFIPS c1 = isBoringCertificate needFIPS c2).
  { intros H. unfold isBoringCertificate.
    destruct needFIPS; cbn [negb]; [|reflexivity].
    destruct (PublicKey c1) as [k1|k1|k1|k1], (PublicKey c2) as [k2|k2|k2|k2];
      cbn in H; try discriminate; try reflexivity.
    - injection H as ->. reflexivity.
    - injection H as ->. reflexivity. }
  split; [|exact Hclass].
  intros H. apply Hclass. now rewrite H.
Qed.

Lemma isBoringCertificate_depends_on_key_only_witness :
  PublicKey (certificateWithKey (rsaKeyOfModulus (2 ^ 2047)))
  = PublicKey
      {| Raw := [x30]; SerialNumber := 77%Z; Subject := "other"; Issuer := "other";
         IsCA := true; PublicKey := rsaKeyOfModulus (2 ^ 2047) |} /\
  isBoringCertificate true (certificateWithKey (rsaKeyOfModulus (2 ^ 2047)))
  = isBoringCertificate true
      {| Raw := [x30]; SerialNumber := 77%Z; Subject := "other"; Issuer := "other";
         IsCA := true; PublicKey := rsaKeyOfModulus (2 ^ 2047) |}.
Proof.
  split; [reflexivity|].
  exact (proj1 (isBoringCertificate_depends_on_key_only true
                  (certificateWithKey (rsaKeyOfModulus (2 ^ 2047)))
                  {| Raw := [x30]; SerialNumber := 77%Z; Subject := "other";
                     Issuer := "other"; IsCA := true;
                     PublicKey := rsaKeyOfModulus (2 ^ 2047) |}) eq_refl).
Defined.

(** Two RSA keys with different moduli of the same bit length are in one
    class. *)
Example same_class_same_verdict :
  rsaKeyOfModulus (2 ^ 2047) <> rsaKeyOfModulus (2 ^ 2047 + 12345) /\
  classify (rsaKeyOfModulus (2 ^ 2047)) = classify (rsaKeyOfModulus (2 ^ 2047 + 12345)).
Proof. split; [discriminate | vm_compute; reflexivity]. Qed.

(* ================================================================== *)
(** * Part IV.  Properties of the codec                                *)
(* ================================================================== *)

(** ** Bytes and big-endian integers *)

Lemma to_N_byteOfN (n : N) : Byte.to_N (byteOfN n) = n mod 256.
Proof.
  unfold byteOfN.
  destruct (Byte.of_N (n mod 256)) as [b|] eqn:E.
  - now apply Byte.to_of_N.
  - apply Byte.of_N_None_iff in E.
    pose proof (N.mod_upper_bound n 256). lia.
Qed.

Lemma byteOfN_to_N (b : byte) : byteOfN (Byte.to_N b) = b.
Proof.
  unfold byteOfN.
  pose proof (Byte.to_N_bounded b) as Hb.
  rewrite N.mod_small by lia.
  now rewrite Byte.of_to_N.
Qed.

Lemma length_putUint (w : nat) (n : N) : List.length (putUint w n) = w.
Proof.
  revert n. induction w as [|w IH]; intros n; simpl; [reflexivity|].
  rewrite length_app, IH. simpl. lia.
Qed.

Lemma beN_snoc (bs : bytes) (b : byte) : beN (bs ++ [b]) = beN bs * 256 + Byte.to_N b.
Proof. unfold beN. now rewrite fold_left_app. Qed.

Lemma beN_putUint (w : nat) (n : N) : beN (putUint w n) = n mod 256 ^ N.of_nat w.
Proof.
  revert n. induction w as [|w IH]; intros n.
  - simpl. now rewrite N.mod_1_r.
  - cbn [putUint]. rewrite beN_snoc, IH, to_N_byteOfN.
    rewrite Nnat.Nat2N.inj_succ, N.pow_succ_r'.
    rewrite N.Div0.mod_mul_r. lia.
Qed.

Lemma beN_putUint_small (w : nat) (n : N) :
  n < 256 ^ N.of_nat w -> beN (putUint w n) = n.
Proof. intros H. rewrite beN_putUint. now apply N.mod_small. Qed.

Lemma lengthN_app {A} (x y : list A) : lengthN (x ++ y) = lengthN x + lengthN y.
Proof. unfold lengthN. rewrite length_app. lia. Qed.

Lemma lengthN_cons {A} (a : A) (x : list A) : lengthN (a :: x) = 1 + lengthN x.
Proof. unfold lengthN. cbn [List.length]. lia. Qed.

Lemma lengthN_nil {A} : lengthN (@nil A) = 0.
Proof. reflexivity. Qed.

Lemma lengthN_putUint (w : nat) (n : N) : lengthN (putUint w n) = N.of_nat w.
Proof. unfold lengthN. now rewrite length_putUint. Qed.

Lemma lengthN_putVec (w : nat) (v : bytes) :
  lengthN (putVec w v) = N.of_nat w + lengthN v.
Proof. unfold putVec. now rewrite lengthN_app, lengthN_putUint. Qed.

(** ** The checked read *)

Lemma take_app (x rest : bytes) (n : nat) :
  List.length x = n -> take n (x ++ rest) = Ok (x, rest).
Proof.
  intros <-. unfold take, sliceTo, sliceFrom.
  rewrite length_app.
  destruct (Nat.ltb_spec (List.length x + List.length rest) (List.length x)); [lia|].
  destruct (Nat.leb_spec (List.length x) (List.length x + List.length rest)); [|lia].
  cbn [andThen].
  rewrite firstn_app, Nat.sub_diag, firstn_all, firstn_O, app_nil_r.
  rewrite skipn_app, Nat.sub_diag, skipn_all, skipn_O. reflexivity.
Qed.

Lemma take_ok (n : nat) (data x rest : bytes) :
  take n data = Ok (x, rest) -> data = x ++ rest /\ List.length x = n.
Proof.
  unfold take, sliceTo, sliceFrom.
  destruct (Nat.ltb_spec (List.length data) n); [discriminate|].
  destruct (Nat.leb_spec n (List.length data)); [|lia].
  cbn [andThen]. intros [= <- <-].
  split; [now rewrite firstn_skipn | now apply firstn_length_le].
Qed.

Lemma take_short (n : nat) (data : bytes) :
  (List.length data < n)%nat -> take n data = Failure.
Proof.
  intros H. unfold take.
  destruct (Nat.ltb_spec (List.length data) n); [reflexivity | lia].
Qed.

Lemma bind_ok {A B} (p : parser A) (k : A -> parser B) (data rest : bytes) (a : A) :
  p data = Ok (a, rest) -> bind p k data = k a rest.
Proof. intros H. unfold bind. now rewrite H. Qed.

Lemma bind_failure {A B} (p : parser A) (k : A -> parser B) (data : bytes) :
  p data = Failure -> bind p k data = Failure.
Proof. intros H. unfold bind. now rewrite H. Qed.

Lemma readUint_put (w : nat) (n : N) (rest : bytes) :
  n < 256 ^ N.of_nat w -> readUint w (putUint w n ++ rest) = Ok (n, rest).
Proof.
  intros H. unfold readUint.
  rewrite (bind_ok _ _ _ rest (putUint w n)) by (apply take_app, length_putUint).
  unfold ret. now rewrite beN_putUint_small.
Qed.

Lemma readVec_put (w : nat) (v rest : bytes) :
  lengthN v < 256 ^ N.of_nat w -> readVec w (putVec w v ++ rest) = Ok (v, rest).
Proof.
  intros H. unfold readVec, putVec. rewrite <- app_assoc.
  rewrite (bind_ok _ _ _ (v ++ rest) (lengthN v)) by now apply readUint_put.
  apply take_app. unfold lengthN. now rewrite Nnat.Nat2N.id.
Qed.

(** ** Repetition over a block *)

Lemma many_putAll {A} (p : parser A) (put : A -> bytes) (items : list A) (fuel : nat) :
  (forall x rest, In x items -> p (put x ++ rest) = Ok (x, rest)) ->
  (forall x, In x items -> put x <> []) ->
  (List.length items <= fuel)%nat ->
  many fuel p (putAll put items) = Ok items.
Proof.
  revert fuel. induction items as [|x items IH]; intros fuel Hp Hne Hfuel.
  - destruct fuel; reflexivity.
  - unfold putAll in *. cbn [map List.concat].
    destruct (put x ++ List.concat (map put items)) as [|b tl] eqn:E.
    + apply app_eq_nil in E. destruct E as [E _].
      exfalso. apply (Hne x); [now left | exact E].
    + rewrite <- E. clear E b tl.
      destruct fuel as [|fuel]; [cbn in Hfuel; lia|].
      assert (Hcons : forall d, d = put x ++ List.concat (map put items) ->
                many (S fuel) p d = Ok (x :: items)).
      { intros d ->.
        destruct (put x ++ List.concat (map put items)) as [|b tl] eqn:E.
        - apply app_eq_nil in E. destruct E as [E _].
          exfalso. apply (Hne x); [now left | exact E].
        - cbn [many]. rewrite <- E. rewrite Hp by now left.
          rewrite IH; [reflexivity | | | cbn in Hfuel; lia].
          + intros y rest Hy. apply Hp. now right.
          + intros y Hy. apply Hne. now right. }
      now apply Hcons.
Qed.

Lemma length_putAll_ge {A} (put : A -> bytes) (items : list A) :
  (forall x, In x items -> put x <> []) ->
  (List.length items <= List.length (putAll put items))%nat.
Proof.
  induction items as [|x items IH]; intros Hne; [cbn; lia|].
  unfold putAll in *. cbn [map List.concat]. rewrite length_app. cbn [List.length].
  assert (List.length (put x) <> 0)%nat.
  { intros E. apply length_zero_iff_nil in E. apply (Hne x); [now left | exact E]. }
  assert (List.length items <= List.length (List.concat (map put items)))%nat.
  { apply IH. intros y Hy. apply Hne. now right. }
  lia.
Qed.

Lemma parseAll_putAll {A} (p : parser A) (put : A -> bytes) (items : list A) :
  (forall x rest, In x items -> p (put x ++ rest) = Ok (x, rest)) ->
  (forall x, In x items -> put x <> []) ->
  parseAll p (putAll put items) = Ok items.
Proof.
  intros Hp Hne. unfold parseAll.
  apply many_putAll; try assumption. now apply length_putAll_ge.
Qed.

Lemma putUint_nonempty (w : nat) (n : N) : putUint (S w) n <> [].
Proof. cbn [putUint]. intros E. apply app_eq_nil in E. destruct E; discriminate. Qed.

Lemma putVec_nonempty (w : nat) (v : bytes) : putVec (S w) v <> [].
Proof.
  unfold putVec. intros E. apply app_eq_nil in E. destruct E as [E _].
  now apply putUint_nonempty in E.
Qed.

Lemma In_lengthN_putAll {A} (put : A -> bytes) (items : list A) (x : A) :
  In x items -> lengthN (put x) <= lengthN (putAll put items).
Proof.
  induction items as [|y items IH]; [contradiction|].
  unfold putAll in *. cbn [map List.concat]. rewrite lengthN_app.
  intros [->|Hin]; [lia|]. specialize (IH Hin). lia.
Qed.

(** ** The three prefix widths *)

Lemma readUint1_put (n : N) (rest : bytes) :
  n < 256 -> readUint 1 (putUint 1 n ++ rest) = Ok (n, rest).
Proof. intros H. now apply readUint_put. Qed.

Lemma readUint2_put (n : N) (rest : bytes) :
  n < 65536 -> readUint 2 (putUint 2 n ++ rest) = Ok (n, rest).
Proof. intros H. now apply readUint_put. Qed.

Lemma readUint3_put (n : N) (rest : bytes) :
  n < 16777216 -> readUint 3 (putUint 3 n ++ rest) = Ok (n, rest).
Proof. intros H. now apply readUint_put. Qed.

Lemma readVec1_put (v rest : bytes) :
  lengthN v < 256 -> readVec 1 (putVec 1 v ++ rest) = Ok (v, rest).
Proof. intros H. now apply readVec_put. Qed.

Lemma readVec2_put (v rest : bytes) :
  lengthN v < 65536 -> readVec 2 (putVec 2 v ++ rest) = Ok (v, rest).
Proof. intros H. now apply readVec_put. Qed.

Lemma readVec3_put (v rest : bytes) :
  lengthN v < 16777216 -> readVec 3 (putVec 3 v ++ rest) = Ok (v, rest).
Proof. intros H. now apply readVec_put. Qed.

Lemma complete_put {A} (p : parser A) (enc : bytes) (a : A) :
  p (enc ++ []) = Ok (a, []) -> complete p enc = Ok a.
Proof. rewrite app_nil_r. intros H. unfold complete. now rewrite H. Qed.

Lemma lift_ok {A} (r : result A) (a : A) (data : bytes) :
  r = Ok a -> lift r data = Ok (a, data).
Proof. now intros ->. Qed.

(** A block of 16-bit identifiers. *)
Lemma parseAll_uint16s (ids : list N) :
  Forall (fun c => c < 65536) ids ->
  parseAll (readUint 2) (putAll (putUint 2) ids) = Ok ids.
Proof.
  intros H. apply parseAll_putAll.
  - intros x rest Hin. apply readUint2_put.
    rewrite Forall_forall in H. now apply H.
  - intros x _. apply putUint_nonempty.
Qed.

Lemma readUint16s_put (ids : list N) (rest : bytes) :
  Forall (fun c => c < 65536) ids ->
  lengthN (putAll (putUint 2) ids) < 65536 ->
  readUint16s (putUint16s ids ++ rest) = Ok (ids, rest).
Proof.
  intros Hids Hlen. unfold readUint16s, putUint16s.
  rewrite (bind_ok _ _ _ rest (putAll (putUint 2) ids)) by now apply readVec2_put.
  apply lift_ok. now apply parseAll_uint16s.
Qed.

Lemma lengthN_putUint16s_block (ids : list N) :
  lengthN (putAll (putUint 2) ids) = 2 * lengthN ids.
Proof.
  induction ids as [|c ids IH]; [reflexivity|].
  unfold putAll in *. cbn [map List.concat].
  rewrite lengthN_app, IH, lengthN_putUint, lengthN_cons. lia.
Qed.

(** A block of length-prefixed byte strings. *)
Lemma parseAll_vecs (w : nat) (items : list bytes) :
  Forall (fun v => lengthN v < 256 ^ N.of_nat (S w)) items ->
  parseAll (readVec (S w)) (putAll (putVec (S w)) items) = Ok items.
Proof.
  intros H. apply parseAll_putAll.
  - intros x rest Hin. apply readVec_put.
    rewrite Forall_forall in H. now apply H.
  - intros x _. apply putVec_nonempty.
Qed.

Lemma items_within_block (w : nat) (items : list bytes) (bound : N) :
  lengthN (putAll (putVec w) items) < bound ->
  Forall (fun v => lengthN v < bound) items.
Proof.
  intros H. apply Forall_forall. intros v Hin.
  pose proof (In_lengthN_putAll (putVec w) items v Hin) as Hle.
  rewrite lengthN_putVec in Hle. lia.
Qed.

Lemma readVecs_put (w : nat) (items : list bytes) (rest : bytes) :
  lengthN (putAll (putVec (S w)) items) < 256 ^ N.of_nat (S w) ->
  readVecs (S w) (putVecs (S w) items ++ rest) = Ok (items, rest).
Proof.
  intros Hlen. unfold readVecs, putVecs.
  rewrite (bind_ok _ _ _ rest (putAll (putVec (S w)) items)) by now apply readVec_put.
  apply lift_ok. apply parseAll_vecs. now apply (items_within_block (S w)).
Qed.

(** ** Headers *)

Lemma skipHeader_putHeader (tag : byte) (body : bytes) :
  skipHeader (putHeader tag body) = Ok (tt, body).
Proof.
  unfold skipHeader, putHeader.
  change (tag :: putUint 3 (lengthN body) ++ body)
    with ((tag :: putUint 3 (lengthN body)) ++ body).
  rewrite (bind_ok _ _ _ body (tag :: putUint 3 (lengthN body))); [reflexivity|].
  apply take_app. cbn [List.length]. now rewrite length_putUint.
Qed.

Lemma strictBody_putHeader (tag : byte) (body : bytes) :
  lengthN body < 16777216 ->
  strictBody (putHeader tag body) = Ok (body, []).
Proof.
  intros H. unfold strictBody, putHeader.
  change (tag :: putUint 3 (lengthN body) ++ body)
    with ([tag] ++ putUint 3 (lengthN body) ++ body).
  rewrite (bind_ok _ _ _ (putUint 3 (lengthN body) ++ body) [tag])
    by now apply take_app.
  rewrite (bind_ok _ _ _ body (lengthN body)) by now apply readUint3_put.
  rewrite (bind_ok _ _ _ [] body).
  - reflexivity.
  - rewrite <- (app_nil_r body) at 2. apply take_app.
    unfold lengthN. now rewrite Nnat.Nat2N.id.
Qed.

(** ** Extension blocks *)

Lemma readExtension_put (e : extension) (rest : bytes) :
  fst e < 65536 -> lengthN (snd e) < 65536 ->
  readExtension (putExtension e ++ rest) = Ok (e, rest).
Proof.
  intros Hty Hlen. destruct e as [ty payload]. cbn [fst snd] in *.
  unfold readExtension, putExtension. cbn [fst snd]. rewrite <- app_assoc.
  rewrite (bind_ok _ _ _ (putVec 2 payload ++ rest) ty) by now apply readUint2_put.
  rewrite (bind_ok _ _ _ rest payload) by now apply readVec2_put.
  reflexivity.
Qed.

Lemma lengthN_putExtension (e : extension) :
  lengthN (putExtension e) = 4 + lengthN (snd e).
Proof.
  unfold putExtension. rewrite lengthN_app, lengthN_putUint, lengthN_putVec. lia.
Qed.

Lemma parseAll_extensions (exts : list extension) :
  Forall (fun e => fst e < 65536) exts ->
  lengthN (putAll putExtension exts) < 65536 ->
  parseAll readExtension (putAll putExtension exts) = Ok exts.
Proof.
  intros Hty Hlen. apply parseAll_putAll.
  - intros e rest Hin. apply readExtension_put.
    + rewrite Forall_forall in Hty. now apply Hty.
    + pose proof (In_lengthN_putAll putExtension exts e Hin) as Hle.
      rewrite lengthN_putExtension in Hle. lia.
  - intros [ty payload] _. unfold putExtension. cbn [fst snd putUint].
    intros E. apply app_eq_nil in E. destruct E as [E _].
    apply app_eq_nil in E. destruct E; discriminate.
Qed.

Lemma readExtensions_put (exts : list extension) :
  Forall (fun e => fst e < 65536) exts ->
  lengthN (putAll putExtension exts) < 65536 ->
  readExtensions (putExtensions exts) = Ok (exts, []).
Proof.
  intros Hty Hlen. destruct exts as [|e exts]; [reflexivity|].
  unfold readExtensions, putExtensions.
  remember (e :: exts) as l eqn:El.
  destruct (putVec 2 (putAll putExtension l)) as [|b tl] eqn:E.
  { now apply putVec_nonempty in E. }
  rewrite <- E. clear E b tl.
  rewrite <- (app_nil_r (putVec 2 _)).
  rewrite (bind_ok _ _ _ [] (putAll putExtension l)) by now apply readVec2_put.
  rewrite (bind_ok _ _ _ [] tt) by reflexivity.
  apply lift_ok. now apply parseAll_extensions.
Qed.

Lemma foldResult_app {S E} (f : S -> E -> result S) (l1 l2 : list E) (s : S) :
  foldResult f (l1 ++ l2) s = andThen (foldResult f l1 s) (foldResult f l2).
Proof.
  revert s. induction l1 as [|e l1 IH]; intros s; cbn; [reflexivity|].
  destruct (f s e); cbn; auto.
Qed.

Lemma foldResult_optional {S E} (f : S -> E -> result S) (b : bool) (e : E) (s : S) :
  foldResult f (optional b e) s = if b then f s e else Ok s.
Proof. destruct b; cbn; [destruct (f s e)|]; reflexivity. Qed.

Lemma putAll_app {A} (put : A -> bytes) (l1 l2 : list A) :
  putAll put (l1 ++ l2) = putAll put l1 ++ putAll put l2.
Proof. unfold putAll. now rewrite map_app, concat_app. Qed.

Lemma lengthN_putAll_optional {A} (put : A -> bytes) (b : bool) (x : A) :
  lengthN (putAll put (optional b x)) = if b then lengthN (put x) else 0.
Proof.
  destruct b; cbn; [|reflexivity]. unfold putAll. cbn. now rewrite app_nil_r.
Qed.

Lemma Forall_optional {A} (P : A -> Prop) (b : bool) (x : A) :
  P x -> Forall P (optional b x).
Proof. intros H. destruct b; cbn; auto. Qed.

Lemma stringOf_bytesOf (s : string) : stringOf (bytesOf s) = s.
Proof. apply string_of_list_byte_of_string. Qed.

Lemma bytesOf_stringOf (b : bytes) : bytesOf (stringOf b) = b.
Proof. apply list_byte_of_string_of_list_byte. Qed.

Lemma parseAll_single {A} (p : parser A) (enc : bytes) (a : A) :
  p enc = Ok (a, []) -> enc <> [] -> parseAll p enc = Ok [a].
Proof.
  intros Hp Hne. unfold parseAll.
  destruct enc as [|b enc]; [contradiction|].
  cbn [List.length many]. rewrite Hp.
  destruct (List.length enc); reflexivity.
Qed.

(** ** ClientHello *)

Section ClientHelloRoundTrip.

Import ClientHello.

Lemma ch_step_npn (m : clientHelloMsg) (b : bool) :
  foldResult applyExtension (optional b (extensionNextProtoNeg, [])) m
  = Ok (if b then withNextProtoNeg m true else m).
Proof. rewrite foldResult_optional. now destruct b. Qed.

Lemma readServerName_put (name rest : bytes) :
  lengthN name < 65536 ->
  readServerName (putUint 1 0 ++ putVec 2 name ++ rest) = Ok ((0, name), rest).
Proof.
  intros H. unfold readServerName.
  rewrite (bind_ok _ _ _ (putVec 2 name ++ rest) 0) by now apply readUint1_put.
  rewrite (bind_ok _ _ _ rest name) by now apply readVec2_put.
  reflexivity.
Qed.

Lemma ch_step_sni (m : clientHelloMsg) (b : bool) (name : string) :
  (b = true -> lengthN (putServerName name) < 65536) ->
  foldResult applyExtension (optional b (extensionServerName, putServerName name)) m
  = Ok (if b then withServerName m name else m).
Proof.
  intros Hlen. rewrite foldResult_optional. destruct b; [|reflexivity].
  specialize (Hlen eq_refl). unfold putServerName in Hlen.
  rewrite !lengthN_putVec, lengthN_app, lengthN_putVec, lengthN_putUint in Hlen.
  cbn [applyExtension]. change (extensionServerName =? extensionNextProtoNeg) with false.
  change (extensionServerName =? extensionServerName) with true. cbv iota.
  unfold putServerName.
  rewrite (complete_put _ _ (putUint 1 0 ++ putVec 2 (bytesOf name))).
  2:{ apply readVec2_put. rewrite lengthN_app, lengthN_putVec, lengthN_putUint. lia. }
  cbn [andThen].
  rewrite (parseAll_single _ _ (0, bytesOf name)).
  - cbn. now rewrite stringOf_bytesOf.
  - rewrite <- (app_nil_r (putVec 2 _)). apply readServerName_put. lia.
  - discriminate.
Qed.

Lemma ch_step_ocsp (m : clientHelloMsg) (b : bool) :
  foldResult applyExtension
    (optional b (extensionStatusRequest, [statusTypeOCSP; x00; x00; x00; x00])) m
  = Ok (if b then withOcspStapling m true else m).
Proof. rewrite foldResult_optional. now destruct b. Qed.

Lemma ch_step_points (m : clientHelloMsg) (b : bool) (pts : bytes) :
  lengthN pts < 256 ->
  foldResult applyExtension (optional b (extensionSupportedPoints, putVec 1 pts)) m
  = Ok (if b then withSupportedPoints m pts else m).
Proof.
  intros Hlen. rewrite foldResult_optional. destruct b; [|reflexivity].
  cbn [applyExtension].
  change (extensionSupportedPoints =? extensionNextProtoNeg) with false.
  change (extensionSupportedPoints =? extensionServerName) with false.
  change (extensionSupportedPoints =? extensionStatusRequest) with false.
  change (extensionSupportedPoints =? extensionSupportedPoints) with true.
  cbv iota.
  rewrite (complete_put _ _ pts); [reflexivity|]. now apply readVec1_put.
Qed.

Lemma ch_step_curves (m : clientHelloMsg) (b : bool) (curves : list N) :
  Forall (fun c => c < 65536) curves ->
  (b = true -> lengthN (putUint16s curves) < 65536) ->
  foldResult applyExtension (optional b (extensionSupportedCurves, putUint16s curves)) m
  = Ok (if b then withSupportedCurves m curves else m).
Proof.
  intros Hc Hlen. rewrite foldResult_optional. destruct b; [|reflexivity].
  specialize (Hlen eq_refl). unfold putUint16s in Hlen. rewrite lengthN_putVec in Hlen.
  cbn [applyExtension].
  change (extensionSupportedCurves =? extensionNextProtoNeg) with false.
  change (extensionSupportedCurves =? extensionServerName) with false.
  change (extensionSupportedCurves =? extensionStatusRequest) with false.
  change (extensionSupportedCurves =? extensionSupportedPoints) with false.
  change (extensionSupportedCurves =? extensionSupportedCurves) with true.
  cbv iota.
  rewrite (complete_put _ _ curves); [reflexivity|].
  apply readUint16s_put; [assumption | lia].
Qed.

Lemma ch_step_ticket (m : clientHelloMsg) (b : bool) (ticket : bytes) :
  foldResult applyExtension (optional b (extensionSessionTicket, ticket)) m
  = Ok (if b then withSessionTicket m ticket else m).
Proof. rewrite foldResult_optional. now destruct b. Qed.

Lemma ch_step_sigalgs (m : clientHelloMsg) (b : bool) (algs : list N) :
  Forall (fun c => c < 65536) algs ->
  (b = true -> lengthN (putUint16s algs) < 65536) ->
  foldResult applyExtension (optional b (extensionSignatureAlgorithms, putUint16s algs)) m
  = Ok (if b then withSignatureAlgorithms m algs else m).
Proof.
  intros Hc Hlen. rewrite foldResult_optional. destruct b; [|reflexivity].
  specialize (Hlen eq_refl). unfold putUint16s in Hlen. rewrite lengthN_putVec in Hlen.
  cbn [applyExtension].
  change (extensionSignatureAlgorithms =? extensionNextProtoNeg) with false.
  change (extensionSignatureAlgorithms =? extensionServerName) with false.
  change (extensionSignatureAlgorithms =? extensionStatusRequest) with false.
  change (extensionSignatureAlgorithms =? extensionSupportedPoints) with false.
  change (extensionSignatureAlgorithms =? extensionSupportedCurves) with false.
  change (extensionSignatureAlgorithms =? extensionSessionTicket) with false.
  change (extensionSignatureAlgorithms =? extensionSignatureAlgorithms) with true.
  cbv iota.
  rewrite (complete_put _ _ algs); [reflexivity|].
  apply readUint16s_put; [assumption | lia].
Qed.

Lemma map_stringOf_bytesOf (l : list string) : map stringOf (map bytesOf l) = l.
Proof.
  induction l as [|s l IH]; [reflexivity|]. cbn [map].
  now rewrite stringOf_bytesOf, IH.
Qed.

Lemma putAll_map {A B} (f : A -> B) (put : B -> bytes) (l : list A) :
  putAll (fun x => put (f x)) l = putAll put (map f l).
Proof. unfold putAll. now rewrite map_map. Qed.

Lemma ch_step_alpn (m : clientHelloMsg) (b : bool) (protos : list string) :
  Forall (fun s => lengthN (bytesOf s) < 256) protos ->
  (b = true -> lengthN (putProtocols protos) < 65536) ->
  foldResult applyExtension (optional b (extensionALPN, putProtocols protos)) m
  = Ok (if b then withAlpnProtocols m protos else m).
Proof.
  intros Hp Hlen. rewrite foldResult_optional. destruct b; [|reflexivity].
  specialize (Hlen eq_refl). unfold putProtocols in *.
  rewrite lengthN_putVec in Hlen.
  cbn [applyExtension].
  change (extensionALPN =? extensionNextProtoNeg) with false.
  change (extensionALPN =? extensionServerName) with false.
  change (extensionALPN =? extensionStatusRequest) with false.
  change (extensionALPN =? extensionSupportedPoints) with false.
  change (extensionALPN =? extensionSupportedCurves) with false.
  change (extensionALPN =? extensionSessionTicket) with false.
  change (extensionALPN =? extensionSignatureAlgorithms) with false.
  change (extensionALPN =? extensionALPN) with true.
  cbv iota.
  rewrite (putAll_map bytesOf (putVec 1)) in *.
  rewrite (complete_put _ _ (map bytesOf protos)).
  - cbn [andThen]. now rewrite map_stringOf_bytesOf.
  - unfold readProtocols.
    rewrite (bind_ok _ _ _ [] (putAll (putVec 1) (map bytesOf protos)))
      by (apply readVec2_put; lia).
    apply lift_ok. apply parseAll_vecs.
    apply Forall_forall. intros v Hin. apply in_map_iff in Hin.
    destruct Hin as [s [<- Hs]]. rewrite Forall_forall in Hp. now apply Hp.
Qed.

Lemma ch_step_scts (m : clientHelloMsg) (b : bool) :
  foldResult applyExtension (optional b (extensionSCT, [])) m
  = Ok (if b then withScts m true else m).
Proof. rewrite foldResult_optional. now destruct b. Qed.

Lemma ch_extension_types (m : clientHelloMsg) :
  Forall (fun e : extension => fst e < 65536) (extensions m).
Proof.
  unfold extensions.
  repeat (apply Forall_app; split); apply Forall_optional; reflexivity.
Qed.

Lemma ch_block_length (m : clientHelloMsg) :
  lengthN (putAll putExtension (extensions m)) =
  (if nextProtoNeg m then 4 else 0)
  + ((if negb (String.eqb (serverName m) EmptyString)
      then 4 + lengthN (putServerName (serverName m)) else 0)
  + ((if ocspStapling m then 9 else 0)
  + ((if nonEmpty (supportedPoints m)
      then 4 + lengthN (putVec 1 (supportedPoints m)) else 0)
  + ((if nonEmpty (supportedCurves m)
      then 4 + lengthN (putUint16s (supportedCurves m)) else 0)
  + ((if ticketSupported m then 4 + lengthN (sessionTicket m) else 0)
  + ((if nonEmpty (supportedSignatureAlgorithms m)
      then 4 + lengthN (putUint16s (supportedSignatureAlgorithms m)) else 0)
  + ((if nonEmpty (alpnProtocols m)
      then 4 + lengthN (putProtocols (alpnProtocols m)) else 0)
  + (if scts m then 4 else 0)))))))).
Proof.
  unfold extensions.
  rewrite !putAll_app, !lengthN_app, !lengthN_putAll_optional, !lengthN_putExtension.
  reflexivity.
Qed.

Lemma ch_extensions_fold (m : clientHelloMsg) :
  valid m ->
  foldResult applyExtension (extensions m)
    (withoutExtensions (vers m) (random m) (sessionId m) (cipherSuites m)
       (compressionMethods m))
  = Ok m.
Proof.
  intros (_ & _ & _ & _ & _ & _ & _ & _ & Hpts & Hcurves & Hticket & Halgs & Halpn
          & Hblock).
  rewrite ch_block_length in Hblock.
  unfold extensions.
  rewrite foldResult_app, ch_step_npn. cbn [andThen].
  rewrite foldResult_app, ch_step_sni by (intros E; rewrite E in Hblock; lia).
  cbn [andThen].
  rewrite foldResult_app, ch_step_ocsp. cbn [andThen].
  rewrite foldResult_app, ch_step_points by assumption. cbn [andThen].
  rewrite foldResult_app, ch_step_curves
    by (try assumption; intros E; rewrite E in Hblock; lia).
  cbn [andThen].
  rewrite foldResult_app, ch_step_ticket. cbn [andThen].
  rewrite foldResult_app, ch_step_sigalgs
    by (try assumption; intros E; rewrite E in Hblock; lia).
  cbn [andThen].
  rewrite foldResult_app, ch_step_alpn
    by (try assumption; intros E; rewrite E in Hblock; lia).
  cbn [andThen].
  rewrite ch_step_scts.
  clear Hblock Hpts Hcurves Halgs Halpn.
  destruct m as [v r s cs cm npn sn ocsp pts curves ts ticket algs alpn sc].
  cbn [vers random sessionId cipherSuites compressionMethods nextProtoNeg serverName
       ocspStapling supportedPoints supportedCurves ticketSupported sessionTicket
       supportedSignatureAlgorithms alpnProtocols scts] in *.
  assert (Hts : ts = true \/ ticket = []).
  { destruct ts; [now left | right; now apply Hticket]. }
  clear Hticket. f_equal.
  destruct npn, sn, ocsp, pts, curves, algs, alpn, sc;
    (destruct Hts as [-> | ->]; [reflexivity | destruct ts; reflexivity]).
Qed.

Lemma ch_parse_marshal (tag : byte) (m : clientHelloMsg) :
  valid m -> parse (marshal tag m) = Ok (m, []).
Proof.
  intros Hv.
  pose proof Hv as (Hvers & _ & _ & Hrandom & Hsid & Hcs & Hcslen & Hcm & _).
  pose proof Hv as (_ & _ & _ & _ & _ & _ & _ & _ & _ & _ & _ & _ & _ & Hblock).
  unfold parse, marshal, hello.
  rewrite (bind_ok _ _ _ _ tt (skipHeader_putHeader _ _)).
  rewrite <- !app_assoc.
  rewrite (bind_ok _ _ _ _ _ (readUint2_put _ _ Hvers)).
  rewrite (bind_ok _ _ _ _ _ (take_app _ _ _ Hrandom)).
  rewrite (bind_ok _ _ _ _ _ (readVec1_put _ _ Hsid)).
  rewrite (bind_ok _ _ _ (putVec 1 (compressionMethods m)
                            ++ putExtensions (extensions m)) (cipherSuites m)).
  2:{ apply readUint16s_put; [assumption|].
      rewrite lengthN_putUint16s_block. lia. }
  rewrite (bind_ok _ _ _ _ _ (readVec1_put _ _ Hcm)).
  rewrite (bind_ok _ _ _ [] (extensions m)).
  2:{ apply readExtensions_put; [apply ch_extension_types | assumption]. }
  apply lift_ok. now apply ch_extensions_fold.
Qed.

Lemma ch_unmarshal_marshal (tag : byte) (m : clientHelloMsg) :
  valid m -> unmarshal (marshal tag m) = Ok m.
Proof.
  intros Hv. unfold unmarshal, complete. now rewrite ch_parse_marshal.
Qed.

End ClientHelloRoundTrip.

(** ** ServerHello *)

Lemma readByte_cons (b : byte) (rest : bytes) : readByte (b :: rest) = Ok (b, rest).
Proof.
  unfold readByte. change (b :: rest) with ([b] ++ rest).
  now rewrite (bind_ok _ _ _ rest [b]) by now apply take_app.
Qed.

Lemma within_ok {A} (p : parser A) (payload data : bytes) (a : A) :
  complete p payload = Ok a -> within p payload data = Ok (a, data).
Proof. intros H. unfold within. now apply lift_ok. Qed.

Section ServerHelloRoundTrip.

Import ServerHello.

Lemma sh_step_npn (m : serverHelloMsg) (b : bool) (protos : list string) :
  Forall (fun s => lengthN (bytesOf s) < 256) protos ->
  foldResult applyExtension (optional b (extensionNextProtoNeg, putNextProtos protos)) m
  = Ok (if b then withNextProtos m protos else m).
Proof.
  intros Hp. rewrite foldResult_optional. destruct b; [|reflexivity].
  cbn [applyExtension].
  change (extensionNextProtoNeg =? extensionNextProtoNeg) with true. cbv iota.
  unfold putNextProtos. rewrite (putAll_map bytesOf (putVec 1)).
  rewrite parseAll_vecs.
  - cbn [andThen]. now rewrite map_stringOf_bytesOf.
  - apply Forall_forall. intros v Hin. apply in_map_iff in Hin.
    destruct Hin as [s [<- Hs]]. rewrite Forall_forall in Hp. now apply Hp.
Qed.

Lemma sh_step_ocsp (m : serverHelloMsg) (b : bool) :
  foldResult applyExtension (optional b (extensionStatusRequest, [])) m
  = Ok (if b then withOcspStapling m true else m).
Proof. rewrite foldResult_optional. now destruct b. Qed.

Lemma sh_step_ticket (m : serverHelloMsg) (b : bool) :
  foldResult applyExtension (optional b (extensionSessionTicket, [])) m
  = Ok (if b then withTicketSupported m true else m).
Proof. rewrite foldResult_optional. now destruct b. Qed.

Lemma sh_step_alpn (m : serverHelloMsg) (b : bool) (proto : string) :
  lengthN (bytesOf proto) < 256 ->
  foldResult applyExtension (optional b (extensionALPN, putAlpnProtocol proto)) m
  = Ok (if b then withAlpnProtocol m proto else m).
Proof.
  intros Hlen. rewrite foldResult_optional. destruct b; [|reflexivity].
  cbn [applyExtension].
  change (extensionALPN =? extensionNextProtoNeg) with false.
  change (extensionALPN =? extensionStatusRequest) with false.
  change (extensionALPN =? extensionSessionTicket) with false.
  change (extensionALPN =? extensionALPN) with true.
  cbv iota. unfold putAlpnProtocol.
  rewrite (complete_put _ _ (bytesOf proto)).
  - cbn [andThen]. now rewrite stringOf_bytesOf.
  - unfold readAlpnProtocol.
    rewrite (bind_ok _ _ _ [] (putVec 1 (bytesOf proto))).
    + apply within_ok. apply complete_put. now apply readVec1_put.
    + apply readVec2_put. rewrite lengthN_putVec. lia.
Qed.

Lemma readSCT_put (sct rest : bytes) :
  sct <> [] -> lengthN sct < 65536 ->
  readSCT (putVec 2 sct ++ rest) = Ok (sct, rest).
Proof.
  intros Hne Hlen. unfold readSCT.
  rewrite (bind_ok _ _ _ rest sct) by now apply readVec2_put.
  destruct sct; [contradiction | reflexivity].
Qed.

Lemma readSCTs_put (l : list bytes) :
  l <> [] ->
  Forall (fun sct => sct <> []) l ->
  lengthN (putVecs 2 l) < 65536 ->
  complete readSCTs (putVecs 2 l) = Ok l.
Proof.
  intros Hne Hall Hlen. unfold putVecs in *. rewrite lengthN_putVec in Hlen.
  apply complete_put. unfold readSCTs.
  rewrite (bind_ok _ _ _ [] (putAll (putVec 2) l)) by (apply readVec2_put; lia).
  destruct (putAll (putVec 2) l) as [|b tl] eqn:E.
  - destruct l as [|sct l]; [contradiction|].
    unfold putAll in E. cbn [map List.concat] in E.
    apply app_eq_nil in E. destruct E as [E _]. now apply putVec_nonempty in E.
  - rewrite <- E in *. apply lift_ok. apply parseAll_putAll.
    + intros sct rest Hin. apply readSCT_put.
      * rewrite Forall_forall in Hall. now apply Hall.
      * pose proof (In_lengthN_putAll (putVec 2) l sct Hin) as Hle.
        rewrite lengthN_putVec in Hle. lia.
    + intros sct _. apply putVec_nonempty.
Qed.

Lemma sh_step_scts (m : serverHelloMsg) (l : list bytes) :
  Forall (fun sct => sct <> []) l ->
  (nonEmpty l = true -> lengthN (putVecs 2 l) < 65536) ->
  foldResult applyExtension (optional (nonEmpty l) (extensionSCT, putVecs 2 l)) m
  = Ok (if nonEmpty l then withScts m l else m).
Proof.
  intros Hall Hlen. rewrite foldResult_optional.
  destruct (nonEmpty l) eqn:El; [|reflexivity].
  cbn [applyExtension].
  change (extensionSCT =? extensionNextProtoNeg) with false.
  change (extensionSCT =? extensionStatusRequest) with false.
  change (extensionSCT =? extensionSessionTicket) with false.
  change (extensionSCT =? extensionALPN) with false.
  change (extensionSCT =? extensionSCT) with true.
  cbv iota.
  rewrite readSCTs_put; [reflexivity | | assumption | now apply Hlen].
  intros ->. discriminate.
Qed.

Lemma sh_extension_types (m : serverHelloMsg) :
  Forall (fun e : extension => fst e < 65536) (extensions m).
Proof.
  unfold extensions.
  repeat (apply Forall_app; split); apply Forall_optional; reflexivity.
Qed.

Lemma sh_block_length (m : serverHelloMsg) :
  lengthN (putAll putExtension (extensions m)) =
  (if nextProtoNeg m then 4 + lengthN (putNextProtos (nextProtos m)) else 0)
  + ((if ocspStapling m then 4 else 0)
  + ((if ticketSupported m then 4 else 0)
  + ((if negb (String.eqb (alpnProtocol m) EmptyString)
      then 4 + lengthN (putAlpnProtocol (alpnProtocol m)) else 0)
  + (if nonEmpty (scts m) then 4 + lengthN (putVecs 2 (scts m)) else 0)))).
Proof.
  unfold extensions.
  rewrite !putAll_app, !lengthN_app, !lengthN_putAll_optional, !lengthN_putExtension.
  reflexivity.
Qed.

Lemma sh_extensions_fold (m : serverHelloMsg) :
  valid m ->
  foldResult applyExtension (extensions m)
    (withoutExtensions (vers m) (random m) (sessionId m) (cipherSuite m)
       (compressionMethod m))
  = Ok m.
Proof.
  intros (_ & _ & _ & _ & Hnpn & Hprotos & Halpn & Hscts & Hblock).
  rewrite sh_block_length in Hblock.
  unfold extensions.
  rewrite foldResult_app, sh_step_npn by assumption. cbn [andThen].
  rewrite foldResult_app, sh_step_ocsp. cbn [andThen].
  rewrite foldResult_app, sh_step_ticket. cbn [andThen].
  rewrite foldResult_app, sh_step_alpn by assumption. cbn [andThen].
  rewrite sh_step_scts by (try assumption; intros E; rewrite E in Hblock; lia).
  clear Hblock Hprotos Halpn Hscts.
  destruct m as [v r s c cm npn protos ocsp ts alpn sc].
  cbn [vers random sessionId cipherSuite compressionMethod nextProtoNeg nextProtos
       ocspStapling ticketSupported alpnProtocol scts] in *.
  f_equal.
  destruct npn; [|rewrite (Hnpn eq_refl)];
    destruct ocsp, ts, alpn, sc; reflexivity.
Qed.

Lemma sh_parse_marshal (tag : byte) (m : serverHelloMsg) :
  valid m -> parse (marshal tag m) = Ok (m, []).
Proof.
  intros Hv. pose proof Hv as (Hvers & Hrandom & Hsid & Hcs & _).
  pose proof Hv as (_ & _ & _ & _ & _ & _ & _ & _ & Hblock).
  unfold parse, marshal, hello.
  rewrite (bind_ok _ _ _ _ tt (skipHeader_putHeader _ _)).
  rewrite <- !app_assoc.
  rewrite (bind_ok _ _ _ _ _ (readUint2_put _ _ Hvers)).
  rewrite (bind_ok _ _ _ _ _ (take_app _ _ _ Hrandom)).
  rewrite (bind_ok _ _ _ _ _ (readVec1_put _ _ Hsid)).
  rewrite (bind_ok _ _ _ _ _ (readUint2_put _ _ Hcs)).
  cbn [app].
  rewrite (bind_ok _ _ _ _ _ (readByte_cons _ _)).
  rewrite (bind_ok _ _ _ [] (extensions m)).
  2:{ apply readExtensions_put; [apply sh_extension_types | assumption]. }
  apply lift_ok. now apply sh_extensions_fold.
Qed.

Lemma sh_unmarshal_marshal (tag : byte) (m : serverHelloMsg) :
  valid m -> unmarshal (marshal tag m) = Ok m.
Proof.
  intros Hv. unfold unmarshal, complete. now rewrite sh_parse_marshal.
Qed.

End ServerHelloRoundTrip.

(** ** The variants whose header is checked *)

Lemma strict_parse_marshal {M} (readBody : parser M) (tag : byte) (body : bytes) (m : M) :
  lengthN body < 16777216 ->
  readBody body = Ok (m, []) ->
  complete (b <- strictBody ;; within readBody b) (putHeader tag body) = Ok m.
Proof.
  intros Hlen Hbody. unfold complete.
  rewrite (bind_ok _ _ _ [] body) by now apply strictBody_putHeader.
  rewrite (within_ok _ _ _ m); [reflexivity|].
  unfold complete. now rewrite Hbody.
Qed.

Lemma finished_unmarshal_marshal (tag : byte) (m : Finished.finishedMsg) :
  Finished.unmarshal (Finished.marshal tag m) = Ok m.
Proof.
  destruct m as [v].
  unfold Finished.unmarshal, Finished.marshal, Finished.parse, complete.
  cbn [Finished.verifyData].
  now rewrite (bind_ok _ _ _ _ tt (skipHeader_putHeader _ _)).
Qed.

Lemma certificate_unmarshal_marshal (tag : byte) (m : Certificate.certificateMsg) :
  Certificate.valid m ->
  Certificate.unmarshal (Certificate.marshal tag m) = Ok m.
Proof.
  destruct m as [certs]. unfold Certificate.valid, Certificate.body.
  cbn [Certificate.certificates]. intros Hlen.
  apply strict_parse_marshal; [exact Hlen|].
  unfold Certificate.readBody, Certificate.body. cbn [Certificate.certificates].
  rewrite <- (app_nil_r (putVecs 3 certs)).
  rewrite (bind_ok _ _ _ [] certs); [reflexivity|].
  apply readVecs_put. unfold putVecs in Hlen. rewrite lengthN_putVec in Hlen.
  change (256 ^ N.of_nat 3) with 16777216. lia.
Qed.

Lemma certificateRequest_body_length (m : CertificateRequest.certificateRequestMsg) :
  lengthN (CertificateRequest.body m) =
  1 + lengthN (CertificateRequest.certificateTypes m)
  + (2 + lengthN (putAll (putVec 2) (CertificateRequest.certificateAuthorities m))).
Proof.
  unfold CertificateRequest.body, putVecs.
  rewrite lengthN_app, !lengthN_putVec. lia.
Qed.

Lemma certificateRequest_unmarshal_marshal
    (tag : byte) (m : CertificateRequest.certificateRequestMsg) :
  CertificateRequest.valid m ->
  CertificateRequest.unmarshal (CertificateRequest.marshal tag m) = Ok m.
Proof.
  intros [Htypes Hcas]. pose proof (certificateRequest_body_length m) as Hbody.
  destruct m as [types cas]. cbn [CertificateRequest.certificateTypes
    CertificateRequest.certificateAuthorities] in *.
  apply strict_parse_marshal; [lia|].
  unfold CertificateRequest.readBody, CertificateRequest.body.
  cbn [CertificateRequest.certificateTypes CertificateRequest.certificateAuthorities].
  rewrite (bind_ok _ _ _ _ _ (readVec1_put _ _ Htypes)).
  rewrite <- (app_nil_r (putVecs 2 cas)).
  rewrite (bind_ok _ _ _ [] cas); [reflexivity|].
  now apply readVecs_put.
Qed.

Lemma certificateVerify_unmarshal_marshal
    (tag : byte) (m : CertificateVerify.certificateVerifyMsg) :
  CertificateVerify.valid m ->
  CertificateVerify.unmarshal (CertificateVerify.marshal tag m) = Ok m.
Proof.
  destruct m as [sig]. unfold CertificateVerify.valid.
  cbn [CertificateVerify.signature]. intros Hlen.
  apply strict_parse_marshal.
  - unfold CertificateVerify.body. cbn [CertificateVerify.signature].
    rewrite lengthN_putVec. lia.
  - unfold CertificateVerify.readBody, CertificateVerify.body.
    cbn [CertificateVerify.signature]. rewrite <- (app_nil_r (putVec 2 sig)).
    now rewrite (bind_ok _ _ _ _ _ (readVec2_put _ _ Hlen)).
Qed.

Lemma byteEqb_eq (a b : byte) : byteEqb a b = true <-> a = b.
Proof.
  unfold byteEqb. split; [apply Byte.byte_dec_bl | apply Byte.byte_dec_lb].
Qed.

Lemma certificateStatus_unmarshal_marshal
    (tag : byte) (m : CertificateStatus.certificateStatusMsg) :
  CertificateStatus.valid m ->
  CertificateStatus.unmarshal (CertificateStatus.marshal tag m) = Ok m.
Proof.
  destruct m as [st resp]. unfold CertificateStatus.valid.
  cbn [CertificateStatus.statusType CertificateStatus.response]. intros [Hresp Hlen].
  apply strict_parse_marshal.
  - unfold CertificateStatus.body.
    cbn [CertificateStatus.statusType CertificateStatus.response].
    rewrite lengthN_cons. destruct (byteEqb st statusTypeOCSP).
    + rewrite lengthN_putVec. lia.
    + rewrite lengthN_nil. lia.
  - unfold CertificateStatus.readBody, CertificateStatus.body.
    cbn [CertificateStatus.statusType CertificateStatus.response].
    rewrite (bind_ok _ _ _ _ _ (readByte_cons _ _)).
    destruct (byteEqb st statusTypeOCSP) eqn:E.
    + rewrite <- (app_nil_r (putVec 3 resp)).
      rewrite (bind_ok _ _ _ [] resp); [reflexivity|].
      apply readVec3_put. lia.
    + rewrite Hresp; [reflexivity|].
      intros ->. apply Bool.not_true_iff_false in E. apply E. now apply byteEqb_eq.
Qed.

Lemma clientKeyExchange_unmarshal_marshal
    (tag : byte) (m : ClientKeyExchange.clientKeyExchangeMsg) :
  ClientKeyExchange.valid m ->
  ClientKeyExchange.unmarshal (ClientKeyExchange.marshal tag m) = Ok m.
Proof.
  destruct m as [c]. unfold ClientKeyExchange.valid.
  cbn [ClientKeyExchange.ciphertext]. intros Hlen.
  apply strict_parse_marshal; [exact Hlen | reflexivity].
Qed.

Lemma paddingLen_bound (m : NextProto.nextProtoMsg) :
  (NextProto.paddingLen m <= 32)%nat.
Proof. unfold NextProto.paddingLen. lia. Qed.

Lemma lengthN_repeat {A} (a : A) (n : nat) : lengthN (repeat a n) = N.of_nat n.
Proof. unfold lengthN. now rewrite repeat_length. Qed.

Lemma nextProto_unmarshal_marshal (tag : byte) (m : NextProto.nextProtoMsg) :
  NextProto.valid m ->
  NextProto.unmarshal (NextProto.marshal tag m) = Ok m.
Proof.
  unfold NextProto.valid. intros Hlen.
  pose proof (paddingLen_bound m) as Hpad.
  apply strict_parse_marshal.
  - unfold NextProto.body. rewrite lengthN_app, !lengthN_putVec, lengthN_repeat. lia.
  - unfold NextProto.readBody, NextProto.body.
    rewrite (bind_ok _ _ _ _ _ (readVec1_put _ _ Hlen)).
    rewrite <- (app_nil_r (putVec 1 (repeat _ _))).
    rewrite (bind_ok _ _ _ [] (repeat x00 (NextProto.paddingLen m))).
    + unfold ret. rewrite stringOf_bytesOf. now destruct m.
    + apply readVec1_put. rewrite lengthN_repeat. lia.
Qed.

Lemma newSessionTicket_unmarshal_marshal
    (tag : byte) (m : NewSessionTicket.newSessionTicketMsg) :
  NewSessionTicket.valid m ->
  NewSessionTicket.unmarshal (NewSessionTicket.marshal tag m) = Ok m.
Proof.
  destruct m as [t]. unfold NewSessionTicket.valid.
  cbn [NewSessionTicket.ticket]. intros Hlen.
  apply strict_parse_marshal.
  - unfold NewSessionTicket.body. cbn [NewSessionTicket.ticket].
    rewrite lengthN_app, lengthN_putUint, lengthN_putVec. lia.
  - unfold NewSessionTicket.readBody, NewSessionTicket.body.
    cbn [NewSessionTicket.ticket].
    rewrite (bind_ok _ _ _ (putVec 2 t) (putUint 4 0))
      by (apply take_app, length_putUint).
    rewrite <- (app_nil_r (putVec 2 t)).
    now rewrite (bind_ok _ _ _ _ _ (readVec2_put _ _ Hlen)).
Qed.

Lemma sessionState_unmarshal_marshal (tag : byte) (s : SessionState.sessionState) :
  SessionState.valid s ->
  SessionState.unmarshal (SessionState.marshal tag s) = Ok s.
Proof.
  intros (Hvers & Hcs & Hms & Hlen).
  apply strict_parse_marshal; [exact Hlen|].
  unfold SessionState.body in Hlen.
  rewrite !lengthN_app, !lengthN_putUint, lengthN_putVec in Hlen.
  unfold putVecs in Hlen. rewrite lengthN_putVec in Hlen.
  destruct s as [v c ms certs].
  cbn [SessionState.vers SessionState.cipherSuite SessionState.masterSecret
       SessionState.certificates] in *.
  unfold SessionState.readBody, SessionState.body.
  cbn [SessionState.vers SessionState.cipherSuite SessionState.masterSecret
       SessionState.certificates].
  rewrite (bind_ok _ _ _ _ _ (readUint2_put _ _ Hvers)).
  rewrite (bind_ok _ _ _ _ _ (readUint2_put _ _ Hcs)).
  rewrite (bind_ok _ _ _ _ _ (readVec2_put _ _ Hms)).
  rewrite <- (app_nil_r (putVecs 3 certs)).
  rewrite (bind_ok _ _ _ [] certs); [reflexivity|].
  apply readVecs_put. change (256 ^ N.of_nat 3) with 16777216. lia.
Qed.

(** Parsing what was serialized from valid fields gives the fields back. *)
Lemma decode_encode (typeTag : variant -> byte) (m : message) :
  validFields m -> decode (variantOf m) (encode typeTag m) = Ok m.
Proof.
  destruct m as [m|m|m|m|m|m|m|m|m|m|m]; cbn [validFields variantOf decode encode];
    intros Hv.
  - now rewrite ch_unmarshal_marshal.
  - now rewrite sh_unmarshal_marshal.
  - now rewrite finished_unmarshal_marshal.
  - now rewrite certificate_unmarshal_marshal.
  - now rewrite certificateRequest_unmarshal_marshal.
  - now rewrite certificateVerify_unmarshal_marshal.
  - now rewrite certificateStatus_unmarshal_marshal.
  - now rewrite clientKeyExchange_unmarshal_marshal.
  - now rewrite nextProto_unmarshal_marshal.
  - now rewrite newSessionTicket_unmarshal_marshal.
  - now rewrite sessionState_unmarshal_marshal.
Qed.

(** ** Round trip *)

(** A fresh message with valid fields parses back, with its cache filled
    by the bytes that were parsed. *)
Lemma unmarshal_marshal_fresh (typeTag : variant -> byte) (f : message) :
  validFields f ->
  unmarshal (variantOf f) (fst (marshal typeTag (fresh f)))
  = Ok {| raw := Some (encode typeTag f); fields := f |}.
Proof.
  intros Hv. unfold unmarshal, marshal, fresh. cbn [raw fields fst].
  now rewrite decode_encode.
Qed.

(** C1: for every variant and every valid message [m], parsing the bytes
    that [marshal] produced succeeds; the parsed fields are those of [m]
    (absent optional fields stay absent); once both caches are filled the
    parsed message equals [m]; and marshaling the parsed message again
    returns the same bytes, from the cache as well as from the fields. *)
Theorem marshal_unmarshal_roundtrip :
  forall (typeTag : variant -> byte) (m : handshakeMessage),
    valid m ->
    exists m2,
      unmarshal (variantOf (fields m)) (fst (marshal typeTag m)) = Ok m2 /\
      fields m2 = fields m /\
      m2 = snd (marshal typeTag m) /\
      fst (marshal typeTag m2) = fst (marshal typeTag m) /\
      encode typeTag (fields m2) = fst (marshal typeTag m).
Proof.
  intros typeTag [r f] [Hraw Hv]. cbn [raw fields] in *. subst r.
  exists {| raw := Some (encode typeTag f); fields := f |}.
  unfold unmarshal, marshal. cbn [raw fields fst snd].
  rewrite decode_encode by assumption. cbn [mapResult andThen].
  repeat split.
Qed.

Lemma valid_extendedClientHello :
  valid (fresh (ClientHelloMsg extendedClientHello)).
Proof.
  split; [reflexivity|]. cbn [fresh fields validFields].
  unfold ClientHello.valid.
  repeat split; try (vm_compute; reflexivity); try discriminate;
    repeat (constructor; try discriminate).
Qed.

Lemma marshal_unmarshal_roundtrip_witness :
  valid (fresh (ClientHelloMsg extendedClientHello)) /\
  exists m2,
    unmarshal vClientHello
      (fst (marshal tlsTypeTag (fresh (ClientHelloMsg extendedClientHello)))) = Ok m2 /\
    fields m2 = ClientHelloMsg extendedClientHello /\
    m2 = snd (marshal tlsTypeTag (fresh (ClientHelloMsg extendedClientHello))) /\
    fst (marshal tlsTypeTag m2)
    = fst (marshal tlsTypeTag (fresh (ClientHelloMsg extendedClientHello))) /\
    encode tlsTypeTag (fields m2)
    = fst (marshal tlsTypeTag (fresh (ClientHelloMsg extendedClientHello))).
Proof.
  split; [exact valid_extendedClientHello|].
  exact (marshal_unmarshal_roundtrip tlsTypeTag
           (fresh (ClientHelloMsg extendedClientHello)) valid_extendedClientHello).
Defined.

(** The end-to-end scenario of the spec: a ClientHello with one cipher
    suite and no extension carries no extension block and comes back with
    its optional fields absent. *)
Example plainClientHello_roundtrip :
  ClientHello.marshal x01 plainClientHello
  = [x01; x00; x00; x29] ++ [x03; x03] ++ zeroRandom
      ++ [x00] ++ [x00; x02; x00; x9c] ++ [x01; x00] /\
  exists m,
    ClientHello.unmarshal (ClientHello.marshal x01 plainClientHello) = Ok m /\
    ClientHello.nextProtoNeg m = false /\
    ClientHello.serverName m = EmptyString /\
    ClientHello.compressionMethods m = [x00] /\
    m = plainClientHello.
Proof.
  split; [vm_compute; reflexivity|].
  exists plainClientHello. split; [vm_compute; reflexivity | repeat split].
Qed.

(** ** Proper prefixes *)

Lemma bind_inv {A B} (p : parser A) (k : A -> parser B) (data : bytes) (r : B * bytes) :
  bind p k data = Ok r -> exists a rest, p data = Ok (a, rest) /\ k a rest = Ok r.
Proof.
  unfold bind. destruct (p data) as [[a rest]| |]; try discriminate.
  intros H. now exists a, rest.
Qed.

Lemma complete_inv {A} (p : parser A) (data : bytes) (a : A) :
  complete p data = Ok a -> p data = Ok (a, []).
Proof.
  unfold complete. destruct (p data) as [[a' [|b rest]]| |]; try discriminate.
  now intros [= ->].
Qed.

Lemma lift_inv {A} (r : result A) (data rest : bytes) (a : A) :
  lift r data = Ok (a, rest) -> r = Ok a /\ rest = data.
Proof.
  unfold lift. destruct r; cbn; try discriminate. now intros [= -> ->].
Qed.

Lemma mapResult_inv {A B} (f : A -> B) (r : result A) (b : B) :
  mapResult f r = Ok b -> exists a, r = Ok a /\ b = f a.
Proof.
  unfold mapResult. destruct r; cbn; try discriminate.
  intros [= <-]. now eexists.
Qed.

Lemma atEnd_inv (data rest : bytes) (u : unit) :
  atEnd data = Ok (u, rest) -> data = [] /\ rest = [].
Proof. destruct data; cbn; [now intros [= _ <-] | discriminate]. Qed.

Lemma take_firstn (n k : nat) (data x rest : bytes) :
  take n data = Ok (x, rest) -> (n <= k)%nat ->
  take n (firstn k data) = Ok (x, firstn (k - n) rest).
Proof.
  intros H Hk. apply take_ok in H. destruct H as [-> Hx].
  rewrite firstn_app, Hx, (firstn_all2 x) by lia.
  now apply take_app.
Qed.

Lemma take_firstn_short (n k : nat) (data : bytes) :
  (k < n)%nat -> take n (firstn k data) = Failure.
Proof.
  intros Hk. apply take_short.
  pose proof (firstn_le_length k data). lia.
Qed.

Lemma strictBody_prefix (data body rest : bytes) (k : nat) :
  strictBody data = Ok (body, rest) ->
  (k < List.length data)%nat ->
  strictBody (firstn k data) = Failure.
Proof.
  unfold strictBody, readUint. intros H Hk.
  apply bind_inv in H. destruct H as (t & r1 & Ht & H).
  apply bind_inv in H. destruct H as (n & r2 & Hn & H).
  apply bind_inv in Hn. destruct Hn as (h & r2' & Hh & Hn).
  unfold ret in Hn. injection Hn as <- <-.
  apply bind_inv in H. destruct H as (b & r3 & Hb & H).
  apply bind_inv in H. destruct H as (u & r4 & Hu & H).
  apply atEnd_inv in Hu. destruct Hu as [-> ->].
  pose proof (take_ok _ _ _ _ Ht) as [Ed Lt].
  pose proof (take_ok _ _ _ _ Hh) as [E1 Lh].
  pose proof (take_ok _ _ _ _ Hb) as [E2 Lb].
  rewrite app_nil_r in E2.
  assert (Hlen : List.length data = (4 + List.length b)%nat).
  { rewrite Ed, E1, E2, !length_app. lia. }
  destruct (Nat.lt_ge_cases k 1) as [K1|K1].
  { now rewrite (bind_failure _ _ _ (take_firstn_short 1 k data K1)). }
  rewrite (bind_ok _ _ _ _ _ (take_firstn 1 k _ _ _ Ht K1)).
  destruct (Nat.lt_ge_cases (k - 1) 3) as [K3|K3].
  { apply bind_failure. apply bind_failure. now apply take_firstn_short. }
  rewrite (bind_ok _ _ _ (firstn (k - 1 - 3) r2') (beN h)).
  2:{ now rewrite (bind_ok _ _ _ _ _ (take_firstn 3 (k - 1) _ _ _ Hh K3)). }
  apply bind_failure. apply take_firstn_short. lia.
Qed.

Lemma strict_unmarshal_prefix {M} (readBody : parser M) (data : bytes) (m : M) (k : nat) :
  complete (b <- strictBody ;; within readBody b) data = Ok m ->
  (k < List.length data)%nat ->
  complete (b <- strictBody ;; within readBody b) (firstn k data) = Failure.
Proof.
  intros H Hk. apply complete_inv in H.
  apply bind_inv in H. destruct H as (body & rest & Hb & _).
  unfold complete.
  now rewrite (bind_failure _ _ _ (strictBody_prefix _ _ _ _ Hb Hk)).
Qed.

(** Whatever parses as one of the eight variants without an optional
    trailing section has no proper prefix that parses. *)
Lemma unmarshal_rejects_proper_prefixes
    (v : variant) (data : bytes) (m : handshakeMessage) (k : nat) :
  hasOptionalTail v = false ->
  unmarshal v data = Ok m ->
  (k < List.length data)%nat ->
  unmarshal v (firstn k data) = Failure.
Proof.
  intros Hv H Hk. unfold unmarshal in *.
  apply mapResult_inv in H. destruct H as (f & H & _).
  destruct v; try discriminate Hv; cbn [decode] in *;
    apply mapResult_inv in H; destruct H as (x & H & _).
  - unfold Certificate.unmarshal, Certificate.parse in *.
    now rewrite (strict_unmarshal_prefix _ _ _ _ H Hk).
  - unfold CertificateRequest.unmarshal, CertificateRequest.parse in *.
    now rewrite (strict_unmarshal_prefix _ _ _ _ H Hk).
  - unfold CertificateVerify.unmarshal, CertificateVerify.parse in *.
    now rewrite (strict_unmarshal_prefix _ _ _ _ H Hk).
  - unfold CertificateStatus.unmarshal, CertificateStatus.parse in *.
    now rewrite (strict_unmarshal_prefix _ _ _ _ H Hk).
  - unfold ClientKeyExchange.unmarshal, ClientKeyExchange.parse in *.
    now rewrite (strict_unmarshal_prefix _ _ _ _ H Hk).
  - unfold NextProto.unmarshal, NextProto.parse in *.
    now rewrite (strict_unmarshal_prefix _ _ _ _ H Hk).
  - unfold NewSessionTicket.unmarshal, NewSessionTicket.parse in *.
    now rewrite (strict_unmarshal_prefix _ _ _ _ H Hk).
  - unfold SessionState.unmarshal, SessionState.parse in *.
    now rewrite (strict_unmarshal_prefix _ _ _ _ H Hk).
Qed.

Lemma validEncoding_parses (v : variant) (b : bytes) :
  validEncoding v b -> exists m, unmarshal v b = Ok m.
Proof.
  intros (typeTag & [r f] & [Hraw Hvalid] & <- & ->).
  cbn [raw fields] in *. subst r.
  unfold marshal, unmarshal. cbn [raw fields fst].
  rewrite decode_encode by assumption. cbn. eauto.
Qed.

(** C2: for Certificate, CertificateRequest, CertificateVerify,
    CertificateStatus, ClientKeyExchange, NextProtoMsg, NewSessionTicket and
    SessionState, and for every valid encoding [b] of the variant, parsing
    the prefix of [b] of any length [k] below the length of [b] fails. *)
Theorem strict_variants_reject_proper_prefixes :
  forall (v : variant) (b : bytes) (k : nat),
    In v [vCertificate; vCertificateRequest; vCertificateVerify; vCertificateStatus;
          vClientKeyExchange; vNextProto; vNewSessionTicket; vSessionState] ->
    validEncoding v b ->
    (k < List.length b)%nat ->
    unmarshal v (firstn k b) = Failure.
Proof.
  intros v b k Hin Hb Hk.
  destruct (validEncoding_parses v b Hb) as [m Hm].
  apply (unmarshal_rejects_proper_prefixes v b m k); try assumption.
  cbn in Hin.
  repeat (destruct Hin as [<-|Hin]; [reflexivity|]). contradiction.
Qed.

Lemma valid_sampleCertificate : valid (fresh sampleCertificate).
Proof. split; [reflexivity | vm_compute; reflexivity]. Qed.

Lemma validEncoding_sampleCertificate :
  validEncoding vCertificate (fst (marshal tlsTypeTag (fresh sampleCertificate))).
Proof.
  exists tlsTypeTag, (fresh sampleCertificate).
  split; [exact valid_sampleCertificate | split; reflexivity].
Qed.

Lemma strict_variants_reject_proper_prefixes_witness :
  In vCertificate
     [vCertificate; vCertificateRequest; vCertificateVerify; vCertificateStatus;
      vClientKeyExchange; vNextProto; vNewSessionTicket; vSessionState] /\
  validEncoding vCertificate (fst (marshal tlsTypeTag (fresh sampleCertificate))) /\
  (9 < List.length (fst (marshal tlsTypeTag (fresh sampleCertificate))))%nat /\
  unmarshal vCertificate (firstn 9 (fst (marshal tlsTypeTag (fresh sampleCertificate))))
  = Failure.
Proof.
  assert (Hin : In vCertificate
     [vCertificate; vCertificateRequest; vCertificateVerify; vCertificateStatus;
      vClientKeyExchange; vNextProto; vNewSessionTicket; vSessionState])
    by (left; reflexivity).
  assert (Hk : (9 < List.length (fst (marshal tlsTypeTag (fresh sampleCertificate))))%nat)
    by (vm_compute; lia).
  split; [exact Hin|]. split; [exact validEncoding_sampleCertificate|].
  split; [exact Hk|].
  exact (strict_variants_reject_proper_prefixes vCertificate _ 9 Hin
           validEncoding_sampleCertificate Hk).
Defined.

(** The cache at work: an extension block that is present but empty parses
    to the same fields as no block at all; marshaling the parsed message
    returns the bytes it came from, which serializing its fields would not
    give back. *)
Example cache_keeps_present_but_empty_block :
  exists m,
    unmarshal vClientHello
      (putHeader x01 (ClientHello.hello plainClientHello ++ [x00; x00])) = Ok m /\
    fields m = ClientHelloMsg plainClientHello /\
    fst (marshal tlsTypeTag m)
    = putHeader x01 (ClientHello.hello plainClientHello ++ [x00; x00]) /\
    encode tlsTypeTag (fields m)
    <> putHeader x01 (ClientHello.hello plainClientHello ++ [x00; x00]).
Proof.
  eexists. split; [vm_compute; reflexivity|].
  split; [reflexivity|]. split; [reflexivity|]. vm_compute. discriminate.
Qed.

(** The exemption is used: the encoding of [extendedClientHello] cut before
    its extension block still parses, as a ClientHello without extensions. *)
Example clientHello_has_parsable_prefix :
  (45 < List.length (ClientHello.marshal x01 extendedClientHello))%nat /\
  ClientHello.unmarshal (firstn 45 (ClientHello.marshal x01 extendedClientHello))
  = Ok plainClientHello.
Proof. split; [vm_compute; lia | vm_compute; reflexivity]. Qed.

(** ** No parse faults *)

Create HintDb safe.

Lemma andThen_no_abort {A B} (r : result A) (k : A -> result B) :
  r <> Abort -> (forall a, k a <> Abort) -> andThen r k <> Abort.
Proof. destruct r; cbn; intros Hr Hk; [apply Hk | discriminate | now elim Hr]. Qed.

Lemma safe_ret {A} (a : A) : safe (ret a).
Proof. intros data. discriminate. Qed.

Lemma safe_reject {A} : safe (@reject A).
Proof. intros data. discriminate. Qed.

Lemma safe_bind {A B} (p : parser A) (k : A -> parser B) :
  safe p -> (forall a, safe (k a)) -> safe (bind p k).
Proof.
  intros Hp Hk data. unfold bind.
  destruct (p data) as [[a rest]| |] eqn:E.
  - apply Hk.
  - discriminate.
  - now apply Hp in E.
Qed.

Lemma safe_lift {A} (r : result A) : r <> Abort -> safe (lift r).
Proof. intros H data. unfold lift. destruct r; cbn; congruence. Qed.

(** The one place where the buffer is sliced: the length was checked. *)
Lemma safe_take (n : nat) : safe (take n).
Proof.
  intros data. unfold take, sliceTo, sliceFrom.
  destruct (Nat.ltb_spec (List.length data) n); [discriminate|].
  destruct (Nat.leb_spec n (List.length data)); [discriminate | lia].
Qed.

Lemma safe_atEnd : safe atEnd.
Proof. intros [|b data]; discriminate. Qed.

Lemma safe_remaining : safe remaining.
Proof. intros data. discriminate. Qed.

#[local] Hint Resolve safe_ret safe_reject safe_bind safe_take safe_atEnd
  safe_remaining : safe.

Lemma safe_readUint (w : nat) : safe (readUint w).
Proof. unfold readUint. auto with safe. Qed.

#[local] Hint Resolve safe_readUint : safe.

Lemma safe_readVec (w : nat) : safe (readVec w).
Proof. unfold readVec. auto with safe. Qed.

Lemma safe_readByte : safe readByte.
Proof.
  unfold readByte. apply safe_bind; [auto with safe|].
  intros [|b [|b' bs]]; auto with safe.
Qed.

#[local] Hint Resolve safe_readVec safe_readByte : safe.

Lemma complete_no_abort {A} (p : parser A) (data : bytes) :
  safe p -> complete p data <> Abort.
Proof.
  intros Hp. unfold complete.
  destruct (p data) as [[a [|b rest]]| |] eqn:E; try discriminate.
  now apply Hp in E.
Qed.

Lemma many_no_abort {A} (p : parser A) (fuel : nat) (data : bytes) :
  safe p -> many fuel p data <> Abort.
Proof.
  intros Hp. revert data. induction fuel as [|fuel IH]; intros [|b data]; cbn;
    try discriminate.
  destruct (p (b :: data)) as [[x rest]| |] eqn:E.
  - apply andThen_no_abort; [apply IH | discriminate].
  - discriminate.
  - now apply Hp in E.
Qed.

Lemma parseAll_no_abort {A} (p : parser A) (block : bytes) :
  safe p -> parseAll p block <> Abort.
Proof. intros Hp. now apply many_no_abort. Qed.

Lemma safe_within {A} (p : parser A) (payload : bytes) :
  safe p -> safe (within p payload).
Proof. intros Hp. apply safe_lift. now apply complete_no_abort. Qed.

Lemma safe_parseAll_lift {A} (p : parser A) (block : bytes) :
  safe p -> safe (lift (parseAll p block)).
Proof. intros Hp. apply safe_lift. now apply parseAll_no_abort. Qed.

#[local] Hint Resolve safe_within safe_parseAll_lift : safe.

Lemma safe_readUint16s : safe readUint16s.
Proof. unfold readUint16s. auto with safe. Qed.

Lemma safe_readVecs (w : nat) : safe (readVecs w).
Proof. unfold readVecs. auto with safe. Qed.

Lemma safe_strictBody : safe strictBody.
Proof. unfold strictBody. auto 10 with safe. Qed.

Lemma safe_skipHeader : safe skipHeader.
Proof. unfold skipHeader. auto with safe. Qed.

Lemma safe_readExtension : safe readExtension.
Proof. unfold readExtension. auto with safe. Qed.

#[local] Hint Resolve safe_readUint16s safe_readVecs safe_strictBody safe_skipHeader
  safe_readExtension : safe.

Lemma safe_readExtensions : safe readExtensions.
Proof.
  intros [|b data]; [discriminate|]. unfold readExtensions.
  revert b data. 
  assert (H : safe (block <- readVec 2 ;; atEnd ;; lift (parseAll readExtension block)))
    by auto 10 with safe.
  intros b data. apply H.
Qed.

#[local] Hint Resolve safe_readExtensions : safe.

Lemma foldResult_no_abort {S E} (f : S -> E -> result S) (l : list E) (s : S) :
  (forall s e, f s e <> Abort) -> foldResult f l s <> Abort.
Proof.
  intros Hf. revert s. induction l as [|e l IH]; intros s; cbn; [discriminate|].
  apply andThen_no_abort; auto.
Qed.

Ltac no_abort :=
  repeat match goal with
         | |- Ok _ <> Abort => discriminate
         | |- Failure <> Abort => discriminate
         | |- andThen _ _ <> Abort => apply andThen_no_abort; [|intros]
         | |- complete _ _ <> Abort => apply complete_no_abort; auto 10 with safe
         | |- parseAll _ _ <> Abort => apply parseAll_no_abort; auto 10 with safe
         end.

Lemma safe_readServerName : safe ClientHello.readServerName.
Proof. unfold ClientHello.readServerName. auto with safe. Qed.

Lemma safe_readProtocols : safe ClientHello.readProtocols.
Proof. unfold ClientHello.readProtocols. auto with safe. Qed.

#[local] Hint Resolve safe_readServerName safe_readProtocols : safe.

Lemma ch_applyExtension_no_abort (m : ClientHello.clientHelloMsg) (e : extension) :
  ClientHello.applyExtension m e <> Abort.
Proof.
  destruct e as [ty payload]. unfold ClientHello.applyExtension.
  repeat match goal with
         | |- context [if ?c then _ else _] => destruct c
         end;
    try (destruct payload; discriminate);
    no_abort.
  destruct (find _ _) as [[? ?]|]; discriminate.
Qed.

Lemma safe_readSCT : safe ServerHello.readSCT.
Proof.
  unfold ServerHello.readSCT. apply safe_bind; [auto with safe|].
  intros [|b sct]; auto with safe.
Qed.

Lemma safe_readSCTs : safe ServerHello.readSCTs.
Proof.
  unfold ServerHello.readSCTs. apply safe_bind; [auto with safe|].
  intros [|b block]; [auto with safe|].
  apply safe_parseAll_lift. apply safe_readSCT.
Qed.

#[local] Hint Resolve safe_readSCT safe_readSCTs : safe.

Lemma safe_readAlpnProtocol : safe ServerHello.readAlpnProtocol.
Proof. unfold ServerHello.readAlpnProtocol. auto with safe. Qed.

#[local] Hint Resolve safe_readAlpnProtocol : safe.

Lemma sh_applyExtension_no_abort (m : ServerHello.serverHelloMsg) (e : extension) :
  ServerHello.applyExtension m e <> Abort.
Proof.
  destruct e as [ty payload]. unfold ServerHello.applyExtension.
  repeat match goal with
         | |- context [if ?c then _ else _] => destruct c
         end;
    try (destruct payload; discriminate);
    no_abort.
Qed.

Lemma safe_ch_parse : safe ClientHello.parse.
Proof.
  unfold ClientHello.parse.
  repeat (apply safe_bind; [auto with safe | intros]).
  apply safe_lift, foldResult_no_abort, ch_applyExtension_no_abort.
Qed.

Lemma safe_sh_parse : safe ServerHello.parse.
Proof.
  unfold ServerHello.parse.
  repeat (apply safe_bind; [auto with safe | intros]).
  apply safe_lift, foldResult_no_abort, sh_applyExtension_no_abort.
Qed.

Lemma safe_strict {M} (readBody : parser M) :
  safe readBody -> safe (b <- strictBody ;; within readBody b).
Proof. intros H. auto with safe. Qed.

Lemma mapResult_no_abort {A B} (f : A -> B) (r : result A) :
  r <> Abort -> mapResult f r <> Abort.
Proof. intros H. unfold mapResult. apply andThen_no_abort; [exact H | discriminate]. Qed.

Lemma decode_no_abort (v : variant) (data : bytes) : decode v data <> Abort.
Proof.
  destruct v; cbn [decode]; apply mapResult_no_abort, complete_no_abort.
  - apply safe_ch_parse.
  - apply safe_sh_parse.
  - unfold Finished.parse. auto with safe.
  - apply safe_strict. unfold Certificate.readBody. auto with safe.
  - apply safe_strict. unfold CertificateRequest.readBody. auto with safe.
  - apply safe_strict. unfold CertificateVerify.readBody. auto with safe.
  - apply safe_strict. unfold CertificateStatus.readBody.
    apply safe_bind; [auto with safe|]. intros st.
    destruct (byteEqb st statusTypeOCSP); auto with safe.
  - apply safe_strict. unfold ClientKeyExchange.readBody. auto with safe.
  - apply safe_strict. unfold NextProto.readBody. auto with safe.
  - apply safe_strict. unfold NewSessionTicket.readBody. auto with safe.
  - apply safe_strict. unfold SessionState.readBody. auto 10 with safe.
Qed.

(** ** The SCT list of a ServerHello *)

Lemma sh_parse_with (tag : byte) (m : ServerHello.serverHelloMsg) (exts : list extension) :
  validHello m ->
  wellFormedExtensions exts ->
  ServerHello.parse (serverHelloWith tag m exts)
  = lift (foldResult ServerHello.applyExtension exts
            (ServerHello.withoutExtensions (ServerHello.vers m) (ServerHello.random m)
               (ServerHello.sessionId m) (ServerHello.cipherSuite m)
               (ServerHello.compressionMethod m))) [].
Proof.
  intros (Hvers & Hrandom & Hsid & Hcs) (Hty & Hblock).
  unfold ServerHello.parse, serverHelloWith, ServerHello.hello.
  rewrite (bind_ok _ _ _ _ tt (skipHeader_putHeader _ _)).
  rewrite <- !app_assoc.
  rewrite (bind_ok _ _ _ _ _ (readUint2_put _ _ Hvers)).
  rewrite (bind_ok _ _ _ _ _ (take_app _ _ _ Hrandom)).
  rewrite (bind_ok _ _ _ _ _ (readVec1_put _ _ Hsid)).
  rewrite (bind_ok _ _ _ _ _ (readUint2_put _ _ Hcs)).
  cbn [app].
  rewrite (bind_ok _ _ _ _ _ (readByte_cons _ _)).
  now rewrite (bind_ok _ _ _ [] exts) by now apply readExtensions_put.
Qed.

Lemma foldResult_failure {S E} (f : S -> E -> result S) (before after : list E)
    (e : E) (s : S) :
  (forall s e, f s e <> Abort) ->
  (forall s, f s e = Failure) ->
  foldResult f (before ++ e :: after) s = Failure.
Proof.
  intros Hsafe He. rewrite foldResult_app.
  destruct (foldResult f before s) as [s'| |] eqn:E0; cbn.
  - now rewrite He.
  - reflexivity.
  - now apply foldResult_no_abort in E0.
Qed.

Lemma many_readSCT_empty (l : list bytes) (fuel : nat) :
  In [] l ->
  Forall (fun sct => lengthN sct < 65536) l ->
  (List.length l <= fuel)%nat ->
  many fuel ServerHello.readSCT (putAll (putVec 2) l) = Failure.
Proof.
  revert fuel. induction l as [|sct l IH]; intros fuel Hin Hall Hfuel; [contradiction|].
  destruct fuel as [|fuel]; [cbn in Hfuel; lia|].
  inversion Hall as [|? ? Hsct Hall']; subst.
  unfold putAll in *. cbn [map List.concat].
  destruct (putVec 2 sct ++ List.concat (map (putVec 2) l)) as [|b tl] eqn:E.
  { apply app_eq_nil in E. destruct E as [E _]. now apply putVec_nonempty in E. }
  cbn [many]. rewrite <- E. clear E b tl.
  destruct sct as [|b sct].
  - unfold ServerHello.readSCT.
    now rewrite (bind_ok _ _ _ _ _ (readVec2_put [] _ Hsct)).
  - rewrite readSCT_put by (assumption || discriminate).
    rewrite IH; [reflexivity | | assumption | cbn in Hfuel; lia].
    destruct Hin as [Hin|Hin]; [discriminate | assumption].
Qed.

Lemma readSCTs_rejects (l : list bytes) :
  l = [] \/ In [] l ->
  lengthN (putVecs 2 l) < 65536 ->
  complete ServerHello.readSCTs (putVecs 2 l) = Failure.
Proof.
  intros Hl Hlen. unfold putVecs in *. rewrite lengthN_putVec in Hlen.
  unfold complete, ServerHello.readSCTs.
  rewrite <- (app_nil_r (putVec 2 _)).
  rewrite (bind_ok _ _ _ [] (putAll (putVec 2) l)) by (apply readVec2_put; lia).
  destruct Hl as [->|Hin]; [reflexivity|].
  destruct (putAll (putVec 2) l) as [|b tl] eqn:E; [reflexivity|].
  rewrite <- E in *. unfold lift, parseAll.
  rewrite many_readSCT_empty; [reflexivity | assumption | |].
  - apply (items_within_block 2). lia.
  - apply length_putAll_ge. intros x _. apply putVec_nonempty.
Qed.

Lemma sh_sct_rejected (m : ServerHello.serverHelloMsg) (l : list bytes) :
  l = [] \/ In [] l ->
  lengthN (putVecs 2 l) < 65536 ->
  ServerHello.applyExtension m (sctExtension l) = Failure.
Proof.
  intros Hl Hlen. unfold sctExtension. cbn [ServerHello.applyExtension].
  change (extensionSCT =? extensionNextProtoNeg) with false.
  change (extensionSCT =? extensionStatusRequest) with false.
  change (extensionSCT =? extensionSessionTicket) with false.
  change (extensionSCT =? extensionALPN) with false.
  change (extensionSCT =? extensionSCT) with true.
  cbv iota. now rewrite readSCTs_rejects.
Qed.

Lemma wellFormed_payload (before after : list extension) (e : extension) :
  wellFormedExtensions (before ++ e :: after) -> lengthN (snd e) < 65536.
Proof.
  intros [_ Hlen].
  assert (Hin : In e (before ++ e :: after)) by (apply in_elt).
  pose proof (In_lengthN_putAll putExtension _ e Hin) as Hle.
  rewrite lengthN_putExtension in Hle. lia.
Qed.

Lemma sh_unmarshal_bad_sct (tag : byte) (m : ServerHello.serverHelloMsg)
    (before after : list extension) (l : list bytes) :
  l = [] \/ In [] l ->
  validHello m ->
  wellFormedExtensions (before ++ sctExtension l :: after) ->
  unmarshal vServerHello (serverHelloWith tag m (before ++ sctExtension l :: after))
  = Failure.
Proof.
  intros Hl Hm Hexts.
  pose proof (wellFormed_payload _ _ _ Hexts) as Hlen. cbn [sctExtension snd] in Hlen.
  unfold unmarshal. cbn [decode]. unfold ServerHello.unmarshal, complete.
  rewrite sh_parse_with by assumption.
  rewrite foldResult_failure; [reflexivity | apply sh_applyExtension_no_abort |].
  intros s. now apply sh_sct_rejected.
Qed.

(** C4: a ServerHello encoding whose SCT extension announces a list of
    length 0 fails to parse, wherever the extension stands among the
    others; so does one whose SCT list holds an entry of length 0; every
    valid ServerHello whose SCT list is a single non-empty entry (the entry
    42 42 42 42 is one) parses back to itself and marshals again to the same
    bytes. *)
Theorem serverHello_sct_invariants :
  (forall tag m before after,
      validHello m ->
      wellFormedExtensions (before ++ sctExtension [] :: after) ->
      unmarshal vServerHello (serverHelloWith tag m (before ++ sctExtension [] :: after))
      = Failure) /\
  (forall tag m before after scts,
      In [] scts ->
      validHello m ->
      wellFormedExtensions (before ++ sctExtension scts :: after) ->
      unmarshal vServerHello (serverHelloWith tag m (before ++ sctExtension scts :: after))
      = Failure) /\
  (forall typeTag,
      fst (marshal typeTag (fresh (ServerHelloMsg (sctServerHello [[]]))))
      = serverHelloWith (typeTag vServerHello) (sctServerHello [[]]) [sctExtension [[]]] /\
      unmarshal vServerHello
        (fst (marshal typeTag (fresh (ServerHelloMsg (sctServerHello [[]]))))) = Failure) /\
  (forall typeTag m sct,
      ServerHello.valid m ->
      ServerHello.scts m = [sct] ->
      sct <> [] ->
      exists m2,
        unmarshal vServerHello (fst (marshal typeTag (fresh (ServerHelloMsg m))))
        = Ok m2 /\
        fields m2 = ServerHelloMsg m /\
        m2 = snd (marshal typeTag (fresh (ServerHelloMsg m))) /\
        fst (marshal typeTag m2)
        = fst (marshal typeTag (fresh (ServerHelloMsg m))) /\
        encode typeTag (fields m2)
        = fst (marshal typeTag (fresh (ServerHelloMsg m)))).
Proof.
  split; [|split; [|split]].
  - intros tag m before after Hm Hexts.
    apply sh_unmarshal_bad_sct; auto.
  - intros tag m before after scts Hin Hm Hexts.
    apply sh_unmarshal_bad_sct; auto.
  - intros typeTag. split; [reflexivity|].
    change (fst (marshal typeTag (fresh (ServerHelloMsg (sctServerHello [[]])))))
      with (serverHelloWith (typeTag vServerHello) (sctServerHello [[]])
              ([] ++ sctExtension [[]] :: [])).
    apply sh_unmarshal_bad_sct.
    + right. now left.
    + repeat split; vm_compute; reflexivity.
    + split; [repeat constructor | vm_compute; reflexivity].
  - intros typeTag m sct Hv _ _.
    exists {| raw := Some (encode typeTag (ServerHelloMsg m));
              fields := ServerHelloMsg m |}.
    split; [exact (unmarshal_marshal_fresh typeTag (ServerHelloMsg m) Hv)|].
    repeat split.
Qed.

Lemma valid_sampleSCT_hello : ServerHello.valid (sctServerHello [sampleSCT]).
Proof.
  unfold ServerHello.valid.
  repeat split; try (vm_compute; reflexivity); try discriminate;
    repeat constructor; discriminate.
Qed.

Lemma serverHello_sct_invariants_witness :
  (validHello (sctServerHello []) /\
   wellFormedExtensions ([(extensionStatusRequest, [])] ++ sctExtension [] :: []) /\
   unmarshal vServerHello
     (serverHelloWith x02 (sctServerHello [])
        ([(extensionStatusRequest, [])] ++ sctExtension [] :: [])) = Failure) /\
  (In [] [sampleSCT; []] /\
   wellFormedExtensions ([] ++ sctExtension [sampleSCT; []] :: []) /\
   unmarshal vServerHello
     (serverHelloWith x02 (sctServerHello [])
        ([] ++ sctExtension [sampleSCT; []] :: [])) = Failure) /\
  (ServerHello.valid (sctServerHello [sampleSCT]) /\
   ServerHello.scts (sctServerHello [sampleSCT]) = [sampleSCT] /\
   sampleSCT <> [] /\
   exists m2,
     unmarshal vServerHello
       (fst (marshal tlsTypeTag (fresh (ServerHelloMsg (sctServerHello [sampleSCT])))))
     = Ok m2 /\
     fields m2 = ServerHelloMsg (sctServerHello [sampleSCT]) /\
     m2 = snd (marshal tlsTypeTag (fresh (ServerHelloMsg (sctServerHello [sampleSCT])))) /\
     fst (marshal tlsTypeTag m2)
     = fst (marshal tlsTypeTag (fresh (ServerHelloMsg (sctServerHello [sampleSCT])))) /\
     encode tlsTypeTag (fields m2)
     = fst (marshal tlsTypeTag (fresh (ServerHelloMsg (sctServerHello [sampleSCT]))))).
Proof.
  assert (Hm : validHello (sctServerHello []))
    by (repeat split; vm_compute; reflexivity).
  assert (He : wellFormedExtensions
                 ([(extensionStatusRequest, [])] ++ sctExtension [] :: []))
    by (split; [repeat constructor | vm_compute; reflexivity]).
  assert (Hin : In [] [sampleSCT; []]) by (right; now left).
  assert (He2 : wellFormedExtensions ([] ++ sctExtension [sampleSCT; []] :: []))
    by (split; [repeat constructor | vm_compute; reflexivity]).
  assert (Hne : sampleSCT <> []) by discriminate.
  split; [|split].
  - split; [exact Hm|]. split; [exact He|].
    exact (proj1 serverHello_sct_invariants x02 (sctServerHello [])
             [(extensionStatusRequest, [])] [] Hm He).
  - split; [exact Hin|]. split; [exact He2|].
    exact (proj1 (proj2 serverHello_sct_invariants) x02 (sctServerHello [])
             [] [] [sampleSCT; []] Hin Hm He2).
  - split; [exact valid_sampleSCT_hello|]. split; [reflexivity|]. split; [exact Hne|].
    exact (proj2 (proj2 (proj2 serverHello_sct_invariants)) tlsTypeTag
             (sctServerHello [sampleSCT]) sampleSCT
             valid_sampleSCT_hello eq_refl Hne).
Defined.

(** The bytes that the test of the empty SCT list builds: the extension
    length 2 and the list length 0 in place of the SCT. *)
Example emptySCTList_bytes :
  serverHelloWith x02 (sctServerHello [sampleSCT]) [sctExtension []]
  = [x02; x00; x00; x2e] ++ [x03; x03] ++ zeroRandom ++ [x00] ++ [x00; x00] ++ [x00]
      ++ [x00; x06] ++ [x00; x12; x00; x02; x00; x00] /\
  ServerHello.unmarshal
    (serverHelloWith x02 (sctServerHello [sampleSCT]) [sctExtension []]) = Failure /\
  ServerHello.marshal x02 (sctServerHello [sampleSCT])
  = [x02; x00; x00; x34] ++ [x03; x03] ++ zeroRandom ++ [x00] ++ [x00; x00] ++ [x00]
      ++ [x00; x0c] ++ [x00; x12; x00; x08; x00; x06; x00; x04; x42; x42; x42; x42].
Proof. repeat split; vm_compute; reflexivity. Qed.

(** ** What a parse holds is bounded by what it read *)

Lemma andThen_inv {A B} (r : result A) (k : A -> result B) (b : B) :
  andThen r k = Ok b -> exists a, r = Ok a /\ k a = Ok b.
Proof. destruct r; cbn; try discriminate. intros H. now eexists. Qed.

Lemma grows_take (n : nat) : grows 0 (@List.length byte) (take n).
Proof.
  intros data x rest H. apply take_ok in H. destruct H as [-> _].
  rewrite length_app. lia.
Qed.

Lemma grows_readUint (w : nat) : grows 0 (fun _ : N => 0%nat) (readUint w).
Proof.
  intros data n rest H. unfold readUint in H.
  apply bind_inv in H. destruct H as (bs & r & Ht & H).
  unfold ret in H. injection H as _ <-.
  apply grows_take in Ht. cbv beta. lia.
Qed.

Lemma readUint_exact (w : nat) (data rest : bytes) (n : N) :
  readUint w data = Ok (n, rest) -> (w + List.length rest = List.length data)%nat.
Proof.
  intros H. unfold readUint in H.
  apply bind_inv in H. destruct H as (bs & r & Ht & H).
  unfold ret in H. injection H as _ <-.
  apply take_ok in Ht. destruct Ht as [-> Hl]. rewrite length_app. lia.
Qed.

Lemma grows_readVec (w : nat) : grows 0 (@List.length byte) (readVec w).
Proof.
  intros data v rest H. unfold readVec in H.
  apply bind_inv in H. destruct H as (n & r & Hn & H).
  apply grows_readUint in Hn. apply grows_take in H. cbv beta in *. lia.
Qed.

Lemma grows_readVec_item (w : nat) :
  grows 0 (fun v : bytes => S (List.length v)) (readVec (S w)).
Proof.
  intros data v rest H. unfold readVec in H.
  apply bind_inv in H. destruct H as (n & r & Hn & H).
  apply readUint_exact in Hn. apply grows_take in H. cbv beta in *. lia.
Qed.

Lemma grows_readByte : grows 0 (fun _ : byte => 0%nat) readByte.
Proof.
  intros data b rest H. unfold readByte in H.
  apply bind_inv in H. destruct H as (bs & r & Ht & H).
  apply grows_take in Ht.
  destruct bs as [|b0 [|b1 bs]]; try discriminate.
  unfold ret in H. injection H as _ <-. cbv beta. lia.
Qed.

Lemma grows_remaining : grows 0 (@List.length byte) remaining.
Proof. intros data v rest [= <- <-]. cbn. lia. Qed.

Lemma list_sum_cons (x : nat) (l : list nat) : list_sum (x :: l) = (x + list_sum l)%nat.
Proof. reflexivity. Qed.

Lemma complete_size {A} (size : A -> nat) (p : parser A) (data : bytes) (a : A) :
  grows 0 size p -> complete p data = Ok a -> (size a <= List.length data)%nat.
Proof.
  intros Hp H. apply complete_inv in H. apply Hp in H. cbn in H. lia.
Qed.

Lemma many_size {A} (size : A -> nat) (p : parser A) (fuel : nat) (data : bytes)
    (xs : list A) :
  grows 0 size p ->
  many fuel p data = Ok xs ->
  (list_sum (map size xs) <= List.length data)%nat.
Proof.
  intros Hp. revert data xs.
  induction fuel as [|fuel IH]; intros [|b data] xs H; cbn in H;
    try discriminate; try (injection H as <-; cbn; lia).
  destruct (p (b :: data)) as [[x rest]| |] eqn:E; try discriminate.
  apply andThen_inv in H. destruct H as (xs' & Hm & H). injection H as <-.
  apply Hp in E. apply IH in Hm. cbn [map List.length] in *.
  rewrite list_sum_cons. lia.
Qed.

Lemma parseAll_size {A} (size : A -> nat) (p : parser A) (block : bytes) (xs : list A) :
  grows 0 size p ->
  parseAll p block = Ok xs ->
  (list_sum (map size xs) <= List.length block)%nat.
Proof. intros Hp H. now apply (many_size size p _ _ _ Hp H). Qed.

Lemma list_sum_const {A} (c : nat) (xs : list A) :
  list_sum (map (fun _ => c) xs) = (c * List.length xs)%nat.
Proof.
  induction xs as [|x xs IH]; [cbn; lia|].
  cbn [map List.length]. rewrite list_sum_cons. lia.
Qed.

Lemma grows_readUint2_width : grows 0 (fun _ : N => 2%nat) (readUint 2).
Proof. intros data n rest H. apply readUint_exact in H. cbv beta. lia. Qed.

Lemma grows_readUint16s :
  grows 0 (fun ids : list N => (2 * List.length ids)%nat) readUint16s.
Proof.
  intros data ids rest H. unfold readUint16s in H.
  apply bind_inv in H. destruct H as (block & r & Hb & H).
  apply lift_inv in H. destruct H as [H ->].
  apply grows_readVec in Hb.
  apply (parseAll_size _ _ _ _ grows_readUint2_width) in H.
  rewrite list_sum_const in H. cbv beta. lia.
Qed.

Lemma grows_readVecs (w : nat) : grows 0 itemsSize (readVecs (S w)).
Proof.
  intros data items rest H. unfold readVecs in H.
  apply bind_inv in H. destruct H as (block & r & Hb & H).
  apply lift_inv in H. destruct H as [H ->].
  apply grows_readVec in Hb.
  apply (parseAll_size _ _ _ _ (grows_readVec_item w)) in H.
  unfold itemsSize. lia.
Qed.

Lemma length_stringOf (b : bytes) : String.length (stringOf b) = List.length b.
Proof. induction b as [|c b IH]; cbn; [reflexivity | now rewrite <- IH]. Qed.

Lemma stringsSize_stringOf (l : list bytes) :
  stringsSize (map stringOf l) = itemsSize l.
Proof.
  unfold stringsSize, itemsSize.
  induction l as [|b l IH]; [reflexivity|].
  cbn [map]. now rewrite !list_sum_cons, length_stringOf, IH.
Qed.

Lemma grows_strictBody : grows 0 (@List.length byte) strictBody.
Proof.
  intros data body rest H. unfold strictBody in H.
  apply bind_inv in H. destruct H as (t & r1 & Ht & H).
  apply bind_inv in H. destruct H as (n & r2 & Hn & H).
  apply bind_inv in H. destruct H as (b & r3 & Hb & H).
  apply bind_inv in H. destruct H as (u & r4 & Hu & H).
  unfold ret in H. injection H as <- <-.
  apply atEnd_inv in Hu. destruct Hu as [-> ->].
  apply grows_take in Ht. apply grows_readUint in Hn. apply grows_take in Hb.
  cbv beta in *. cbn [List.length] in *. lia.
Qed.

Lemma skipHeader_rest (data rest : bytes) (u : unit) :
  skipHeader data = Ok (u, rest) -> (List.length rest <= List.length data)%nat.
Proof.
  intros H. unfold skipHeader in H.
  apply bind_inv in H. destruct H as (h & r & Ht & H).
  unfold ret in H. inversion H; subst. apply grows_take in Ht. lia.
Qed.

(** A parse of a strict variant holds no more than its input. *)
Lemma strict_size {M} (size : M -> nat) (readBody : parser M) (data : bytes) (m : M) :
  grows 0 size readBody ->
  complete (b <- strictBody ;; within readBody b) data = Ok m ->
  (size m <= List.length data)%nat.
Proof.
  intros Hp H. apply complete_inv in H.
  apply bind_inv in H. destruct H as (body & r & Hb & H).
  unfold within in H. apply lift_inv in H. destruct H as [H _].
  apply (complete_size size _ _ _ Hp) in H.
  apply grows_strictBody in Hb. lia.
Qed.

Lemma grows_readExtension :
  grows 0 (fun e : extension => List.length (snd e)) readExtension.
Proof.
  intros data e rest H. unfold readExtension in H.
  apply bind_inv in H. destruct H as (ty & r1 & Hty & H).
  apply bind_inv in H. destruct H as (payload & r2 & Hp & H).
  unfold ret in H. injection H as <- <-. cbn [snd].
  apply grows_readUint in Hty. apply grows_readVec in Hp. cbv beta in *. lia.
Qed.

Lemma grows_readExtensions : grows 0 payloadBytes readExtensions.
Proof.
  intros [|b data] exts rest H; [injection H as <- <-; cbn; lia|].
  unfold readExtensions in H.
  apply bind_inv in H. destruct H as (block & r1 & Hb & H).
  apply bind_inv in H. destruct H as (u & r2 & Hu & H).
  apply atEnd_inv in Hu. destruct Hu as [-> ->].
  apply lift_inv in H. destruct H as [H ->].
  apply grows_readVec in Hb.
  apply (parseAll_size _ _ _ _ grows_readExtension) in H.
  unfold payloadBytes. cbn [List.length] in *. lia.
Qed.

Lemma foldResult_size {S E} (size : S -> nat) (cost : E -> nat)
    (f : S -> E -> result S) (l : list E) (s s' : S) :
  (forall s e s', f s e = Ok s' -> (size s' <= size s + cost e)%nat) ->
  foldResult f l s = Ok s' ->
  (size s' <= size s + list_sum (map cost l))%nat.
Proof.
  intros Hf. revert s. induction l as [|e l IH]; intros s H; cbn in H.
  - injection H as <-. cbn. lia.
  - apply andThen_inv in H. destruct H as (s1 & H1 & H).
    apply Hf in H1. apply IH in H. cbn [map]. rewrite list_sum_cons. lia.
Qed.

Lemma In_list_sum {A} (f : A -> nat) (l : list A) (x : A) :
  In x l -> (f x <= list_sum (map f l))%nat.
Proof.
  induction l as [|y l IH]; [contradiction|].
  cbn [map]. rewrite list_sum_cons. intros [->|Hin]; [lia|].
  specialize (IH Hin). lia.
Qed.

Lemma grows_readServerName :
  grows 0 (fun entry : N * bytes => List.length (snd entry)) ClientHello.readServerName.
Proof.
  intros data e rest H. unfold ClientHello.readServerName in H.
  apply bind_inv in H. destruct H as (ty & r1 & Hty & H).
  apply bind_inv in H. destruct H as (name & r2 & Hn & H).
  unfold ret in H. injection H as <- <-. cbn [snd].
  apply grows_readUint in Hty. apply grows_readVec in Hn. cbv beta in *. lia.
Qed.

Lemma grows_readProtocols : grows 0 itemsSize ClientHello.readProtocols.
Proof.
  intros data items rest H. unfold ClientHello.readProtocols in H.
  apply bind_inv in H. destruct H as (block & r & Hb & H).
  apply lift_inv in H. destruct H as [H ->].
  apply grows_readVec in Hb.
  apply (parseAll_size _ _ _ _ (grows_readVec_item 0)) in H.
  unfold itemsSize. lia.
Qed.

Ltac ch_footprint :=
  unfold ClientHello.footprint;
  cbn [ClientHello.withNextProtoNeg ClientHello.withServerName
       ClientHello.withOcspStapling ClientHello.withSupportedPoints
       ClientHello.withSupportedCurves ClientHello.withSessionTicket
       ClientHello.withSignatureAlgorithms ClientHello.withAlpnProtocols
       ClientHello.withScts ClientHello.withoutExtensions
       ClientHello.random ClientHello.sessionId ClientHello.cipherSuites
       ClientHello.compressionMethods ClientHello.serverName ClientHello.supportedPoints
       ClientHello.supportedCurves ClientHello.sessionTicket
       ClientHello.supportedSignatureAlgorithms ClientHello.alpnProtocols
       map List.length String.length].

Lemma ch_applyExtension_size (m m' : ClientHello.clientHelloMsg) (e : extension) :
  ClientHello.applyExtension m e = Ok m' ->
  (ClientHello.footprint m' <= ClientHello.footprint m + List.length (snd e))%nat.
Proof.
  destruct e as [ty payload]. cbn [snd]. unfold ClientHello.applyExtension.
  repeat match goal with
         | |- context [if (?a =? ?b) then _ else _] => destruct (a =? b)
         end; intros H.
  - destruct payload; [|discriminate]. injection H as <-.
    ch_footprint. lia.
  - apply andThen_inv in H. destruct H as (block & Hb & H).
    apply andThen_inv in H. destruct H as (names & Hn & H).
    apply (complete_size _ _ _ _ (grows_readVec 2)) in Hb.
    apply (parseAll_size _ _ _ _ grows_readServerName) in Hn.
    destruct (find _ names) as [[t name]|] eqn:Ef; injection H as <-.
    + apply find_some in Ef. destruct Ef as [Hin _].
      apply (In_list_sum (fun entry : N * bytes => List.length (snd entry))) in Hin.
      cbn [snd] in Hin.
      ch_footprint. rewrite length_stringOf. lia.
    + lia.
  - destruct payload; injection H as <-; ch_footprint; lia.
  - apply andThen_inv in H. destruct H as (pts & Hp & H). injection H as <-.
    apply (complete_size _ _ _ _ (grows_readVec 1)) in Hp.
    ch_footprint. lia.
  - apply andThen_inv in H. destruct H as (curves & Hc & H). injection H as <-.
    apply (complete_size _ _ _ _ grows_readUint16s) in Hc.
    ch_footprint. lia.
  - injection H as <-. ch_footprint. lia.
  - apply andThen_inv in H. destruct H as (algs & Hc & H). injection H as <-.
    apply (complete_size _ _ _ _ grows_readUint16s) in Hc.
    ch_footprint. lia.
  - apply andThen_inv in H. destruct H as (protos & Hp & H). injection H as <-.
    apply (complete_size _ _ _ _ grows_readProtocols) in Hp.
    ch_footprint.
    rewrite stringsSize_stringOf. lia.
  - destruct payload; [|discriminate]. injection H as <-.
    ch_footprint. lia.
  - injection H as <-. lia.
Qed.

Lemma grows_ch_parse : grows 0 ClientHello.footprint ClientHello.parse.
Proof.
  intros data m rest H. unfold ClientHello.parse in H.
  apply bind_inv in H. destruct H as (u & r0 & H0 & H).
  apply bind_inv in H. destruct H as (v & r1 & H1 & H).
  apply bind_inv in H. destruct H as (r & r2 & H2 & H).
  apply bind_inv in H. destruct H as (s & r3 & H3 & H).
  apply bind_inv in H. destruct H as (cs & r4 & H4 & H).
  apply bind_inv in H. destruct H as (cm & r5 & H5 & H).
  apply bind_inv in H. destruct H as (exts & r6 & H6 & H).
  apply lift_inv in H. destruct H as [H ->].
  apply skipHeader_rest in H0. apply grows_readUint in H1. apply grows_take in H2.
  apply grows_readVec in H3. apply grows_readUint16s in H4. apply grows_readVec in H5.
  apply grows_readExtensions in H6.
  apply (foldResult_size ClientHello.footprint
           (fun e : extension => List.length (snd e))) in H;
    [|intros; now apply ch_applyExtension_size].
  unfold payloadBytes in H6. revert H. ch_footprint.
  change (stringsSize []) with 0%nat. cbv beta in *. lia.
Qed.

Lemma grows_readSCT :
  grows 0 (fun v : bytes => S (List.length v)) ServerHello.readSCT.
Proof.
  intros data sct rest H. unfold ServerHello.readSCT in H.
  apply bind_inv in H. destruct H as (v & r & Hv & H).
  apply grows_readVec_item in Hv.
  destruct v; [discriminate|]. unfold ret in H. injection H as <- <-. exact Hv.
Qed.

Lemma grows_readSCTs : grows 0 itemsSize ServerHello.readSCTs.
Proof.
  intros data items rest H. unfold ServerHello.readSCTs in H.
  apply bind_inv in H. destruct H as (block & r & Hb & H).
  apply grows_readVec in Hb.
  destruct block as [|b block]; [discriminate|].
  apply lift_inv in H. destruct H as [H ->].
  apply (parseAll_size _ _ _ _ grows_readSCT) in H. unfold itemsSize. lia.
Qed.

Lemma grows_readAlpnProtocol : grows 0 (@List.length byte) ServerHello.readAlpnProtocol.
Proof.
  intros data proto rest H. unfold ServerHello.readAlpnProtocol in H.
  apply bind_inv in H. destruct H as (block & r & Hb & H).
  apply grows_readVec in Hb.
  unfold within in H. apply lift_inv in H. destruct H as [H ->].
  apply (complete_size _ _ _ _ (grows_readVec 1)) in H. lia.
Qed.

Ltac sh_footprint :=
  unfold ServerHello.footprint;
  cbn [ServerHello.withNextProtos ServerHello.withOcspStapling
       ServerHello.withTicketSupported ServerHello.withAlpnProtocol
       ServerHello.withScts ServerHello.withoutExtensions
       ServerHello.random ServerHello.sessionId ServerHello.nextProtos
       ServerHello.alpnProtocol ServerHello.scts
       map List.length String.length].

Lemma sh_applyExtension_size (m m' : ServerHello.serverHelloMsg) (e : extension) :
  ServerHello.applyExtension m e = Ok m' ->
  (ServerHello.footprint m' <= ServerHello.footprint m + List.length (snd e))%nat.
Proof.
  destruct e as [ty payload]. cbn [snd]. unfold ServerHello.applyExtension.
  repeat match goal with
         | |- context [if (?a =? ?b) then _ else _] => destruct (a =? b)
         end; intros H.
  - apply andThen_inv in H. destruct H as (protos & Hp & H). injection H as <-.
    apply (parseAll_size _ _ _ _ (grows_readVec_item 0)) in Hp.
    sh_footprint.
    rewrite stringsSize_stringOf. unfold itemsSize. lia.
  - destruct payload; [|discriminate]. injection H as <-.
    sh_footprint. lia.
  - destruct payload; [|discriminate]. injection H as <-.
    sh_footprint. lia.
  - apply andThen_inv in H. destruct H as (proto & Hp & H). injection H as <-.
    apply (complete_size _ _ _ _ grows_readAlpnProtocol) in Hp.
    sh_footprint.
    rewrite length_stringOf. lia.
  - apply andThen_inv in H. destruct H as (l & Hl & H). injection H as <-.
    apply (complete_size _ _ _ _ grows_readSCTs) in Hl.
    sh_footprint. lia.
  - injection H as <-. lia.
Qed.

Lemma grows_sh_parse : grows 0 ServerHello.footprint ServerHello.parse.
Proof.
  intros data m rest H. unfold ServerHello.parse in H.
  apply bind_inv in H. destruct H as (u & r0 & H0 & H).
  apply bind_inv in H. destruct H as (v & r1 & H1 & H).
  apply bind_inv in H. destruct H as (r & r2 & H2 & H).
  apply bind_inv in H. destruct H as (s & r3 & H3 & H).
  apply bind_inv in H. destruct H as (c & r4 & H4 & H).
  apply bind_inv in H. destruct H as (cm & r5 & H5 & H).
  apply bind_inv in H. destruct H as (exts & r6 & H6 & H).
  apply lift_inv in H. destruct H as [H ->].
  apply skipHeader_rest in H0. apply grows_readUint in H1. apply grows_take in H2.
  apply grows_readVec in H3. apply grows_readUint in H4. apply grows_readByte in H5.
  apply grows_readExtensions in H6.
  apply (foldResult_size ServerHello.footprint
           (fun e : extension => List.length (snd e))) in H;
    [|intros; now apply sh_applyExtension_size].
  unfold payloadBytes in H6. revert H. sh_footprint.
  change (stringsSize []) with 0%nat. change (itemsSize []) with 0%nat.
  cbv beta in *. lia.
Qed.

Lemma grows_certificate_readBody : grows 0 Certificate.footprint Certificate.readBody.
Proof.
  intros data m rest H. unfold Certificate.readBody in H.
  apply bind_inv in H. destruct H as (certs & r & Hc & H).
  unfold ret in H. injection H as <- <-.
  apply grows_readVecs in Hc. exact Hc.
Qed.

Lemma grows_certificateRequest_readBody :
  grows 0 CertificateRequest.footprint CertificateRequest.readBody.
Proof.
  intros data m rest H. unfold CertificateRequest.readBody in H.
  apply bind_inv in H. destruct H as (types & r1 & Ht & H).
  apply bind_inv in H. destruct H as (cas & r2 & Hc & H).
  unfold ret in H. injection H as <- <-.
  apply grows_readVec in Ht. apply grows_readVecs in Hc.
  unfold CertificateRequest.footprint.
  cbn [CertificateRequest.certificateTypes CertificateRequest.certificateAuthorities].
  cbv beta in *. lia.
Qed.

Lemma grows_certificateVerify_readBody :
  grows 0 CertificateVerify.footprint CertificateVerify.readBody.
Proof.
  intros data m rest H. unfold CertificateVerify.readBody in H.
  apply bind_inv in H. destruct H as (sig & r & Hs & H).
  unfold ret in H. injection H as <- <-.
  apply grows_readVec in Hs. exact Hs.
Qed.

Lemma grows_certificateStatus_readBody :
  grows 0 CertificateStatus.footprint CertificateStatus.readBody.
Proof.
  intros data m rest H. unfold CertificateStatus.readBody in H.
  apply bind_inv in H. destruct H as (st & r1 & Hst & H).
  apply grows_readByte in Hst. cbv beta in Hst.
  destruct (byteEqb st statusTypeOCSP).
  - apply bind_inv in H. destruct H as (resp & r2 & Hr & H).
    unfold ret in H. injection H as <- <-.
    apply grows_readVec in Hr.
    unfold CertificateStatus.footprint. cbn [CertificateStatus.response]. lia.
  - unfold ret in H. injection H as <- <-.
    unfold CertificateStatus.footprint. cbn [CertificateStatus.response List.length]. lia.
Qed.

Lemma grows_clientKeyExchange_readBody :
  grows 0 ClientKeyExchange.footprint ClientKeyExchange.readBody.
Proof.
  intros data m rest H. unfold ClientKeyExchange.readBody in H.
  apply bind_inv in H. destruct H as (c & r & Hc & H).
  unfold ret in H. injection H as <- <-.
  apply grows_remaining in Hc. exact Hc.
Qed.

Lemma grows_nextProto_readBody : grows 0 NextProto.footprint NextProto.readBody.
Proof.
  intros data m rest H. unfold NextProto.readBody in H.
  apply bind_inv in H. destruct H as (p & r1 & Hp & H).
  apply bind_inv in H. destruct H as (pad & r2 & Hpad & H).
  unfold ret in H. injection H as <- <-.
  apply grows_readVec in Hp. apply grows_readVec in Hpad.
  unfold NextProto.footprint. cbn [NextProto.proto]. rewrite length_stringOf. lia.
Qed.

Lemma grows_newSessionTicket_readBody :
  grows 0 NewSessionTicket.footprint NewSessionTicket.readBody.
Proof.
  intros data m rest H. unfold NewSessionTicket.readBody in H.
  apply bind_inv in H. destruct H as (hint & r1 & Hh & H).
  apply bind_inv in H. destruct H as (t & r2 & Ht & H).
  unfold ret in H. injection H as <- <-.
  apply grows_take in Hh. apply grows_readVec in Ht.
  unfold NewSessionTicket.footprint. cbn [NewSessionTicket.ticket]. lia.
Qed.

Lemma grows_sessionState_readBody : grows 0 SessionState.footprint SessionState.readBody.
Proof.
  intros data s rest H. unfold SessionState.readBody in H.
  apply bind_inv in H. destruct H as (v & r1 & Hv & H).
  apply bind_inv in H. destruct H as (c & r2 & Hc & H).
  apply bind_inv in H. destruct H as (ms & r3 & Hms & H).
  apply bind_inv in H. destruct H as (certs & r4 & Hcerts & H).
  unfold ret in H. injection H as <- <-.
  apply grows_readUint in Hv. apply grows_readUint in Hc.
  apply grows_readVec in Hms. apply grows_readVecs in Hcerts.
  unfold SessionState.footprint.
  cbn [SessionState.masterSecret SessionState.certificates]. cbv beta in *. lia.
Qed.

Lemma finished_size (data : bytes) (m : Finished.finishedMsg) :
  Finished.unmarshal data = Ok m -> (Finished.footprint m <= List.length data)%nat.
Proof.
  intros H. unfold Finished.unmarshal in H. apply complete_inv in H.
  unfold Finished.parse in H.
  apply bind_inv in H. destruct H as (u & r0 & H0 & H).
  apply bind_inv in H. destruct H as (v & r1 & H1 & H).
  unfold ret in H. injection H as <- _.
  apply skipHeader_rest in H0. apply grows_remaining in H1.
  unfold Finished.footprint. cbn [Finished.verifyData]. lia.
Qed.

(** Whatever parses holds no more bytes than the input had. *)
Lemma decode_size (v : variant) (data : bytes) (m : message) :
  decode v data = Ok m -> (footprint m <= List.length data)%nat.
Proof.
  destruct v; cbn [decode]; intros H; apply mapResult_inv in H;
    destruct H as (x & H & ->); cbn [footprint].
  - apply (complete_size _ _ _ _ grows_ch_parse H).
  - apply (complete_size _ _ _ _ grows_sh_parse H).
  - now apply finished_size.
  - apply (strict_size _ _ _ _ grows_certificate_readBody H).
  - apply (strict_size _ _ _ _ grows_certificateRequest_readBody H).
  - apply (strict_size _ _ _ _ grows_certificateVerify_readBody H).
  - apply (strict_size _ _ _ _ grows_certificateStatus_readBody H).
  - apply (strict_size _ _ _ _ grows_clientKeyExchange_readBody H).
  - apply (strict_size _ _ _ _ grows_nextProto_readBody H).
  - apply (strict_size _ _ _ _ grows_newSessionTicket_readBody H).
  - apply (strict_size _ _ _ _ grows_sessionState_readBody H).
Qed.

Lemma decode_variant (v : variant) (data : bytes) (m : message) :
  decode v data = Ok m -> variantOf m = v.
Proof.
  destruct v; cbn [decode]; intros H; apply mapResult_inv in H;
    destruct H as (x & _ & ->); reflexivity.
Qed.

(** C3: for every variant, [unmarshal] answers every byte sequence, the
    empty one included, with the failure signal or with a message, never
    with a fault of the buffer accesses; and a message it returns is of the
    variant asked for, keeps the input as its cache and holds, in its
    variable-length fields, no more bytes and list entries than the input
    had bytes, whatever lengths the input announces. *)
Theorem unmarshal_total_and_bounded :
  forall (v : variant) (data : bytes),
    unmarshal v data <> Abort /\
    (unmarshal v data = Failure \/
     exists m,
       unmarshal v data = Ok m /\
       raw m = Some data /\
       variantOf (fields m) = v /\
       (footprint (fields m) <= List.length data)%nat) /\
    unmarshal v [] = Failure.
Proof.
  intros v data. split; [|split].
  - unfold unmarshal. apply mapResult_no_abort, decode_no_abort.
  - unfold unmarshal. pose proof (decode_no_abort v data) as Hsafe.
    destruct (decode v data) as [m| |] eqn:E; cbn.
    + right. eexists. split; [reflexivity|]. cbn [raw fields].
      split; [reflexivity|]. split; [now apply decode_variant in E|].
      now apply decode_size in E.
    + now left.
    + contradiction.
  - destruct v; reflexivity.
Qed.

(** Length fields that announce more than the input has are failures. *)
Example unmarshal_overlong_lengths :
  unmarshal vCertificate [x0b; xff; xff; xff; x00] = Failure /\
  unmarshal vCertificate [x0b; x00; x00; x03; xff; xff; xff] = Failure /\
  unmarshal vClientHello
    ([x01; x00; x00; x00; x03; x03] ++ zeroRandom ++ [xff; x00]) = Failure /\
  unmarshal vSessionState [x00; x00; x00; x06; x03; x03; x00; x05; xff; xff] = Failure.
Proof. repeat split. Qed.

(** TestRejectEmptySCTList, step by step: the marshaled ServerHello with
    the sample SCT parses; the test's surgery on its bytes yields the
    encoding whose SCT extension announces an empty list; that encoding
    fails to parse. *)
Example TestRejectEmptySCTList :
  (exists m, unmarshal vServerHello
               (ServerHello.marshal x02 (sctServerHello [sampleSCT])) = Ok m) /\
  Index (ServerHello.marshal x02 (sctServerHello [sampleSCT])) sampleSCT = Some 52%nat /\
  emptySCTListSurgery (ServerHello.marshal x02 (sctServerHello [sampleSCT])) sampleSCT
  = Some (serverHelloWith x02 (sctServerHello [sampleSCT]) [sctExtension []]) /\
  unmarshal vServerHello
    (serverHelloWith x02 (sctServerHello [sampleSCT]) [sctExtension []]) = Failure.
Proof.
  split; [eexists; vm_compute; reflexivity|].
  repeat split; vm_compute; reflexivity.
Qed.

(* ================================================================== *)
(** * Part V.  Further properties of the policy layer                  *)
(* ================================================================== *)

Lemma filter_allowedIn_In (table configured : list uint16) (id : uint16) :
  In id (filter (allowedIn table) configured) <-> In id configured /\ In id table.
Proof. rewrite filter_In. now rewrite allowedIn_In. Qed.

Lemma restrict_loop_nil (table configured : list uint16) :
  fold_left (fun list id => appendIfAllowed id table list) configured None = None <->
  filter (allowedIn table) configured = [].
Proof.
  assert (Hsome : forall l acc,
             fold_left (fun list id => appendIfAllowed id table list) l (Some acc) <> None).
  { induction l as [|id l IH]; intros acc; cbn [fold_left]; [discriminate|].
    rewrite appendIfAllowed_spec. destruct (allowedIn table id); apply IH. }
  induction configured as [|id l IH]; cbn [fold_left filter]; [tauto|].
  rewrite appendIfAllowed_spec. destruct (allowedIn table id).
  - unfold append. split; [intros H; now apply Hsome in H | discriminate].
  - exact IH.
Qed.

(** X1: whatever the configuration, nil included, every curve that
    fipsCurvePreferences returns is in the FIPS allow-list. *)
Theorem fipsCurvePreferences_within_allow_list :
  forall (c : option Config) (id : CurveID),
    In id (elems (fipsCurvePreferences c)) -> In id defaultFIPSCurvePreferences.
Proof.
  intros [cfg|] id; [|exact (fun H => H)].
  unfold fipsCurvePreferences.
  destruct (Nat.eqb (len (CurvePreferences cfg)) 0); [exact (fun H => H)|].
  rewrite restrict_loop_elems. cbn [elems app].
  intros H. now apply filter_allowedIn_In in H.
Qed.

Lemma fipsCurvePreferences_within_allow_list_witness :
  In CurveP384
     (elems (fipsCurvePreferences
               (Some (configOf (Some [29; CurveP384; 30]) None)))) /\
  In CurveP384 defaultFIPSCurvePreferences.
Proof.
  assert (H : In CurveP384
     (elems (fipsCurvePreferences
               (Some (configOf (Some [29; CurveP384; 30]) None)))))
    by (vm_compute; auto).
  split; [exact H|].
  exact (fipsCurvePreferences_within_allow_list _ _ H).
Defined.

(** X2: whatever the configuration, nil included, every cipher suite that
    fipsCipherSuites returns is in the FIPS allow-list. *)
Theorem fipsCipherSuites_within_allow_list :
  forall (c : option Config) (id : uint16),
    In id (elems (fipsCipherSuites c)) -> In id defaultFIPSCipherSuites.
Proof.
  intros [cfg|] id; [|exact (fun H => H)].
  unfold fipsCipherSuites.
  destruct (isNil (CipherSuites cfg)); [exact (fun H => H)|].
  rewrite restrict_loop_elems. cbn [elems app].
  intros H. now apply filter_allowedIn_In in H.
Qed.

Lemma fipsCipherSuites_within_allow_list_witness :
  In TLS_RSA_WITH_AES_256_GCM_SHA384
     (elems (fipsCipherSuites
               (Some (configOf None (Some [0x0005; TLS_RSA_WITH_AES_256_GCM_SHA384]))))) /\
  In TLS_RSA_WITH_AES_256_GCM_SHA384 defaultFIPSCipherSuites.
Proof.
  assert (H : In TLS_RSA_WITH_AES_256_GCM_SHA384
     (elems (fipsCipherSuites
               (Some (configOf None (Some [0x0005; TLS_RSA_WITH_AES_256_GCM_SHA384]))))))
    by (vm_compute; auto).
  split; [exact H|].
  exact (fipsCipherSuites_within_allow_list _ _ H).
Defined.

Lemma count_occ_filter_allowed (table l : list uint16) (id : uint16) :
  count_occ N.eq_dec (filter (allowedIn table) l) id =
  if allowedIn table id then count_occ N.eq_dec l id else 0%nat.
Proof.
  induction l as [|x l IH]; cbn [filter count_occ].
  - now destruct (allowedIn table id).
  - destruct (allowedIn table x) eqn:Ex; cbn [count_occ];
      destruct (N.eq_dec x id) as [->|Hne]; rewrite IH.
    + now rewrite Ex.
    + reflexivity.
    + now rewrite Ex.
    + reflexivity.
Qed.

(** X3: when a list is configured (a curve list that is not empty, a
    cipher-suite list that is not nil), the filters keep every allowed
    entry as many times as the caller listed it, and drop every other
    entry; in particular they never lengthen the list. *)
Theorem fips_filters_keep_multiplicity :
  (forall (cfg : Config) (id : CurveID),
      len (CurvePreferences cfg) <> 0%nat ->
      count_occ N.eq_dec (elems (fipsCurvePreferences (Some cfg))) id =
      (if allowedIn defaultFIPSCurvePreferences id
       then count_occ N.eq_dec (elems (CurvePreferences cfg)) id else 0%nat) /\
      (List.length (elems (fipsCurvePreferences (Some cfg)))
       <= len (CurvePreferences cfg))%nat) /\
  (forall (cfg : Config) (id : uint16),
      CipherSuites cfg <> None ->
      count_occ N.eq_dec (elems (fipsCipherSuites (Some cfg))) id =
      (if allowedIn defaultFIPSCipherSuites id
       then count_occ N.eq_dec (elems (CipherSuites cfg)) id else 0%nat) /\
      (List.length (elems (fipsCipherSuites (Some cfg)))
       <= len (CipherSuites cfg))%nat).
Proof.
  split; intros cfg id Hcfg.
  - unfold fipsCurvePreferences.
    destruct (Nat.eqb_spec (len (CurvePreferences cfg)) 0) as [E|_]; [contradiction|].
    rewrite restrict_loop_elems. cbn [elems app].
    split; [apply count_occ_filter_allowed | apply filter_length_le].
  - unfold fipsCipherSuites.
    destruct (CipherSuites cfg) as [l|]; [|contradiction]. cbn [isNil].
    rewrite restrict_loop_elems. cbn [elems app].
    split; [apply count_occ_filter_allowed | apply filter_length_le].
Qed.

Lemma fips_filters_keep_multiplicity_witness :
  len (CurvePreferences (configOf (Some [CurveP521; 29; CurveP256; CurveP521]) None))
  <> 0%nat /\
  count_occ N.eq_dec
    (elems (fipsCurvePreferences
              (Some (configOf (Some [CurveP521; 29; CurveP256; CurveP521]) None))))
    CurveP521 = 2%nat.
Proof.
  assert (H : len (CurvePreferences
                     (configOf (Some [CurveP521; 29; CurveP256; CurveP521]) None))
              <> 0%nat) by discriminate.
  split; [exact H|].
  exact (proj1 (proj1 fips_filters_keep_multiplicity
                  (configOf (Some [CurveP521; 29; CurveP256; CurveP521]) None)
                  CurveP521 H)).
Defined.

(** X4: with a non-nil cipher-suite list configured, fipsCipherSuites
    answers the nil slice exactly when no configured suite is allowed;
    with a non-empty curve list configured, fipsCurvePreferences answers
    the nil slice exactly when no configured curve is allowed.  In every
    other case the answer is a non-nil slice. *)
Theorem fips_filters_nil_answer :
  (forall (cfg : Config) (configured : list uint16),
      CipherSuites cfg = Some configured ->
      (fipsCipherSuites (Some cfg) = None <->
       Forall (fun id => ~ In id defaultFIPSCipherSuites) configured)) /\
  (forall (cfg : Config),
      len (CurvePreferences cfg) <> 0%nat ->
      (fipsCurvePreferences (Some cfg) = None <->
       Forall (fun id => ~ In id defaultFIPSCurvePreferences)
              (elems (CurvePreferences cfg)))) /\
  fipsCipherSuites None <> None /\
  fipsCurvePreferences None <> None /\
  (forall cfg, CipherSuites cfg = None -> fipsCipherSuites (Some cfg) <> None) /\
  (forall cfg, len (CurvePreferences cfg) = 0%nat ->
               fipsCurvePreferences (Some cfg) <> None).
Proof.
  assert (Hnone : forall table l,
             filter (allowedIn table) l = [] <-> Forall (fun id => ~ In id table) l).
  { intros table l. rewrite Forall_forall. split.
    - intros H id Hin Ht.
      assert (Hf : In id (filter (allowedIn table) l))
        by (apply filter_allowedIn_In; auto).
      rewrite H in Hf. contradiction.
    - intros H. destruct (filter (allowedIn table) l) as [|id rest] eqn:E; [reflexivity|].
      assert (Hf : In id (filter (allowedIn table) l)) by (rewrite E; now left).
      apply filter_allowedIn_In in Hf. destruct Hf as [Hin Ht].
      exfalso. exact (H id Hin Ht). }
  split; [|split; [|split; [|split; [|split]]]]; try discriminate.
  - intros cfg configured Hcfg. unfold fipsCipherSuites. rewrite Hcfg.
    cbn [isNil elems]. rewrite restrict_loop_nil. apply Hnone.
  - intros cfg Hcfg. unfold fipsCurvePreferences.
    destruct (Nat.eqb_spec (len (CurvePreferences cfg)) 0) as [E|_]; [contradiction|].
    rewrite restrict_loop_nil. apply Hnone.
  - intros cfg H. unfold fipsCipherSuites. rewrite H. discriminate.
  - intros cfg H. unfold fipsCurvePreferences. rewrite H. discriminate.
Qed.

Lemma fips_filters_nil_answer_witness :
  CipherSuites (configOf None (Some [0x0005; 0x000a])) = Some [0x0005; 0x000a] /\
  Forall (fun id => ~ In id defaultFIPSCipherSuites) [0x0005; 0x000a] /\
  fipsCipherSuites (Some (configOf None (Some [0x0005; 0x000a]))) = None.
Proof.
  assert (H : Forall (fun id => ~ In id defaultFIPSCipherSuites) [0x0005; 0x000a]).
  { repeat constructor; intros Hin; cbn in Hin;
      repeat (destruct Hin as [Hin|Hin]; [discriminate|]); contradiction. }
  split; [reflexivity|]. split; [exact H|].
  exact (proj2 (proj1 fips_filters_nil_answer
                  (configOf None (Some [0x0005; 0x000a])) [0x0005; 0x000a] eq_refl) H).
Defined.

Lemma filter_allowedIn_idem (table l : list uint16) :
  filter (allowedIn table) (filter (allowedIn table) l) = filter (allowedIn table) l.
Proof.
  induction l as [|x l IH]; [reflexivity|]. cbn [filter].
  destruct (allowedIn table x) eqn:E; [|exact IH].
  cbn [filter]. now rewrite E, IH.
Qed.

(** X5: storing the answer of fipsCurvePreferences back as the configured
    curve list and filtering again gives the same curves, except when the
    answer was empty: the second pass then falls back to the whole
    allow-list. *)
Theorem fipsCurvePreferences_refiltered :
  forall (cfg : Config),
    elems (fipsCurvePreferences
             (Some (withCurvePreferences cfg (fipsCurvePreferences (Some cfg))))) =
    match elems (fipsCurvePreferences (Some cfg)) with
    | [] => defaultFIPSCurvePreferences
    | answer => answer
    end.
Proof.
  intros cfg.
  remember (fipsCurvePreferences (Some cfg)) as r eqn:Er.
  unfold fipsCurvePreferences at 1. cbn [withCurvePreferences CurvePreferences].
  unfold len. destruct (elems r) as [|x rest] eqn:E; [reflexivity|].
  cbn [List.length Nat.eqb]. rewrite restrict_loop_elems. cbn [elems app].
  rewrite <- E. rewrite Er. unfold fipsCurvePreferences.
  destruct (Nat.eqb (len (CurvePreferences cfg)) 0); [reflexivity|].
  rewrite restrict_loop_elems. cbn [elems app]. apply filter_allowedIn_idem.
Qed.

(** X6: storing the answer of fipsCipherSuites back as the configured
    cipher-suite list and filtering again gives the same suites, except
    when the answer was nil (no configured suite allowed): the second pass
    then falls back to the whole allow-list. *)
Theorem fipsCipherSuites_refiltered :
  forall (cfg : Config),
    elems (fipsCipherSuites
             (Some (withCipherSuites cfg (fipsCipherSuites (Some cfg))))) =
    match fipsCipherSuites (Some cfg) with
    | None => defaultFIPSCipherSuites
    | Some answer => answer
    end.
Proof.
  intros cfg.
  remember (fipsCipherSuites (Some cfg)) as r eqn:Er.
  unfold fipsCipherSuites at 1. cbn [withCipherSuites CipherSuites].
  destruct r as [answer|]; [|reflexivity].
  cbn [isNil]. rewrite restrict_loop_elems. cbn [elems app].
  assert (Ha : answer = elems (fipsCipherSuites (Some cfg))) by now rewrite <- Er.
  rewrite Ha. unfold fipsCipherSuites.
  destruct (isNil (CipherSuites cfg)); [reflexivity|].
  rewrite restrict_loop_elems. cbn [elems app]. apply filter_allowedIn_idem.
Qed.

(** The fallback of the second pass, on a configuration that allows
    nothing. *)
Example refiltering_an_empty_answer :
  elems (fipsCipherSuites (Some (configOf None (Some [0x0005])))) = [] /\
  elems (fipsCipherSuites
           (Some (withCipherSuites (configOf None (Some [0x0005]))
                    (fipsCipherSuites (Some (configOf None (Some [0x0005]))))))) =
  defaultFIPSCipherSuites.
Proof. split; reflexivity. Qed.

Lemma BitLen_abs (n : Z) : BitLen n = BitLen (Z.abs n).
Proof. now destruct n. Qed.

Lemma BitLen_iff (n b : Z) :
  (0 < b)%Z -> BitLen n = b <-> (2 ^ (b - 1) <= Z.abs n < 2 ^ b)%Z.
Proof.
  intros Hb. rewrite BitLen_abs.
  destruct (Z.eq_dec (Z.abs n) 0) as [E|E].
  - rewrite E. cbn [BitLen]. split; [lia|].
    intros [H _]. assert (0 < 2 ^ (b - 1))%Z by (apply Z.pow_pos_nonneg; lia). lia.
  - assert (Hpos : (0 < Z.abs n)%Z) by lia.
    pose proof (BitLen_bounds _ Hpos) as [Hlo Hhi].
    assert (HL : (0 < BitLen (Z.abs n))%Z).
    { destruct (Z.abs n); try lia. cbn. lia. }
    split.
    + intros <-. split; assumption.
    + intros [Hlo' Hhi'].
      assert (H1 : (b - 1 < BitLen (Z.abs n))%Z).
      { apply (Z.pow_lt_mono_r_iff 2); lia. }
      assert (H2 : (BitLen (Z.abs n) - 1 < b)%Z).
      { apply (Z.pow_lt_mono_r_iff 2); lia. }
      lia.
Qed.

(** X7: in FIPS mode a certificate with an RSA key passes exactly when the
    absolute value of its modulus lies in [2^2047, 2^2048) or in
    [2^3071, 2^3072): a modulus of 2047 or 2049 bits is refused, and so
    is the zero modulus. *)
Theorem isBoringCertificate_rsa_modulus_range :
  forall (c : Certificate) (k : rsaPublicKey),
    PublicKey c = RSAKey k ->
    (isBoringCertificate true c = true <->
     (2 ^ 2047 <= Z.abs (rsaN k) < 2 ^ 2048)%Z \/
     (2 ^ 3071 <= Z.abs (rsaN k) < 2 ^ 3072)%Z).
Proof.
  intros c k Hk.
  change 2047%Z with (2048 - 1)%Z. change 3071%Z with (3072 - 1)%Z.
  rewrite <- !BitLen_iff by lia.
  unfold isBoringCertificate. rewrite Hk. cbn [negb].
  destruct (Z.eqb_spec (BitLen (rsaN k)) 2048) as [E1|E1];
    destruct (Z.eqb_spec (BitLen (rsaN k)) 3072) as [E2|E2]; cbn [negb andb];
    split; intros H; try reflexivity; try discriminate; try tauto.
Qed.

Lemma isBoringCertificate_rsa_modulus_range_witness :
  PublicKey (certificateWithKey (rsaKeyOfModulus (2 ^ 2048 - 1)))
  = RSAKey {| rsaN := 2 ^ 2048 - 1; rsaE := 65537 |} /\
  isBoringCertificate true (certificateWithKey (rsaKeyOfModulus (2 ^ 2048 - 1))) = true.
Proof.
  split; [reflexivity|].
  apply (proj2 (isBoringCertificate_rsa_modulus_range
                  (certificateWithKey (rsaKeyOfModulus (2 ^ 2048 - 1)))
                  {| rsaN := 2 ^ 2048 - 1; rsaE := 65537 |} eq_refl)).
  left. vm_compute. split; [intros H; discriminate H | reflexivity].
Defined.

(** ** The older table cut *)

Lemma firstSHA1_shift (all : list Legacy.signatureAndHash) (i : nat) :
  Legacy.firstSHA1 all i = (i + Legacy.firstSHA1 all 0)%nat.
Proof.
  revert i. induction all as [|sh all IH]; intros i; cbn [Legacy.firstSHA1]; [lia|].
  destruct (negb (Legacy.hash sh =? hashSHA1)); [|lia].
  rewrite (IH (S i)), (IH 1%nat). lia.
Qed.

Lemma legacy_cut_clean (pre : list Legacy.signatureAndHash) :
  Forall (fun sh => Legacy.hash sh <> hashSHA1) pre ->
  forall rest, Legacy.firstSHA1 (pre ++ rest) 0
               = (List.length pre + Legacy.firstSHA1 rest 0)%nat.
Proof.
  induction 1 as [|sh pre Hsh Hpre IH]; intros rest; [reflexivity|].
  cbn [app Legacy.firstSHA1 List.length].
  destruct (N.eqb_spec (Legacy.hash sh) hashSHA1) as [E|_]; [contradiction|].
  cbn [negb]. rewrite firstSHA1_shift, IH. lia.
Qed.

Lemma legacy_result_clean (all : list Legacy.signatureAndHash) :
  Forall (fun e => Legacy.hash e <> hashSHA1)
         (Legacy.supportedSignatureAlgorithms true all).
Proof.
  unfold Legacy.supportedSignatureAlgorithms. cbn [negb].
  induction all as [|sh all IH]; cbn [Legacy.firstSHA1 firstn]; [constructor|].
  destruct (N.eqb_spec (Legacy.hash sh) hashSHA1) as [E|E]; cbn [negb firstn];
    [constructor|].
  rewrite firstSHA1_shift. cbn [Nat.add firstn]. constructor; assumption.
Qed.

Lemma legacy_clean_whole (all : list Legacy.signatureAndHash) :
  Forall (fun e => Legacy.hash e <> hashSHA1) all ->
  Legacy.supportedSignatureAlgorithms true all = all.
Proof.
  intros H. unfold Legacy.supportedSignatureAlgorithms. cbn [negb].
  pose proof (legacy_cut_clean all H []) as E. rewrite app_nil_r in E.
  rewrite E. cbn [Legacy.firstSHA1]. rewrite Nat.add_0_r. apply firstn_all.
Qed.

(** X8: the older FIPS cut is stable: applied to its own answer it changes
    nothing; and it returns the whole default table exactly when the table
    has no SHA-1 entry. *)
Theorem legacy_supportedSignatureAlgorithms_stable :
  forall all : list Legacy.signatureAndHash,
    Legacy.supportedSignatureAlgorithms true
      (Legacy.supportedSignatureAlgorithms true all)
    = Legacy.supportedSignatureAlgorithms true all /\
    (Legacy.supportedSignatureAlgorithms true all = all <->
     Forall (fun e => Legacy.hash e <> hashSHA1) all).
Proof.
  intros all. split.
  - apply legacy_clean_whole, legacy_result_clean.
  - split.
    + intros H. rewrite <- H. apply legacy_result_clean.
    + apply legacy_clean_whole.
Qed.

(** * Part VI.  The generators of the tests *)

(** ** Reasoning about generators *)

Lemma always_ret {A} (a : A) (P : A -> Prop) : P a -> always (genRet a) P.
Proof. intros H r. exact H. Qed.

Lemma always_bind {A B} (g : Gen A) (k : A -> Gen B)
    (P : A -> Prop) (Q : B -> Prop) :
  always g P -> (forall a, P a -> always (k a) Q) -> always (genBind g k) Q.
Proof.
  intros Hg Hk r. unfold genBind. specialize (Hg r).
  destruct (g r) as [a r']. cbn [fst] in Hg. now apply Hk.
Qed.

Lemma always_weaken {A} (g : Gen A) (P Q : A -> Prop) :
  always g P -> (forall a, P a -> Q a) -> always g Q.
Proof. intros Hg HPQ r. apply HPQ, Hg. Qed.

Lemma always_Intn (n : N) : 0 < n -> always (Intn n) (fun x => x < n).
Proof. intros Hn r. cbn. apply N.mod_lt. lia. Qed.

Lemma always_Int31 : always Int31 (fun x => x < 2147483648).
Proof. intros r. cbn. now apply N.mod_lt. Qed.

Lemma always_coin : always coin (fun _ => True).
Proof. intros r. exact I. Qed.

Lemma always_repeatGen {A} (n : nat) (g : Gen A) (P : A -> Prop) :
  always g P ->
  always (repeatGen n g) (fun l => List.length l = n /\ Forall P l).
Proof.
  intros Hg. induction n as [|n IH]; cbn [repeatGen].
  - apply always_ret. now split.
  - eapply always_bind; [exact Hg|]. intros x Hx.
    eapply always_bind; [exact IH|]. intros xs [Hlen Hall].
    apply always_ret. cbn [List.length]. split; [now rewrite Hlen|now constructor].
Qed.

Lemma always_randomBytes (n : N) :
  always (randomBytes n) (fun b => lengthN b = n).
Proof.
  unfold randomBytes, Read.
  eapply always_weaken; [apply always_repeatGen with (P := fun _ => True)|].
  - intros r. exact I.
  - intros b [Hlen _]. unfold lengthN. rewrite Hlen. lia.
Qed.

Lemma always_randomString (n : N) :
  always (randomString n) (fun s => lengthN (bytesOf s) = n).
Proof.
  unfold randomString.
  eapply always_bind; [apply always_randomBytes|]. intros b Hb.
  apply always_ret. now rewrite bytesOf_stringOf.
Qed.

(** ** The loop [for i := 0; i < rand.Intn(n); i++] *)

Lemma appendWhileBelow_always {A} (n : N) (g : Gen A) (P : A -> Prop) :
  0 < n -> always g P ->
  forall (fuel : nat) (i : N) (acc : list A),
    Forall P acc -> lengthN acc = i -> i < n ->
    always (appendWhileBelow fuel n g i acc)
           (fun l => lengthN l < n /\ Forall P l).
Proof.
  intros Hn Hg fuel.
  induction fuel as [|fuel IH]; intros i acc Hacc Hlen Hi; cbn [appendWhileBelow].
  - eapply always_bind; [apply always_Intn, Hn|]. intros d Hd. cbv beta in Hd |- *.
    destruct (i <? d); apply always_ret; (split; [lia|assumption]).
  - eapply always_bind; [apply always_Intn, Hn|]. intros d Hd. cbv beta in Hd |- *.
    destruct (N.ltb_spec i d) as [Hid|Hid].
    + eapply always_bind; [exact Hg|]. intros x Hx.
      apply IH.
      * apply Forall_app. split; [assumption|]. now repeat constructor.
      * rewrite lengthN_app, Hlen. reflexivity.
      * lia.
    + apply always_ret. split; [lia|assumption].
Qed.

Lemma appendWhileBelow_step {A} (fuel : nat) (n : N) (g : Gen A) (i : N)
    (acc : list A) (r : Rand) :
  appendWhileBelow fuel n g i acc r =
  let (d, r1) := Intn n r in
  if i <? d then
    match fuel with
    | O => (acc, r1)
    | S fuel' =>
        let (x, r2) := g r1 in appendWhileBelow fuel' n g (i + 1) (acc ++ [x]) r2
    end
  else (acc, r1).
Proof.
  destruct fuel; cbn [appendWhileBelow]; unfold genBind at 1;
    destruct (Intn n r) as [d r1]; destruct (i <? d); reflexivity.
Qed.

Lemma appendWhileBelow_fuel {A} (n : N) (g : Gen A) :
  0 < n ->
  forall (fuel fuel' : nat) (i : N) (acc : list A) (r : Rand),
    n <= i + N.of_nat fuel -> n <= i + N.of_nat fuel' ->
    appendWhileBelow fuel n g i acc r = appendWhileBelow fuel' n g i acc r.
Proof.
  intros Hn fuel.
  induction fuel as [|fuel IH]; intros fuel' i acc r Hf Hf';
    rewrite (appendWhileBelow_step _ n g i acc r);
    rewrite (appendWhileBelow_step fuel' n g i acc r);
    pose proof (always_Intn n Hn r) as Hd; cbv beta in Hd;
    destruct (Intn n r) as [d r1]; cbn [fst] in Hd;
    destruct (N.ltb_spec i d) as [Hid|Hid]; try reflexivity; try lia.
  destruct fuel' as [|fuel']; [lia|].
  destruct (g r1) as [x r2]. apply IH; lia.
Qed.

(** ** Trailing dots *)

Lemma length_bytesOf (s : string) : List.length (bytesOf s) = String.length s.
Proof. rewrite <- (stringOf_bytesOf s) at 2. now rewrite length_stringOf. Qed.

Lemma HasSuffix_dot (s : string) :
  HasSuffix s "." = true <->
  bytesOf s = firstn (List.length (bytesOf s) - 1) (bytesOf s) ++ ["."%byte].
Proof.
  unfold HasSuffix. change (bytesOf ".") with ["."%byte]. cbn [List.length].
  set (b := bytesOf s). split.
  - intros H. apply andb_true_iff in H. destruct H as [_ H].
    destruct (list_eq_dec Byte.byte_eq_dec _ _) as [E|]; [|discriminate].
    rewrite <- E. now rewrite firstn_skipn.
  - intros H. apply andb_true_iff. split.
    + apply Nat.leb_le. rewrite H, length_app. cbn. lia.
    + destruct (list_eq_dec Byte.byte_eq_dec _ _) as [|E]; [reflexivity|].
      exfalso. apply E.
      remember (List.length b - 1)%nat as k.
      assert (Hfs : firstn k b ++ skipn k b = firstn k b ++ ["."%byte])
        by (rewrite firstn_skipn; exact H).
      now apply app_inv_head in Hfs.
Qed.

Lemma HasSuffix_dot_snoc (b : bytes) (c : byte) :
  HasSuffix (stringOf (b ++ [c])) "." = Byte.eqb c "."%byte.
Proof.
  destruct (Byte.eqb c "."%byte) eqn:E.
  - apply Byte.byte_dec_bl in E. subst c. apply HasSuffix_dot.
    rewrite bytesOf_stringOf, length_app. cbn [List.length].
    replace (List.length b + 1 - 1)%nat with (List.length b) by lia.
    now rewrite firstn_app, firstn_all, Nat.sub_diag, app_nil_r.
  - destruct (HasSuffix (stringOf (b ++ [c])) ".") eqn:H; [|reflexivity].
    apply HasSuffix_dot in H. rewrite bytesOf_stringOf in H.
    rewrite length_app in H. cbn [List.length] in H.
    replace (List.length b + 1 - 1)%nat with (List.length b) in H by lia.
    rewrite firstn_app, firstn_all, Nat.sub_diag, app_nil_r in H.
    apply app_inv_head in H. injection H as ->.
    now rewrite Byte.byte_dec_lb in E.
Qed.

Lemma endsWithDot_stringOf_snoc (b : bytes) (c : byte) :
  ClientHello.endsWithDot (stringOf (b ++ [c])) = Byte.eqb c "."%byte.
Proof.
  induction b as [|a b IH].
  - cbn. destruct c; reflexivity.
  - change (stringOf ((a :: b) ++ [c]))
      with (String (ascii_of_byte a) (stringOf (b ++ [c]))).
    cbn [ClientHello.endsWithDot]. rewrite <- IH.
    destruct (stringOf (b ++ [c])) eqn:E; [|reflexivity].
    apply (f_equal bytesOf) in E. rewrite bytesOf_stringOf in E.
    now destruct b.
Qed.

Lemma endsWithDot_HasSuffix (s : string) :
  ClientHello.endsWithDot s = HasSuffix s ".".
Proof.
  rewrite <- (stringOf_bytesOf s).
  destruct (bytesOf s) as [|a b] using rev_ind; [reflexivity|].
  now rewrite endsWithDot_stringOf_snoc, HasSuffix_dot_snoc.
Qed.

Lemma stripDots_spec (fuel : nat) :
  forall name : string,
    (String.length name <= fuel)%nat ->
    HasSuffix (stripDots fuel name) "." = false /\
    exists k, bytesOf name = bytesOf (stripDots fuel name) ++ repeat "."%byte k.
Proof.
  induction fuel as [|fuel IH]; intros name Hlen.
  - destruct name; [|cbn in Hlen; lia]. split; [reflexivity|now exists 0%nat].
  - cbn [stripDots]. destruct (HasSuffix name ".") eqn:E.
    + apply HasSuffix_dot in E.
      set (name' := stringOf (firstn (List.length (bytesOf name) - 1) (bytesOf name))) in *.
      assert (Hb : bytesOf name' = firstn (List.length (bytesOf name) - 1) (bytesOf name))
        by apply bytesOf_stringOf.
      destruct (IH name') as [Hs [k Hk]].
      { rewrite <- length_bytesOf, Hb, length_firstn, length_bytesOf. lia. }
      split; [exact Hs|]. exists (S k).
      rewrite E, <- Hb, Hk, <- app_assoc. f_equal.
      cbn [repeat]. symmetry. apply repeat_cons.
    + split; [exact E|]. exists 0%nat. cbn. now rewrite app_nil_r.
Qed.

(** X9: the loop that strips the server name, run with any fuel that is at
    least the length of the name, ends because its test fails: the result
    has no trailing dot, and the name is the result followed by dots only. *)
Theorem stripDots_removes_exactly_the_trailing_dots (name : string) (extra : nat) :
  let stripped := stripDots (String.length name + extra) name in
  HasSuffix stripped "." = false /\
  ClientHello.endsWithDot stripped = false /\
  exists k, bytesOf name = bytesOf stripped ++ repeat "."%byte k.
Proof.
  cbv zeta.
  destruct (stripDots_spec (String.length name + extra) name) as [Hs Hk]; [lia|].
  split; [exact Hs|]. split; [|exact Hk].
  now rewrite endsWithDot_HasSuffix.
Qed.

(** X10: the loop [for i := 0; i < rand.Intn(n); i++ { append }] with a
    positive [n] appends fewer than [n] items, each as its generator makes
    them, and stops by its own test: more fuel changes nothing. *)
Theorem appendLoop_appends_fewer_than_n {A} (n : N) (g : Gen A) (P : A -> Prop) :
  0 < n ->
  always g P ->
  always (appendLoop n g) (fun l => lengthN l < n /\ Forall P l) /\
  forall (extra : nat) (r : Rand),
    appendWhileBelow (N.to_nat n + extra) n g 0 [] r = appendLoop n g r.
Proof.
  intros Hn Hg. split.
  - unfold appendLoop. apply appendWhileBelow_always; auto.
  - intros extra r. unfold appendLoop. apply appendWhileBelow_fuel; [assumption|lia|lia].
Qed.

Lemma appendLoop_appends_fewer_than_n_witness :
  always (appendLoop 5 (Intn 20)) (fun l => lengthN l < 5 /\ Forall (fun x => x < 20) l) /\
  forall (extra : nat) (r : Rand),
    appendWhileBelow (N.to_nat 5 + extra) 5 (Intn 20) 0 [] r = appendLoop 5 (Intn 20) r.
Proof.
  apply (appendLoop_appends_fewer_than_n 5 (Intn 20) (fun x => x < 20)).
  - reflexivity.
  - intros r. cbn. now apply N.mod_lt.
Defined.

(** ** The fields of the generated messages *)

Lemma always_generateCipherSuite :
  always generateCipherSuite
         (fun cs => cs < 65536 /\ cs <> ClientHello.scsvRenegotiation).
Proof.
  unfold generateCipherSuite.
  eapply always_bind; [apply always_Int31|]. intros x _.
  apply always_ret. unfold ClientHello.scsvRenegotiation.
  assert (x mod 65536 < 65536) by now apply N.mod_lt.
  destruct (N.eqb_spec (x mod 65536) 255) as [E|E].
  - rewrite E. split; [reflexivity|discriminate].
  - split; assumption.
Qed.

Ltac gen_known :=
  first [ apply always_Intn; reflexivity
        | apply always_Int31
        | apply always_coin
        | apply always_randomBytes
        | apply always_randomString
        | apply always_repeatGen; first [apply always_generateCipherSuite
                                        | apply always_Intn; reflexivity ] ].

Ltac gen_step := eapply always_bind; [gen_known|intros ? ?; cbv beta in *].

Lemma always_generateServerName (named : bool) :
  always (if named
          then genBind (Intn 255) (fun n =>
               genBind (randomString n) (fun name =>
               genRet (stripDots (String.length name) name)))
          else genRet EmptyString)
         (fun s => lengthN (bytesOf s) < 255 /\ HasSuffix s "." = false).
Proof.
  destruct named; [|apply always_ret; split; reflexivity].
  do 2 gen_step. apply always_ret.
  destruct (stripDots_spec (String.length a0) a0 (le_n _)) as [Hs [k Hk]].
  split; [|exact Hs].
  apply (f_equal lengthN) in Hk. rewrite lengthN_app in Hk. lia.
Qed.

Lemma always_generateSessionTicket (ticketSupported : bool) :
  always (if ticketSupported
          then genBind coin (fun filled =>
               if filled : bool
               then genBind (Intn 300) (fun n => randomBytes n)
               else genRet [])
          else genRet [])
         (fun t => (ticketSupported = false -> t = []) /\ lengthN t < 300).
Proof.
  destruct ticketSupported; [|apply always_ret; split; reflexivity].
  gen_step. destruct a.
  - gen_step. eapply always_weaken; [apply always_randomBytes|].
    intros t Ht. cbv beta in Ht. split; [discriminate|lia].
  - apply always_ret. split; [discriminate|reflexivity].
Qed.

Lemma always_alpnProtocols :
  always (appendLoop 5 (genBind (Intn 20) (fun n => randomString (n + 1))))
         (fun l => lengthN l < 5 /\
                   Forall (fun s => 1 <= lengthN (bytesOf s) <= 20) l).
Proof.
  unfold appendLoop. apply appendWhileBelow_always; try reflexivity; [|constructor].
  gen_step. eapply always_weaken; [apply always_randomString|].
  intros s Hs. cbv beta in Hs. lia.
Qed.

Ltac split_hyps :=
  repeat match goal with
         | H : _ /\ _ |- _ => destruct H
         end.

(** Runs the ClientHello generator up to the record it returns, keeping what
    is known of every value drawn on the way. *)
Ltac clientHello_steps :=
  unfold generateClientHello;
  do 10 gen_step;
  (eapply always_bind; [apply always_generateServerName|]);
  intros serverName [Hname Hdot];
  do 6 gen_step;
  (eapply always_bind; [apply always_generateSessionTicket|]);
  intros ticket [Hnone Hticket];
  gen_step;
  (eapply always_bind; [apply always_alpnProtocols|]);
  intros protos [Hcount Hprotos];
  gen_step; apply always_ret;
  cbn [ClientHello.vers ClientHello.random ClientHello.sessionId
       ClientHello.cipherSuites ClientHello.compressionMethods
       ClientHello.nextProtoNeg ClientHello.ocspStapling ClientHello.scts
       ClientHello.serverName ClientHello.supportedPoints
       ClientHello.supportedCurves ClientHello.ticketSupported
       ClientHello.sessionTicket ClientHello.supportedSignatureAlgorithms
       ClientHello.alpnProtocols];
  split_hyps.

(** X11: whatever the random source and the table of signature algorithms,
    the generated ClientHello has a 16-bit version, a 32-byte random, a
    session id under 32 bytes, 1 to 63 cipher suites none of which is the
    renegotiation signalling value, 1 to 63 compression methods, a server
    name under 255 bytes without trailing dot, 1 to 5 point formats, 1 to 5
    curves below 30000, a ticket under 300 bytes and only with ticket
    support, the table or no signature algorithm, and fewer than 5 ALPN
    protocols of 1 to 20 bytes. *)
Theorem generateClientHello_fields (table : list N) :
  always (generateClientHello table) (fun m =>
    ClientHello.vers m < 65536 /\
    lengthN (ClientHello.random m) = 32 /\
    lengthN (ClientHello.sessionId m) < 32 /\
    1 <= lengthN (ClientHello.cipherSuites m) <= 63 /\
    Forall (fun cs => cs < 65536 /\ cs <> ClientHello.scsvRenegotiation)
           (ClientHello.cipherSuites m) /\
    1 <= lengthN (ClientHello.compressionMethods m) <= 63 /\
    lengthN (bytesOf (ClientHello.serverName m)) < 255 /\
    HasSuffix (ClientHello.serverName m) "." = false /\
    1 <= lengthN (ClientHello.supportedPoints m) <= 5 /\
    1 <= lengthN (ClientHello.supportedCurves m) <= 5 /\
    Forall (fun c => c < 30000) (ClientHello.supportedCurves m) /\
    (ClientHello.ticketSupported m = false -> ClientHello.sessionTicket m = []) /\
    lengthN (ClientHello.sessionTicket m) < 300 /\
    (ClientHello.supportedSignatureAlgorithms m = table
     \/ ClientHello.supportedSignatureAlgorithms m = []) /\
    lengthN (ClientHello.alpnProtocols m) < 5 /\
    Forall (fun s => 1 <= lengthN (bytesOf s) <= 20) (ClientHello.alpnProtocols m)).
Proof.
  clientHello_steps.
  unfold lengthN in *.
  repeat split; try assumption; try lia.
  match goal with
  | |- (if ?b then _ else _) = _ \/ _ => destruct b; [now left|now right]
  end.
Qed.

Lemma always_nextProtos (nextProtoNeg : bool) :
  always (if nextProtoNeg then appendLoop 10 (randomString 20) else genRet [])
         (fun l => (nextProtoNeg = false -> l = []) /\ lengthN l < 10 /\
                   Forall (fun s => lengthN (bytesOf s) = 20) l).
Proof.
  destruct nextProtoNeg; [|apply always_ret; repeat split; constructor].
  eapply always_weaken.
  - unfold appendLoop.
    apply appendWhileBelow_always with (P := fun s => lengthN (bytesOf s) = 20);
      try reflexivity; [apply always_randomString|constructor].
  - intros l [Hlen Hall]. repeat split; [discriminate|assumption|assumption].
Qed.

Lemma always_scts :
  always (appendLoop 4 (genBind (Intn 500) (fun n => randomBytes (n + 1))))
         (fun l => lengthN l < 4 /\ Forall (fun sct => 1 <= lengthN sct <= 500) l).
Proof.
  unfold appendLoop. apply appendWhileBelow_always; try reflexivity; [|constructor].
  gen_step. eapply always_weaken; [apply always_randomBytes|].
  intros s Hs. cbv beta in Hs. lia.
Qed.

Ltac serverHello_steps :=
  unfold generateServerHello;
  do 7 gen_step;
  (eapply always_bind; [apply always_nextProtos|]);
  intros protos (Hnone & Hcount & Hprotos);
  do 4 gen_step;
  (eapply always_bind; [apply always_scts|]);
  intros scts [Hscts Hsct];
  apply always_ret;
  cbn [ServerHello.vers ServerHello.random ServerHello.sessionId
       ServerHello.cipherSuite ServerHello.nextProtoNeg ServerHello.nextProtos
       ServerHello.ocspStapling ServerHello.ticketSupported
       ServerHello.alpnProtocol ServerHello.scts];
  split_hyps.

(** X12: whatever the random source, the generated ServerHello has a 16-bit
    version and cipher suite, a 32-byte random, a session id under 32
    bytes, next protocols only together with the negotiation flag (fewer
    than 10, of 20 bytes each), an ALPN protocol of 1 to 32 bytes, and
    fewer than 4 SCTs of 1 to 500 bytes: none is empty. *)
Theorem generateServerHello_fields :
  always generateServerHello (fun m =>
    ServerHello.vers m < 65536 /\
    lengthN (ServerHello.random m) = 32 /\
    lengthN (ServerHello.sessionId m) < 32 /\
    ServerHello.cipherSuite m < 65536 /\
    (ServerHello.nextProtoNeg m = false -> ServerHello.nextProtos m = []) /\
    lengthN (ServerHello.nextProtos m) < 10 /\
    Forall (fun s => lengthN (bytesOf s) = 20) (ServerHello.nextProtos m) /\
    1 <= lengthN (bytesOf (ServerHello.alpnProtocol m)) <= 32 /\
    lengthN (ServerHello.scts m) < 4 /\
    Forall (fun sct => 1 <= lengthN sct <= 500) (ServerHello.scts m)).
Proof.
  serverHello_steps.
  repeat split; try assumption; try lia.
  now apply N.mod_lt.
Qed.

(** X13: the generated CertificateStatus is either an OCSP status with a
    response of 1 to 10 bytes, or a status of type 42 without response. *)
Theorem generateCertificateStatus_cases :
  always generateCertificateStatus (fun m =>
    (CertificateStatus.statusType m = statusTypeOCSP /\
     1 <= lengthN (CertificateStatus.response m) <= 10)
    \/ (CertificateStatus.statusType m = byteOfN 42 /\
        CertificateStatus.statusType m <> statusTypeOCSP /\
        CertificateStatus.response m = [])).
Proof.
  unfold generateCertificateStatus.
  gen_step. destruct a.
  - do 2 gen_step. apply always_ret. left. cbn. split; [reflexivity|lia].
  - apply always_ret. right. cbn. repeat split. discriminate.
Qed.

Lemma always_generateCertificates :
  always generateCertificates
         (fun l => lengthN l < 20 /\ Forall (fun c => 1 <= lengthN c <= 10) l).
Proof.
  unfold generateCertificates. gen_step.
  eapply always_weaken.
  - apply always_repeatGen with (P := fun c : bytes => 1 <= lengthN c <= 10).
    gen_step. eapply always_weaken; [apply always_randomBytes|].
    intros c Hc. cbv beta in Hc. lia.
  - intros l [Hlen Hall]. split; [unfold lengthN; lia|assumption].
Qed.

Lemma always_certificateAuthorities :
  always (appendLoop 100 (genBind (Intn 15) (fun n => randomBytes (n + 1))))
         (fun l => lengthN l < 100 /\ Forall (fun ca => 1 <= lengthN ca <= 15) l).
Proof.
  unfold appendLoop. apply appendWhileBelow_always; try reflexivity; [|constructor].
  gen_step. eapply always_weaken; [apply always_randomBytes|].
  intros s Hs. cbv beta in Hs. lia.
Qed.

(** X14: the sizes of the other generated messages: fewer than 20
    certificates of 1 to 10 bytes; 1 to 5 certificate types and fewer than
    100 authorities of 1 to 15 bytes; a signature of 1 to 15 bytes; a
    ciphertext of 1 to 1000 bytes; 12 bytes of verify data; a protocol
    under 255 bytes; a ticket under 4 bytes; a session state with version
    and cipher suite below 10000, a master secret under 100 bytes and the
    certificates as above. *)
Theorem generated_sizes :
  always generateCertificate (fun m =>
    lengthN (Certificate.certificates m) < 20 /\
    Forall (fun c => 1 <= lengthN c <= 10) (Certificate.certificates m)) /\
  always generateCertificateRequest (fun m =>
    1 <= lengthN (CertificateRequest.certificateTypes m) <= 5 /\
    lengthN (CertificateRequest.certificateAuthorities m) < 100 /\
    Forall (fun ca => 1 <= lengthN ca <= 15)
           (CertificateRequest.certificateAuthorities m)) /\
  always generateCertificateVerify (fun m =>
    1 <= lengthN (CertificateVerify.signature m) <= 15) /\
  always generateClientKeyExchange (fun m =>
    1 <= lengthN (ClientKeyExchange.ciphertext m) <= 1000) /\
  always generateFinished (fun m => lengthN (Finished.verifyData m) = 12) /\
  always generateNextProto (fun m => lengthN (bytesOf (NextProto.proto m)) < 255) /\
  always generateNewSessionTicket (fun m =>
    lengthN (NewSessionTicket.ticket m) < 4) /\
  always generateSessionState (fun s =>
    SessionState.vers s < 10000 /\
    SessionState.cipherSuite s < 10000 /\
    lengthN (SessionState.masterSecret s) < 100 /\
    lengthN (SessionState.certificates s) < 20 /\
    Forall (fun c => 1 <= lengthN c <= 10) (SessionState.certificates s)).
Proof.
  repeat apply conj.
  - unfold generateCertificate.
    eapply always_bind; [apply always_generateCertificates|].
    intros l Hl. now apply always_ret.
  - unfold generateCertificateRequest. do 2 gen_step.
    eapply always_bind; [apply always_certificateAuthorities|].
    intros l [Hl Hall]. apply always_ret. cbn. repeat split; try assumption; lia.
  - unfold generateCertificateVerify. do 2 gen_step. apply always_ret. cbn. lia.
  - unfold generateClientKeyExchange. do 2 gen_step. apply always_ret. cbn. lia.
  - unfold generateFinished. gen_step. now apply always_ret.
  - unfold generateNextProto. do 2 gen_step. apply always_ret.
    cbn [NextProto.proto]. lia.
  - unfold generateNewSessionTicket. do 2 gen_step. apply always_ret. cbn. lia.
  - unfold generateSessionState. do 4 gen_step.
    eapply always_bind; [apply always_generateCertificates|].
    intros l [Hl Hall]. apply always_ret. cbn. repeat split; try assumption; lia.
Qed.

(** ** The generated messages fit the wire format *)

Lemma lengthN_putAll_le {A} (put : A -> bytes) (c : N) (l : list A) :
  Forall (fun x => lengthN (put x) <= c) l ->
  lengthN (putAll put l) <= c * lengthN l.
Proof.
  unfold putAll. induction 1 as [|x l Hx _ IH]; cbn [map List.concat].
  - rewrite lengthN_nil. lia.
  - rewrite lengthN_app, lengthN_cons. lia.
Qed.

Lemma if_le_then (b : bool) (x : N) : (if b then x else 0) <= x.
Proof. destruct b; lia. Qed.

Ltac bound_ifs :=
  repeat match goal with
         | |- context [if ?b then ?x else 0] =>
             let H := fresh "Hif" in
             pose proof (if_le_then b x) as H;
             let v := fresh "v" in
             set (v := if b then x else 0) in *; clearbody v
         end.

Lemma generateClientHello_valid (table : list N) :
  Forall (fun a => a < 65536) table ->
  lengthN table <= 32000 ->
  always (generateClientHello table) ClientHello.valid.
Proof.
  intros Htable Hsize.
  clientHello_steps.
  unfold ClientHello.valid.
  rewrite ch_block_length.
  cbn [ClientHello.vers ClientHello.random ClientHello.sessionId
       ClientHello.cipherSuites ClientHello.compressionMethods
       ClientHello.nextProtoNeg ClientHello.ocspStapling ClientHello.scts
       ClientHello.serverName ClientHello.supportedPoints
       ClientHello.supportedCurves ClientHello.ticketSupported
       ClientHello.sessionTicket ClientHello.supportedSignatureAlgorithms
       ClientHello.alpnProtocols].
  match goal with
  | |- context [ClientHello.putProtocols ?l] =>
      assert (Hblock : lengthN (putAll (fun s => putVec 1 (bytesOf s)) l)
                       <= 21 * lengthN l)
  end.
  { apply lengthN_putAll_le. eapply Forall_impl; [|exact Hprotos].
    intros s H'. cbv beta in H' |- *. rewrite lengthN_putVec. lia. }
  match goal with
  | |- context [if ?b then table else []] =>
      assert (Halgs : Forall (fun a => a < 65536) (if b then table else [])
                      /\ lengthN (if b then table else []) <= 32000)
        by (destruct b; split; auto; rewrite ?lengthN_nil; lia);
      destruct Halgs as [Halgs Halgn];
      set (algs := if b then table else []) in *; clearbody algs
  end.
  repeat apply conj; try assumption.
  - match goal with
    | H : Forall _ ?l |- Forall _ ?l =>
        eapply Forall_impl; [|exact H]; now intros c [_ Hc]
    end.
  - now rewrite endsWithDot_HasSuffix.
  - unfold lengthN in *. lia.
  - lia.
  - match goal with
    | H : Forall _ ?l |- Forall _ ?l =>
        eapply Forall_impl; [|exact H]; now intros c [Hc _]
    end.
  - unfold lengthN in *. lia.
  - lia.
  - lia.
  - match goal with
    | H : Forall _ ?l |- Forall _ ?l =>
        eapply Forall_impl; [|exact H]; intros c Hc; cbv beta in Hc; lia
    end.
  - eapply Forall_impl; [|exact Hprotos]. intros s H'. cbv beta in H'. lia.
  - unfold ClientHello.putServerName, putUint16s, ClientHello.putProtocols.
    repeat (rewrite lengthN_putVec || rewrite lengthN_app
            || rewrite lengthN_putUint || rewrite lengthN_putUint16s_block).
    bound_ifs. unfold lengthN in *. lia.
Qed.

Lemma generateServerHello_valid : always generateServerHello ServerHello.valid.
Proof.
  serverHello_steps.
  unfold ServerHello.valid.
  rewrite sh_block_length.
  cbn [ServerHello.vers ServerHello.random ServerHello.sessionId
       ServerHello.cipherSuite ServerHello.nextProtoNeg ServerHello.nextProtos
       ServerHello.ocspStapling ServerHello.ticketSupported
       ServerHello.alpnProtocol ServerHello.scts].
  assert (Hnp : lengthN (ServerHello.putNextProtos protos) <= 21 * lengthN protos).
  { apply lengthN_putAll_le. eapply Forall_impl; [|exact Hprotos].
    intros s H'. cbv beta in H' |- *. rewrite lengthN_putVec. lia. }
  assert (Hsc : lengthN (putAll (putVec 2) scts) <= 502 * lengthN scts).
  { apply lengthN_putAll_le. eapply Forall_impl; [|exact Hsct].
    intros s H'. cbv beta in H' |- *. rewrite lengthN_putVec. lia. }
  repeat apply conj; try assumption.
  - unfold lengthN in *. lia.
  - lia.
  - now apply N.mod_lt.
  - eapply Forall_impl; [|exact Hprotos]. intros s H'. cbv beta in H'. lia.
  - lia.
  - eapply Forall_impl; [|exact Hsct]. intros s H' ->. cbv beta in H'.
    rewrite lengthN_nil in H'. lia.
  - unfold ServerHello.putAlpnProtocol, putVecs.
    repeat (rewrite lengthN_putVec || rewrite lengthN_app
            || rewrite lengthN_putUint).
    bound_ifs. unfold lengthN in *. lia.
Qed.

Lemma certificates_block (l : list bytes) :
  lengthN l < 20 -> Forall (fun c => 1 <= lengthN c <= 10) l ->
  lengthN (putVecs 3 l) < 1000.
Proof.
  intros Hl Hall. unfold putVecs. rewrite lengthN_putVec.
  assert (lengthN (putAll (putVec 3) l) <= 13 * lengthN l).
  { apply lengthN_putAll_le. eapply Forall_impl; [|exact Hall].
    intros c Hc. cbv beta in Hc |- *. rewrite lengthN_putVec. lia. }
  lia.
Qed.

Lemma generateFinished_valid : always generateFinished Finished.valid.
Proof.
  unfold generateFinished. gen_step. apply always_ret.
  unfold Finished.valid. cbn [Finished.verifyData]. unfold lengthN in *. lia.
Qed.

Lemma generateCertificate_valid : always generateCertificate Certificate.valid.
Proof.
  unfold generateCertificate.
  eapply always_bind; [apply always_generateCertificates|].
  intros l [Hl Hall]. apply always_ret.
  unfold Certificate.valid, Certificate.body. cbn [Certificate.certificates].
  pose proof (certificates_block l Hl Hall). lia.
Qed.

Lemma generateCertificateRequest_valid :
  always generateCertificateRequest CertificateRequest.valid.
Proof.
  unfold generateCertificateRequest. do 2 gen_step.
  eapply always_bind; [apply always_certificateAuthorities|].
  intros l [Hl Hall]. apply always_ret.
  unfold CertificateRequest.valid.
  cbn [CertificateRequest.certificateTypes
       CertificateRequest.certificateAuthorities].
  assert (lengthN (putAll (putVec 2) l) <= 17 * lengthN l).
  { apply lengthN_putAll_le. eapply Forall_impl; [|exact Hall].
    intros c Hc. cbv beta in Hc |- *. rewrite lengthN_putVec. lia. }
  split; lia.
Qed.

Lemma generateCertificateVerify_valid :
  always generateCertificateVerify CertificateVerify.valid.
Proof.
  unfold generateCertificateVerify. do 2 gen_step. apply always_ret.
  unfold CertificateVerify.valid. cbn [CertificateVerify.signature]. lia.
Qed.

Lemma generateCertificateStatus_valid :
  always generateCertificateStatus CertificateStatus.valid.
Proof.
  unfold generateCertificateStatus. gen_step.
  match goal with
  | |- always (if ?b then _ else _) _ => destruct b
  end.
  - do 2 gen_step. apply always_ret.
    unfold CertificateStatus.valid.
    cbn [CertificateStatus.statusType CertificateStatus.response].
    split; [congruence|lia].
  - apply always_ret. unfold CertificateStatus.valid.
    cbn [CertificateStatus.statusType CertificateStatus.response].
    split; [reflexivity|]. rewrite lengthN_nil. lia.
Qed.

Lemma generateClientKeyExchange_valid :
  always generateClientKeyExchange ClientKeyExchange.valid.
Proof.
  unfold generateClientKeyExchange. do 2 gen_step. apply always_ret.
  unfold ClientKeyExchange.valid. cbn [ClientKeyExchange.ciphertext]. lia.
Qed.

Lemma generateNextProto_valid : always generateNextProto NextProto.valid.
Proof.
  unfold generateNextProto. do 2 gen_step. apply always_ret.
  unfold NextProto.valid. cbn [NextProto.proto]. lia.
Qed.

Lemma generateNewSessionTicket_valid :
  always generateNewSessionTicket NewSessionTicket.valid.
Proof.
  unfold generateNewSessionTicket. do 2 gen_step. apply always_ret.
  unfold NewSessionTicket.valid. cbn [NewSessionTicket.ticket]. lia.
Qed.

Lemma generateSessionState_valid : always generateSessionState SessionState.valid.
Proof.
  unfold generateSessionState. do 4 gen_step.
  eapply always_bind; [apply always_generateCertificates|].
  intros l [Hl Hall]. apply always_ret.
  unfold SessionState.valid, SessionState.body.
  cbn [SessionState.vers SessionState.cipherSuite SessionState.masterSecret
       SessionState.certificates].
  repeat (rewrite lengthN_putVec || rewrite lengthN_app
          || rewrite lengthN_putUint).
  pose proof (certificates_block l Hl Hall).
  repeat apply conj; lia.
Qed.

Ltac generated_by lemma :=
  eapply always_bind; [apply lemma|];
  let m := fresh "m" in
  let Hm := fresh "Hm" in
  intros m Hm; apply always_ret; split; [reflexivity|exact Hm].

Lemma generate_valid (table : list N) (v : variant) :
  Forall (fun a => a < 65536) table ->
  lengthN table <= 32000 ->
  always (generate table v) (fun m => variantOf m = v /\ validFields m).
Proof.
  intros Htable Hsize.
  destruct v; cbn [generate].
  - generated_by (generateClientHello_valid table Htable Hsize).
  - generated_by generateServerHello_valid.
  - generated_by generateFinished_valid.
  - generated_by generateCertificate_valid.
  - generated_by generateCertificateRequest_valid.
  - generated_by generateCertificateVerify_valid.
  - generated_by generateCertificateStatus_valid.
  - generated_by generateClientKeyExchange_valid.
  - generated_by generateNextProto_valid.
  - generated_by generateNewSessionTicket_valid.
  - generated_by generateSessionState_valid.
Qed.

(** X15: the checks of TestMarshalUnmarshal hold of every generated message,
    on the codec as modelled: when the table of signature algorithms holds
    at most 32000 16-bit values, a message generated for a variant is of
    that variant and valid; parsing the bytes it marshals to succeeds and
    gives back its fields; and for the variants after the first three, no
    proper prefix of these bytes parses. *)
Theorem generated_messages_pass_the_round_trip
    (table : list N) (typeTag : variant -> byte) (v : variant) (r : Rand) :
  Forall (fun a => a < 65536) table ->
  lengthN table <= 32000 ->
  let m1 := fst (generate table v r) in
  let marshaled := fst (marshal typeTag (fresh m1)) in
  variantOf m1 = v /\
  validFields m1 /\
  unmarshal v marshaled = Ok {| raw := Some marshaled; fields := m1 |} /\
  forall j : nat,
    hasOptionalTail v = false ->
    (j < List.length marshaled)%nat ->
    unmarshal v (firstn j marshaled) = Failure.
Proof.
  intros Htable Hsize m1 marshaled.
  destruct (generate_valid table v Htable Hsize r) as [Hv Hm].
  fold m1 in Hv, Hm.
  pose proof (unmarshal_marshal_fresh typeTag m1 Hm) as Hparse.
  rewrite Hv in Hparse.
  repeat split; try assumption.
  intros j Hstrict Hj.
  exact (unmarshal_rejects_proper_prefixes v marshaled _ j Hstrict Hparse Hj).
Qed.

Lemma generated_messages_pass_the_round_trip_witness :
  Forall (fun a => a < 65536) [1025; 1027] /\
  lengthN [1025; 1027] <= 32000 /\
  let m1 := fst (generate [1025; 1027] vCertificateRequest sampleRand) in
  let marshaled := fst (marshal tlsTypeTag (fresh m1)) in
  variantOf m1 = vCertificateRequest /\
  validFields m1 /\
  unmarshal vCertificateRequest marshaled
  = Ok {| raw := Some marshaled; fields := m1 |} /\
  forall j : nat,
    hasOptionalTail vCertificateRequest = false ->
    (j < List.length marshaled)%nat ->
    unmarshal vCertificateRequest (firstn j marshaled) = Failure.
Proof.
  assert (Htable : Forall (fun a => a < 65536) [1025; 1027])
    by (repeat constructor).
  assert (Hsize : lengthN [1025; 1027] <= 32000) by (vm_compute; discriminate).
  split; [exact Htable|]. split; [exact Hsize|].
  exact (generated_messages_pass_the_round_trip
           [1025; 1027] tlsTypeTag vCertificateRequest sampleRand Htable Hsize).
Defined.
